(** * Accessed-storage analysis (lib/SILOptimizer/Analysis/AccessedStorageAnalysis.cpp)

    A shallow embedding of the per-function accessed-storage summary, its
    merge operations, the callee-to-caller storage transform and the conflict
    query, followed by the properties proved about them.

    Conventions.
    - [assert] and [llvm_unreachable] are fatal: a computation that runs into
      one aborts, which is the [Abort] outcome of the [result] monad.
    - A C++ method that mutates [*this] takes the object and returns the
      updated object together with its C++ return value.
    - [unsigned] quantities are [N]; the one subtraction the code performs on
      them wraps modulo 2^32.
    - A [SILValue] is a handle on a node of the function body. The null
      [SILValue()] and the default-constructed, invalid [AccessedStorage()]
      are the [None] of an [option]. *)

From Stdlib Require Import ZArith NArith List Bool Lia Permutation.
Import ListNotations.

(** ** Fatal outcomes *)

Inductive Fatal : Type :=
| AssertionFailed   (* assert(...) did not hold *)
| Unreachable.      (* llvm_unreachable(...) was executed *)

Inductive result (A : Type) : Type :=
| Ok (a : A)
| Abort (f : Fatal).

Arguments Ok {A} a.
Arguments Abort {A} f.

Definition bind {A B : Type} (m : result A) (k : A -> result B) : result B :=
  match m with
  | Ok a => k a
  | Abort f => Abort f
  end.

Notation "x <- m ;; k" := (bind m (fun x => k))
  (at level 61, m at next level, right associativity).
Notation "' p <- m ;; k" := (bind m (fun x => match x with p => k end))
  (at level 61, p pattern, m at next level, right associativity).

Definition assert (b : bool) : result unit :=
  if b then Ok tt else Abort AssertionFailed.

(** ** The program representation the analysis reads *)

(** Handles on the objects of the program representation. *)
Definition SILValue := N.
Definition SILGlobalVariable := N.
Definition Projection := N.
Definition SILFunction := N.

(** [unsigned] subtraction, as in [paramIndex - firstAppliedArg]. *)
Definition unsigned_sub (a b : N) : N :=
  Z.to_N ((Z.of_N a - Z.of_N b) mod 2 ^ 32).

Module SILAccessKind.
(** The source names [Read] and [Modify] and says of the two others
    "Assume we don't track Init/Deinit". *)
Inductive t : Type := Init | Read | Modify | Deinit.

Definition eqb (a b : t) : bool :=
  match a, b with
  | Init, Init | Read, Read | Modify, Modify | Deinit, Deinit => true
  | _, _ => false
  end.
End SILAccessKind.

Module SILAccessEnforcement.
(** Modelled from the spec: the enforcement mode of a begin-access
    instruction, "static/dynamic -- only dynamic is tracked"; the enum is
    declared outside the analysed file. *)
Inductive t : Type := Static | Dynamic.

Definition eqb (a b : t) : bool :=
  match a, b with
  | Static, Static | Dynamic, Dynamic => true
  | _, _ => false
  end.
End SILAccessEnforcement.

(** Modelled from the spec: what a [SILValue] points to, as far as the
    [dyn_cast]s of the analysis can tell: a function argument with its index,
    or a partial application, which carries "a list of captured arguments
    appended at a known offset"; the instruction classes are declared outside
    the analysed file. *)
Inductive ValueBase : Type :=
| SILFunctionArgument (index : N)
| PartialApplyInst (arguments : list SILValue)
                   (calleeArgIndexOfFirstAppliedArg : N)
| OtherValue.

(** Modelled from the spec: "call instructions carry a callee value and an
    ordered argument list"; the class is declared outside the analysed
    file. *)
Record FullApplySite : Type := mkFullApplySite {
  fa_arguments : list SILValue;
  fa_calleeOrigin : SILValue
}.

(** The operand list of an apply or partial-apply instruction:
    [getNumArguments()] and [getArgument(i)]. An operand list has fewer than
    2^32 elements, so its size fits [unsigned]. *)
Definition getNumArguments (args : list SILValue) : N :=
  N.of_nat (length args).

Definition getArgument (args : list SILValue) (i : N) : option SILValue :=
  nth_error args (N.to_nat i).

Module AccessedStorage.
Inductive Kind : Type :=
| Box | Stack | Global | Class | Argument | Nested | Unidentified.

(** Modelled from the spec: the storage identity is "a tagged variant/sum
    type over the enumerated kinds, each carrying exactly the fields it
    needs"; the class is declared outside the analysed file. An [Argument]
    identity carries its parameter index ([getParamIndex]) and the
    callee-side value it stands for ([getValue]). Every inhabitant is a
    valid storage object. *)
Inductive t : Type :=
| OfBox (value : SILValue)
| OfStack (value : SILValue)
| OfGlobal (global : SILGlobalVariable)
| OfClass (object : SILValue) (projection : Projection)
| OfArgument (paramIndex : N) (value : SILValue)
| OfNested (value : SILValue)
| OfUnidentified (value : SILValue).

Definition getKind (s : t) : Kind :=
  match s with
  | OfBox _ => Box
  | OfStack _ => Stack
  | OfGlobal _ => Global
  | OfClass _ _ => Class
  | OfArgument _ _ => Argument
  | OfNested _ => Nested
  | OfUnidentified _ => Unidentified
  end.

(** Structural equality, the key comparison of the summary's map. *)
Definition eqb (a b : t) : bool :=
  match a, b with
  | OfBox v, OfBox w => N.eqb v w
  | OfStack v, OfStack w => N.eqb v w
  | OfGlobal g, OfGlobal h => N.eqb g h
  | OfClass o p, OfClass o' p' => N.eqb o o' && N.eqb p p'
  | OfArgument i v, OfArgument j w => N.eqb i j && N.eqb v w
  | OfNested v, OfNested w => N.eqb v w
  | OfUnidentified v, OfUnidentified w => N.eqb v w
  | _, _ => false
  end.

(** [storage.getKind() == AccessedStorage::Unidentified] *)
Definition isUnidentified (s : t) : bool :=
  match getKind s with Unidentified => true | _ => false end.

Definition isNested (s : t) : bool :=
  match getKind s with Nested => true | _ => false end.

(** Callee-local storage: kind [Box] or [Stack]. *)
Definition isLocal (s : t) : bool :=
  match getKind s with Box | Stack => true | _ => false end.
End AccessedStorage.

(** Modelled from the spec: "Two accessKinds conflict iff at least one of
    them is Modify (Read/Read never conflicts)"; [accessKindMayConflict] is
    declared outside the analysed file. *)
Definition accessKindMayConflict (a b : SILAccessKind.t) : bool :=
  SILAccessKind.eqb a SILAccessKind.Modify
  || SILAccessKind.eqb b SILAccessKind.Modify.

(** ** StorageAccessInfo *)

Record StorageAccessInfo : Type := mkStorageAccessInfo {
  accessKind : SILAccessKind.t;
  noNestedConflict : bool
}.

(** [static bool updateAccessKind(SILAccessKind &LHS, SILAccessKind RHS)]:
    the new [LHS] and the returned flag. *)
Definition updateAccessKind (LHS RHS : SILAccessKind.t)
  : SILAccessKind.t * bool :=
  match LHS, RHS with
  | SILAccessKind.Read, SILAccessKind.Modify => (RHS, true)
  | _, _ => (LHS, false)
  end.

Definition updateOptionalAccessKind (LHS RHS : option SILAccessKind.t)
  : option SILAccessKind.t * bool :=
  match RHS with
  | None => (LHS, false)
  | Some r =>
      match LHS with
      | None => (RHS, true)
      | Some l => let '(l', changed) := updateAccessKind l r in
                  (Some l', changed)
      end
  end.

(** The condition of the assertion "uninitialized info". *)
Definition isInitialized (k : SILAccessKind.t) : bool :=
  SILAccessKind.eqb k SILAccessKind.Read
  || SILAccessKind.eqb k SILAccessKind.Modify.

Module StorageAccessInfoOps.
(** [bool StorageAccessInfo::mergeFrom(const StorageAccessInfo &RHS)] *)
Definition mergeFrom (self RHS : StorageAccessInfo)
  : result (StorageAccessInfo * bool) :=
  _ <- assert (isInitialized (accessKind self)) ;;
  let '(kind, changed) := updateAccessKind (accessKind self) (accessKind RHS) in
  if noNestedConflict self && negb (noNestedConflict RHS)
  then Ok (mkStorageAccessInfo kind false, true)
  else Ok (mkStorageAccessInfo kind (noNestedConflict self), changed).

(** A sequence of merges applied to one record, left to right. *)
Fixpoint mergeFromAll (self : StorageAccessInfo) (others : list StorageAccessInfo)
  : result StorageAccessInfo :=
  match others with
  | [] => Ok self
  | RHS :: rest =>
      '(self', _) <- mergeFrom self RHS ;;
      mergeFromAll self' rest
  end.
End StorageAccessInfoOps.

(** ** FunctionAccessedStorage *)

(** The summary's [DenseMap<AccessedStorage, StorageAccessInfo>]: its entries
    in iteration order. *)
Definition StorageAccessMap : Type :=
  list (AccessedStorage.t * StorageAccessInfo).

Record FunctionAccessedStorage : Type := mkFunctionAccessedStorage {
  storageAccessMap : StorageAccessMap;
  unidentifiedAccess : option SILAccessKind.t
}.

(** The entry an iterator on key [k] points to. *)
Fixpoint find (m : StorageAccessMap) (k : AccessedStorage.t)
  : option StorageAccessInfo :=
  match m with
  | [] => None
  | (k', info) :: rest =>
      if AccessedStorage.eqb k k' then Some info else find rest k
  end.

(** Assignment through an iterator on key [k]. *)
Fixpoint store (m : StorageAccessMap) (k : AccessedStorage.t)
  (info : StorageAccessInfo) : StorageAccessMap :=
  match m with
  | [] => []
  | (k', info') :: rest =>
      if AccessedStorage.eqb k k' then (k', info) :: rest
      else (k', info') :: store rest k info
  end.

(** [DenseMap::try_emplace]: the map and whether a new key was added. *)
Definition try_emplace (m : StorageAccessMap) (k : AccessedStorage.t)
  (info : StorageAccessInfo) : StorageAccessMap * bool :=
  match find m k with
  | Some _ => (m, false)
  | None => (m ++ [(k, info)], true)
  end.

(** [result.first->second.mergeFrom(info)] on the entry of key [k]. *)
Definition mergeEntry (m : StorageAccessMap) (k : AccessedStorage.t)
  (info : StorageAccessInfo) : result (StorageAccessMap * bool) :=
  match find m k with
  | Some mapped =>
      '(mapped', changed) <- StorageAccessInfoOps.mergeFrom mapped info ;;
      Ok (store m k mapped', changed)
  | None => Ok (m, false)
  end.

(** The [other] argument of a merge: [const FunctionAccessedStorage &other]
    is either a summary of its own or, for self-recursion, [*this]. *)
Inductive OtherRef : Type :=
| This
| Other (other : FunctionAccessedStorage).

Definition deref (this : FunctionAccessedStorage) (r : OtherRef)
  : FunctionAccessedStorage :=
  match r with
  | This => this
  | Other other => other
  end.

(** Modelled from the spec: the abstract side-effect signature,
    "globalEffects: {mayRead,mayWrite}, perParameterEffects: ordered sequence
    of {mayRead,mayWrite}"; the classes are declared outside the analysed
    file. *)
Record Effects : Type := mkEffects {
  mayRead : bool;
  mayWrite : bool
}.

Record FunctionSideEffects : Type := mkFunctionSideEffects {
  getGlobalEffects : Effects;
  getParameterEffects : list Effects
}.

(** Modelled from the spec: the instruction's fields read by the analysis,
    "an access kind (Read/Modify), an enforcement mode, an optional no nested
    conflict flag, and a source address value"; the instruction classes are
    declared outside the analysed file. *)
Record BeginAccess : Type := mkBeginAccess {
  getEnforcement : SILAccessEnforcement.t;
  getSource : SILValue;
  getAccessKind : SILAccessKind.t;
  hasNoNestedConflict : bool
}.

Inductive SILInstruction : Type :=
| BeginAccessInst (beginAccess : BeginAccess)
| BeginUnpairedAccessInst (beginAccess : BeginAccess)
| OtherInst (opcode : N).

(** Modelled from the spec: the record built from a begin-access instruction
    has its "access kind taken from the instruction, noNestedConflict taken
    from the instruction's static no-conflict annotation"; the constructor
    [StorageAccessInfo(B *beginAccess)] is declared outside the analysed
    file. *)
Definition StorageAccessInfo_of (b : BeginAccess) : StorageAccessInfo :=
  mkStorageAccessInfo (getAccessKind b) (hasNoNestedConflict b).

Section Analysis.

(** The collaborators of the analysis. *)

(** The node a value handle points to ([dyn_cast]). *)
Variable valueDef : SILValue -> ValueBase.
(** [findAccessedStorageOrigin(SILValue)] *)
Variable findAccessedStorageOrigin : SILValue -> AccessedStorage.t.
(** [AccessedStorage::isDistinctFrom] *)
Variable isDistinctFrom : AccessedStorage.t -> AccessedStorage.t -> bool.
(** [SILFunction::isDefinition] *)
Variable isDefinition : SILFunction -> bool.
(** [FunctionSideEffects::summarizeFunction]: the side effects when it
    returns true, [None] when it returns false. *)
Variable summarizeSideEffects : SILFunction -> option FunctionSideEffects.

(** Modelled from the spec: "set unidentifiedAccess = Modify (worst
    case)"; [setWorstEffects] is declared outside the analysed file. *)
Definition setWorstEffects (this : FunctionAccessedStorage)
  : FunctionAccessedStorage :=
  mkFunctionAccessedStorage (storageAccessMap this)
                            (Some SILAccessKind.Modify).

(** The loop over [getParameterEffects()]. *)
Fixpoint orParameterEffects (params : list Effects) (acc : bool * bool)
  : bool * bool :=
  match params with
  | [] => acc
  | paramEffects :: rest =>
      orParameterEffects rest
        (fst acc || mayRead paramEffects, snd acc || mayWrite paramEffects)
  end.

(** [bool FunctionAccessedStorage::summarizeFunction(SILFunction *F)] *)
Definition summarizeFunction (this : FunctionAccessedStorage) (F : SILFunction)
  : result (FunctionAccessedStorage * bool) :=
  _ <- assert (match storageAccessMap this with [] => true | _ => false end) ;;
  if isDefinition F then Ok (this, false)
  else
    match summarizeSideEffects F with
    | None => Ok (setWorstEffects this, true)
    | Some functionSideEffects =>
        let '(mayRead, mayWrite) :=
          orParameterEffects (getParameterEffects functionSideEffects)
            (mayRead (getGlobalEffects functionSideEffects),
             mayWrite (getGlobalEffects functionSideEffects)) in
        if mayWrite then
          Ok (mkFunctionAccessedStorage (storageAccessMap this)
                                        (Some SILAccessKind.Modify), true)
        else if mayRead then
          Ok (mkFunctionAccessedStorage (storageAccessMap this)
                                        (Some SILAccessKind.Read), true)
        else Ok (this, true)
    end.

(** [bool FunctionAccessedStorage::updateUnidentifiedAccess(SILAccessKind)] *)
Definition updateUnidentifiedAccess (this : FunctionAccessedStorage)
  (kind : SILAccessKind.t) : FunctionAccessedStorage * bool :=
  match unidentifiedAccess this with
  | None =>
      (mkFunctionAccessedStorage (storageAccessMap this) (Some kind), true)
  | Some current =>
      let '(current', changed) := updateAccessKind current kind in
      (mkFunctionAccessedStorage (storageAccessMap this) (Some current'),
       changed)
  end.

(** One iteration of the loop of [mergeAccesses] over the copied entries. *)
Definition mergeAccessEntry
  (transformStorage : AccessedStorage.t -> result (option AccessedStorage.t))
  (acc : FunctionAccessedStorage * bool)
  (accessEntry : AccessedStorage.t * StorageAccessInfo)
  : result (FunctionAccessedStorage * bool) :=
  let '(this, changed) := acc in
  transformed <- transformStorage (fst accessEntry) ;;
  match transformed with
  | None => Ok (this, changed)
  | Some storage =>
      if AccessedStorage.isUnidentified storage then
        let '(this', c) :=
          updateUnidentifiedAccess this (accessKind (snd accessEntry)) in
        Ok (this', changed || c)
      else
        let '(map', inserted) :=
          try_emplace (storageAccessMap this) storage (snd accessEntry) in
        if inserted then
          Ok (mkFunctionAccessedStorage map' (unidentifiedAccess this), true)
        else
          '(map'', c) <- mergeEntry map' storage (snd accessEntry) ;;
          Ok (mkFunctionAccessedStorage map'' (unidentifiedAccess this),
              changed || c)
  end.

Fixpoint mergeAccessEntries
  (transformStorage : AccessedStorage.t -> result (option AccessedStorage.t))
  (otherAccesses : StorageAccessMap)
  (acc : FunctionAccessedStorage * bool)
  : result (FunctionAccessedStorage * bool) :=
  match otherAccesses with
  | [] => Ok acc
  | accessEntry :: rest =>
      acc' <- mergeAccessEntry transformStorage acc accessEntry ;;
      mergeAccessEntries transformStorage rest acc'
  end.

(** [bool FunctionAccessedStorage::mergeAccesses(other, transformStorage)].
    The entries of [other] are copied before the loop; [other]'s
    unidentified access is read after it, from [*this] when the two are
    the same object. *)
Definition mergeAccesses (this : FunctionAccessedStorage) (other : OtherRef)
  (transformStorage : AccessedStorage.t -> result (option AccessedStorage.t))
  : result (FunctionAccessedStorage * bool) :=
  let otherAccesses := storageAccessMap (deref this other) in
  '(this', changed) <-
    mergeAccessEntries transformStorage otherAccesses (this, false) ;;
  match unidentifiedAccess (deref this' other) with
  | Some kind =>
      let '(this'', c) := updateUnidentifiedAccess this' kind in
      Ok (this'', changed || c)
  | None => Ok (this', changed)
  end.

(** [bool FunctionAccessedStorage::mergeFrom(other)]: the transform is the
    identity. *)
Definition mergeFrom (this : FunctionAccessedStorage) (other : OtherRef)
  : result (FunctionAccessedStorage * bool) :=
  mergeAccesses this other (fun s => Ok (Some s)).

(** [static SILValue getCallerArg(FullApplySite, unsigned paramIndex)] *)
Definition getCallerArg (fullApply : FullApplySite) (paramIndex : N)
  : option SILValue :=
  if (paramIndex <? getNumArguments (fa_arguments fullApply))%N then
    getArgument (fa_arguments fullApply) paramIndex
  else
    match valueDef (fa_calleeOrigin fullApply) with
    | PartialApplyInst arguments firstAppliedArg =>
        let appliedIndex := unsigned_sub paramIndex firstAppliedArg in
        if (appliedIndex <? getNumArguments arguments)%N then
          getArgument arguments appliedIndex
        else None
    | _ => None
    end.

(** [static AccessedStorage transformCalleeStorage(storage, fullApply)] *)
Definition transformCalleeStorage (storage : AccessedStorage.t)
  (fullApply : FullApplySite) : result (option AccessedStorage.t) :=
  match storage with
  | AccessedStorage.OfBox _
  | AccessedStorage.OfStack _ => Ok None
  | AccessedStorage.OfGlobal _ => Ok (Some storage)
  | AccessedStorage.OfClass obj projection =>
      match valueDef obj with
      | SILFunctionArgument index =>
          match getCallerArg fullApply index with
          | Some argVal => Ok (Some (AccessedStorage.OfClass argVal projection))
          | None => Ok (Some storage)
          end
      | _ => Ok (Some storage)
      end
  | AccessedStorage.OfArgument paramIndex value =>
      match getCallerArg fullApply paramIndex with
      | Some argVal => Ok (Some (findAccessedStorageOrigin argVal))
      | None => Ok (Some (AccessedStorage.OfUnidentified value))
      end
  | AccessedStorage.OfNested _ => Abort Unreachable
  | AccessedStorage.OfUnidentified _ => Ok (Some storage)
  end.

(** [bool FunctionAccessedStorage::mergeFromApply(calleeAccess, fullApply)] *)
Definition mergeFromApply (this : FunctionAccessedStorage)
  (calleeAccess : OtherRef) (fullApply : FullApplySite)
  : result (FunctionAccessedStorage * bool) :=
  mergeAccesses this calleeAccess
    (fun s => transformCalleeStorage s fullApply).

(** [template <typename B> void visitBeginAccess(B *beginAccess)] *)
Definition visitBeginAccess (this : FunctionAccessedStorage)
  (beginAccess : BeginAccess) : result FunctionAccessedStorage :=
  if negb (SILAccessEnforcement.eqb (getEnforcement beginAccess)
                                    SILAccessEnforcement.Dynamic)
  then Ok this
  else
    let storage := findAccessedStorageOrigin (getSource beginAccess) in
    if AccessedStorage.isUnidentified storage then
      Ok (mkFunctionAccessedStorage (storageAccessMap this)
            (fst (updateOptionalAccessKind (unidentifiedAccess this)
                    (Some (getAccessKind beginAccess)))))
    else
      let accessInfo := StorageAccessInfo_of beginAccess in
      let '(map', inserted) :=
        try_emplace (storageAccessMap this) storage accessInfo in
      if negb inserted then
        '(map'', _) <- mergeEntry map' storage accessInfo ;;
        Ok (mkFunctionAccessedStorage map'' (unidentifiedAccess this))
      else Ok (mkFunctionAccessedStorage map' (unidentifiedAccess this)).

(** [void FunctionAccessedStorage::analyzeInstruction(SILInstruction *I)] *)
Definition analyzeInstruction (this : FunctionAccessedStorage)
  (I : SILInstruction) : result FunctionAccessedStorage :=
  match I with
  | BeginAccessInst BAI => visitBeginAccess this BAI
  | BeginUnpairedAccessInst BUAI => visitBeginAccess this BUAI
  | OtherInst _ => Ok this
  end.

(** The loop of [mayConflictWith] over the map's entries. The assertion on
    each key holds by typing: a key is a valid storage object. *)
Fixpoint mayConflictWithEntries (entries : StorageAccessMap)
  (otherAccessKind : SILAccessKind.t) (otherStorage : AccessedStorage.t)
  : bool :=
  match entries with
  | [] => false
  | (storage, accessInfo) :: rest =>
      if negb (accessKindMayConflict otherAccessKind (accessKind accessInfo))
      then mayConflictWithEntries rest otherAccessKind otherStorage
      else if negb (isDistinctFrom otherStorage storage) then true
      else mayConflictWithEntries rest otherAccessKind otherStorage
  end.

(** [bool FunctionAccessedStorage::mayConflictWith(kind, storage)] *)
Definition mayConflictWith (this : FunctionAccessedStorage)
  (otherAccessKind : SILAccessKind.t) (otherStorage : AccessedStorage.t)
  : bool :=
  match unidentifiedAccess this with
  | Some kind =>
      if accessKindMayConflict otherAccessKind kind then true
      else mayConflictWithEntries (storageAccessMap this)
             otherAccessKind otherStorage
  | None =>
      mayConflictWithEntries (storageAccessMap this)
        otherAccessKind otherStorage
  end.

End Analysis.

(** * Specification vocabulary *)

(** The order of the two-element lattice [Read < Modify]; the untracked
    kinds are only related to themselves. *)
Definition accessKind_le (a b : SILAccessKind.t) : Prop :=
  a = b \/ (a = SILAccessKind.Read /\ b = SILAccessKind.Modify).

(** A record only moves up: its kind in [Read < Modify], its flag towards
    [false]. *)
Definition info_le (r r' : StorageAccessInfo) : Prop :=
  accessKind_le (accessKind r) (accessKind r')
  /\ (noNestedConflict r' = true -> noNestedConflict r = true).

(** Every record of a map passes the assertion of
    [StorageAccessInfo::mergeFrom]. *)
Definition allInitialized (m : StorageAccessMap) : Prop :=
  Forall (fun e => isInitialized (accessKind (snd e)) = true) m.

(** The keys of a [DenseMap] are pairwise different. *)
Definition uniqueKeys (m : StorageAccessMap) : Prop :=
  NoDup (map fst m).

Definition noNestedKeys (m : StorageAccessMap) : Prop :=
  Forall (fun e => AccessedStorage.isNested (fst e) = false) m.

Definition noUnidentifiedKeys (m : StorageAccessMap) : Prop :=
  Forall (fun e => AccessedStorage.isUnidentified (fst e) = false) m.

(** [S'] has everything [S] has, possibly moved up: every key of [S] is a
    key of [S'] with a record at least as high, and an unidentified access
    of [S] is still set in [S'], at least as high. *)
Definition grows (S S' : FunctionAccessedStorage) : Prop :=
  (forall k r, find (storageAccessMap S) k = Some r ->
               exists r', find (storageAccessMap S') k = Some r'
                          /\ info_le r r')
  /\ (forall u, unidentifiedAccess S = Some u ->
                exists u', unidentifiedAccess S' = Some u'
                           /\ accessKind_le u u').

(** What the map of every summary built by the analysis satisfies: its keys
    are pairwise different and none of them is [Unidentified]. *)
Definition wellFormedMap (m : StorageAccessMap) : Prop :=
  uniqueKeys m /\ noUnidentifiedKeys m.

(** The entries of a callee summary that are not callee-local. *)
Definition withoutLocalStorage (S : FunctionAccessedStorage)
  : FunctionAccessedStorage :=
  mkFunctionAccessedStorage
    (filter (fun e => negb (AccessedStorage.isLocal (fst e)))
            (storageAccessMap S))
    (unidentifiedAccess S).

(** A size that every change made by a merge or a visit strictly increases:
    a record weighs one for being [Modify] and one for a cleared flag; the
    unidentified access weighs nothing when unset; a summary weighs the
    number of its entries plus the weights of its records and of its
    unidentified access. *)
Definition infoWeight (r : StorageAccessInfo) : nat :=
  (if SILAccessKind.eqb (accessKind r) SILAccessKind.Modify then 1 else 0)
  + (if noNestedConflict r then 0 else 1).

Definition unidentifiedWeight (u : option SILAccessKind.t) : nat :=
  match u with
  | None => 0
  | Some SILAccessKind.Read => 1
  | Some _ => 2
  end.

Fixpoint mapWeight (m : StorageAccessMap) : nat :=
  match m with
  | [] => 0
  | (_, r) :: rest => S (infoWeight r + mapWeight rest)
  end.

Definition summaryWeight (S : FunctionAccessedStorage) : nat :=
  mapWeight (storageAccessMap S) + unidentifiedWeight (unidentifiedAccess S).

(** The unidentified access [u] is set and joining [k] into it changes
    nothing. *)
Definition absorbsKind (u : option SILAccessKind.t) (k : SILAccessKind.t)
  : Prop :=
  exists c, u = Some c /\ updateAccessKind c k = (c, false).

(** Merging the entry [e] through [transformStorage] into [S] changes
    nothing: its transform is invalid, or [Unidentified] with a kind the
    unidentified access of [S] absorbs, or a key of [S] whose record the
    record of [e] merges into without change. *)
Definition absorbsEntry
  (transformStorage : AccessedStorage.t -> result (option AccessedStorage.t))
  (S : FunctionAccessedStorage)
  (e : AccessedStorage.t * StorageAccessInfo) : Prop :=
  match transformStorage (fst e) with
  | Ok None => True
  | Ok (Some storage) =>
      if AccessedStorage.isUnidentified storage then
        absorbsKind (unidentifiedAccess S) (accessKind (snd e))
      else
        exists r, find (storageAccessMap S) storage = Some r
                  /\ StorageAccessInfoOps.mergeFrom r (snd e) = Ok (r, false)
  | Abort _ => False
  end.

(** Entry by entry, [S'] has what [S] has, possibly moved up. *)
Definition entriesGrow (S S' : FunctionAccessedStorage) : Prop :=
  (forall k r, In (k, r) (storageAccessMap S) ->
               exists r', In (k, r') (storageAccessMap S') /\ info_le r r')
  /\ (forall u, unidentifiedAccess S = Some u ->
                exists u', unidentifiedAccess S' = Some u'
                           /\ accessKind_le u u').

(** The unidentified access of a summary is unset, [Read] or [Modify]. *)
Definition unidentifiedInitialized (S : FunctionAccessedStorage) : Prop :=
  forall u, unidentifiedAccess S = Some u -> isInitialized u = true.

(** Every conflict of the query [(k, s)] with [S] has the cause [Src]:
    whenever an entry of [S] or its unidentified access conflicts with the
    query, [Src] holds. *)
Definition conflictsExplained
  (isDistinctFrom : AccessedStorage.t -> AccessedStorage.t -> bool)
  (k : SILAccessKind.t) (s : AccessedStorage.t) (Src : Prop)
  (S : FunctionAccessedStorage) : Prop :=
  (forall storage r,
      In (storage, r) (storageAccessMap S) ->
      accessKindMayConflict k (accessKind r) = true ->
      isDistinctFrom s storage = false -> Src)
  /\ (forall u, unidentifiedAccess S = Some u ->
                accessKindMayConflict k u = true -> Src).

(** The entry [e] of the other summary, as far as its transform conflicts
    with the query [(k, s)], has the cause [Src]. *)
Definition entryExplained
  (transformStorage : AccessedStorage.t -> result (option AccessedStorage.t))
  (isDistinctFrom : AccessedStorage.t -> AccessedStorage.t -> bool)
  (k : SILAccessKind.t) (s : AccessedStorage.t) (Src : Prop)
  (e : AccessedStorage.t * StorageAccessInfo) : Prop :=
  forall storage,
    transformStorage (fst e) = Ok (Some storage) ->
    accessKindMayConflict k (accessKind (snd e)) = true ->
    AccessedStorage.isUnidentified storage = true
    \/ isDistinctFrom s storage = false ->
    Src.

(** * Properties *)

(** ** Access kinds and records *)

Lemma accessKindMayConflict_true_iff (a b : SILAccessKind.t) :
  accessKindMayConflict a b = true
  <-> a = SILAccessKind.Modify \/ b = SILAccessKind.Modify.
Proof.
  unfold accessKindMayConflict.
  destruct a, b; simpl; split; intros H;
    try discriminate; try reflexivity; auto;
    destruct H as [H | H]; discriminate H.
Qed.

Lemma isInitialized_true_iff (k : SILAccessKind.t) :
  isInitialized k = true
  <-> k = SILAccessKind.Read \/ k = SILAccessKind.Modify.
Proof.
  destruct k; simpl; split; intros H;
    try discriminate; try reflexivity; auto;
    destruct H as [H | H]; discriminate H.
Qed.

Lemma accessKind_le_refl (a : SILAccessKind.t) : accessKind_le a a.
Proof. left; reflexivity. Qed.

Lemma accessKind_le_trans (a b c : SILAccessKind.t) :
  accessKind_le a b -> accessKind_le b c -> accessKind_le a c.
Proof.
  unfold accessKind_le.
  intros [-> | [-> ->]] [-> | [Hb ->]]; auto; discriminate Hb.
Qed.

Lemma updateAccessKind_le (l r : SILAccessKind.t) :
  accessKind_le l (fst (updateAccessKind l r)).
Proof. destruct l, r; simpl; unfold accessKind_le; auto. Qed.

Lemma updateAccessKind_same (k : SILAccessKind.t) :
  updateAccessKind k k = (k, false).
Proof. destruct k; reflexivity. Qed.

Lemma updateAccessKind_initialized (l r : SILAccessKind.t) :
  isInitialized l = true ->
  isInitialized (fst (updateAccessKind l r)) = true.
Proof. destruct l, r; simpl; auto. Qed.

Lemma info_le_refl (r : StorageAccessInfo) : info_le r r.
Proof. split; [apply accessKind_le_refl | auto]. Qed.

Lemma info_le_trans (a b c : StorageAccessInfo) :
  info_le a b -> info_le b c -> info_le a c.
Proof.
  intros [Hk Hf] [Hk' Hf']; split;
    [eapply accessKind_le_trans; eauto | auto].
Qed.

Lemma info_mergeFrom_self (r : StorageAccessInfo) :
  isInitialized (accessKind r) = true ->
  StorageAccessInfoOps.mergeFrom r r = Ok (r, false).
Proof.
  intros Hinit. unfold StorageAccessInfoOps.mergeFrom.
  rewrite Hinit; simpl. rewrite updateAccessKind_same.
  destruct r as [k []]; reflexivity.
Qed.

(** An initialised record merges with anything, stays initialised and only
    moves up. *)
Lemma info_mergeFrom_ok (self RHS : StorageAccessInfo) :
  isInitialized (accessKind self) = true ->
  exists self' changed,
    StorageAccessInfoOps.mergeFrom self RHS = Ok (self', changed)
    /\ isInitialized (accessKind self') = true
    /\ info_le self self'
    /\ noNestedConflict self'
       = noNestedConflict self && noNestedConflict RHS.
Proof.
  intros Hinit. unfold StorageAccessInfoOps.mergeFrom.
  rewrite Hinit; simpl.
  pose proof (updateAccessKind_le (accessKind self) (accessKind RHS)) as Hle.
  pose proof (updateAccessKind_initialized _ (accessKind RHS) Hinit) as Hi.
  destruct (updateAccessKind (accessKind self) (accessKind RHS)) as [kind c].
  simpl in Hle, Hi.
  destruct (noNestedConflict self) eqn:Hs, (noNestedConflict RHS) eqn:Hr;
    simpl; eexists; eexists; (split; [reflexivity |]);
    unfold info_le; simpl; rewrite ?Hs; repeat split; auto.
Qed.

(** The only way a record merge aborts is its assertion. *)
Lemma info_mergeFrom_not_unreachable (self RHS : StorageAccessInfo) :
  StorageAccessInfoOps.mergeFrom self RHS <> Abort Unreachable.
Proof.
  unfold StorageAccessInfoOps.mergeFrom.
  destruct (isInitialized (accessKind self)); simpl; [| discriminate].
  destruct (updateAccessKind _ _), (_ && _); discriminate.
Qed.

Lemma info_mergeFromAll_app (R : StorageAccessInfo)
  (l1 l2 : list StorageAccessInfo) :
  StorageAccessInfoOps.mergeFromAll R (l1 ++ l2)
  = (R1 <- StorageAccessInfoOps.mergeFromAll R l1 ;;
     StorageAccessInfoOps.mergeFromAll R1 l2).
Proof.
  revert R; induction l1 as [| o l1 IH]; intros R; simpl; [reflexivity |].
  destruct (StorageAccessInfoOps.mergeFrom R o) as [[R' c] | f]; simpl;
    [apply IH | reflexivity].
Qed.

Lemma info_mergeFromAll_ok (R : StorageAccessInfo)
  (others : list StorageAccessInfo) :
  isInitialized (accessKind R) = true ->
  exists R',
    StorageAccessInfoOps.mergeFromAll R others = Ok R'
    /\ isInitialized (accessKind R') = true
    /\ info_le R R'
    /\ ((exists o, In o others /\ noNestedConflict o = false) ->
        noNestedConflict R' = false).
Proof.
  revert R; induction others as [| o others IH]; intros R Hinit; simpl.
  - exists R; repeat split; auto; try apply accessKind_le_refl.
    intros (o & [] & _).
  - destruct (info_mergeFrom_ok R o Hinit) as (R1 & c & -> & Hi1 & Hle1 & Hf1).
    simpl. destruct (IH R1 Hi1) as (R' & -> & Hi' & Hle' & Hf').
    exists R'; repeat split; auto.
    + eapply accessKind_le_trans; [apply Hle1 | apply Hle'].
    + intros H. apply Hle1, Hle', H.
    + intros (o' & [<- | Hin] & Hfalse).
      * destruct (noNestedConflict R') eqn:E; [| reflexivity].
        destruct Hle' as [_ Hb]. specialize (Hb E).
        rewrite Hf1, Hfalse, andb_false_r in Hb. discriminate Hb.
      * apply Hf'. exists o'; auto.
Qed.

(** C5. [StorageAccessInfo::mergeFrom] on two records whose kinds are [Read]
    or [Modify]: it returns; the resulting kind is [Modify] exactly when one
    of the two kinds is [Modify] and is [Read] otherwise; the resulting flag
    is the conjunction of the two flags; the returned boolean is [true]
    exactly when one of the two fields changed; and merging a record with
    itself returns [false] and the record unchanged. *)
Theorem StorageAccessInfo_mergeFrom_join (self other : StorageAccessInfo) :
  accessKind self = SILAccessKind.Read
    \/ accessKind self = SILAccessKind.Modify ->
  accessKind other = SILAccessKind.Read
    \/ accessKind other = SILAccessKind.Modify ->
  (exists self' changed,
      StorageAccessInfoOps.mergeFrom self other = Ok (self', changed)
      /\ (accessKind self' = SILAccessKind.Modify
          <-> accessKind self = SILAccessKind.Modify
              \/ accessKind other = SILAccessKind.Modify)
      /\ (accessKind self' = SILAccessKind.Read
          \/ accessKind self' = SILAccessKind.Modify)
      /\ noNestedConflict self'
         = noNestedConflict self && noNestedConflict other
      /\ (changed = true
          <-> accessKind self' <> accessKind self
              \/ noNestedConflict self' <> noNestedConflict self))
  /\ StorageAccessInfoOps.mergeFrom self self = Ok (self, false).
Proof.
  intros Hs Ho. split.
  - destruct self as [ks fs], other as [ko fo]; simpl in Hs, Ho.
    destruct Hs as [-> | ->], Ho as [-> | ->], fs, fo; simpl;
      eexists; eexists; (split; [reflexivity |]); simpl;
      repeat split; auto; intros H;
      try discriminate H; try (destruct H as [H | H]; try discriminate H);
      try (exfalso; apply H; reflexivity);
      try (left; discriminate); try (right; discriminate).
  - apply info_mergeFrom_self, isInitialized_true_iff, Hs.
Qed.

Lemma StorageAccessInfo_mergeFrom_join_witness :
  exists self' changed,
    StorageAccessInfoOps.mergeFrom
      (mkStorageAccessInfo SILAccessKind.Read true)
      (mkStorageAccessInfo SILAccessKind.Modify false) = Ok (self', changed)
    /\ accessKind self' = SILAccessKind.Modify
    /\ noNestedConflict self' = false
    /\ changed = true.
Proof.
  destruct (StorageAccessInfo_mergeFrom_join
              (mkStorageAccessInfo SILAccessKind.Read true)
              (mkStorageAccessInfo SILAccessKind.Modify false)
              (or_introl eq_refl) (or_intror eq_refl))
    as [(self' & changed & Hrun & Hkind & _ & Hflag & Hchanged) _].
  exists self', changed. split; [exact Hrun |].
  split; [apply Hkind; right; reflexivity |].
  split; [exact Hflag |].
  apply Hchanged. right. rewrite Hflag. simpl. discriminate.
Defined.

(** C6. Along any sequence of record merges applied to an initialised record
    the sequence runs to its end, and between any earlier point [R1] and any
    later point [R2] of it the access kind does not decrease in
    [Read < Modify] (a [Modify] stays [Modify]) and the flag does not
    increase (a [false] stays [false]); a merged-in record whose flag is
    [false] makes the flag [false] from there on. *)
Theorem StorageAccessInfo_merge_monotone
  (R : StorageAccessInfo) (l1 l2 : list StorageAccessInfo) :
  accessKind R = SILAccessKind.Read \/ accessKind R = SILAccessKind.Modify ->
  exists R1 R2,
    StorageAccessInfoOps.mergeFromAll R l1 = Ok R1
    /\ StorageAccessInfoOps.mergeFromAll R (l1 ++ l2) = Ok R2
    /\ accessKind_le (accessKind R1) (accessKind R2)
    /\ (accessKind R1 = SILAccessKind.Modify ->
        accessKind R2 = SILAccessKind.Modify)
    /\ (noNestedConflict R1 = false -> noNestedConflict R2 = false)
    /\ ((exists o, In o l1 /\ noNestedConflict o = false) ->
        noNestedConflict R1 = false /\ noNestedConflict R2 = false).
Proof.
  intros HR. apply isInitialized_true_iff in HR.
  destruct (info_mergeFromAll_ok R l1 HR) as (R1 & Hrun1 & Hi1 & _ & Hf1).
  destruct (info_mergeFromAll_ok R1 l2 Hi1) as (R2 & Hrun2 & _ & Hle & _).
  assert (Hfalse : noNestedConflict R1 = false -> noNestedConflict R2 = false).
  { intros H1. destruct (noNestedConflict R2) eqn:E; [| reflexivity].
    destruct Hle as [_ Hb]. rewrite (Hb E) in H1. discriminate H1. }
  exists R1, R2. split; [exact Hrun1 |].
  split; [rewrite info_mergeFromAll_app, Hrun1; exact Hrun2 |].
  split; [apply Hle |].
  split.
  - intros HM. destruct Hle as [[Heq | [HRd _]] _].
    + rewrite <- Heq; exact HM.
    + rewrite HM in HRd; discriminate HRd.
  - split; [exact Hfalse |].
    intros Hex. split; [apply Hf1, Hex | apply Hfalse, Hf1, Hex].
Qed.

Lemma StorageAccessInfo_merge_monotone_witness :
  exists R1 R2,
    StorageAccessInfoOps.mergeFromAll
      (mkStorageAccessInfo SILAccessKind.Read true)
      [mkStorageAccessInfo SILAccessKind.Modify false] = Ok R1
    /\ StorageAccessInfoOps.mergeFromAll
         (mkStorageAccessInfo SILAccessKind.Read true)
         ([mkStorageAccessInfo SILAccessKind.Modify false]
            ++ [mkStorageAccessInfo SILAccessKind.Read true]) = Ok R2
    /\ accessKind R2 = SILAccessKind.Modify
    /\ noNestedConflict R2 = false.
Proof.
  destruct (StorageAccessInfo_merge_monotone
              (mkStorageAccessInfo SILAccessKind.Read true)
              [mkStorageAccessInfo SILAccessKind.Modify false]
              [mkStorageAccessInfo SILAccessKind.Read true]
              (or_introl eq_refl))
    as (R1 & R2 & Hrun1 & Hrun2 & _ & HM & Hf & _).
  exists R1, R2. split; [exact Hrun1 |]. split; [exact Hrun2 |].
  simpl in Hrun1. injection Hrun1 as <-.
  split; [apply HM; reflexivity | apply Hf; reflexivity].
Defined.

(** ** The conflict query *)

Section ConflictQuery.

Variable isDistinctFrom : AccessedStorage.t -> AccessedStorage.t -> bool.

Lemma mayConflictWithEntries_true_iff (entries : StorageAccessMap)
  (k : SILAccessKind.t) (s : AccessedStorage.t) :
  mayConflictWithEntries isDistinctFrom entries k s = true
  <-> exists storage info,
        In (storage, info) entries
        /\ accessKindMayConflict k (accessKind info) = true
        /\ isDistinctFrom s storage = false.
Proof.
  induction entries as [| [storage info] rest IH]; simpl.
  - split; [discriminate | intros (? & ? & [] & _)].
  - destruct (accessKindMayConflict k (accessKind info)) eqn:Hc; simpl.
    + destruct (isDistinctFrom s storage) eqn:Hd; simpl.
      * rewrite IH. split.
        -- intros (st & i & Hin & H); exists st, i; auto.
        -- intros (st & i & [Heq | Hin] & Hc' & Hd').
           ++ injection Heq as <- <-. rewrite Hd in Hd'. discriminate Hd'.
           ++ exists st, i; auto.
      * split; [| reflexivity].
        intros _. exists storage, info; auto.
    + rewrite IH. split.
      * intros (st & i & Hin & H); exists st, i; auto.
      * intros (st & i & [Heq | Hin] & Hc' & Hd').
        -- injection Heq as <- <-. rewrite Hc in Hc'. discriminate Hc'.
        -- exists st, i; auto.
Qed.

(** C1. [mayConflictWith(k, s)] on a summary [S]: when [S]'s unidentified
    access is set and one of it and [k] is [Modify] the answer is [true]
    whatever [s] is; otherwise the answer is [true] exactly when some entry
    of the map has one of [k] and its kind equal to [Modify] and [s] is not
    distinct from its key. Against an unidentified access [Modify] a [Read]
    conflicts with every storage, and [Read] against [Read] is no
    conflict. *)
Theorem mayConflictWith_spec (S : FunctionAccessedStorage)
  (k : SILAccessKind.t) (s : AccessedStorage.t) :
  (forall u, unidentifiedAccess S = Some u ->
             k = SILAccessKind.Modify \/ u = SILAccessKind.Modify ->
             mayConflictWith isDistinctFrom S k s = true)
  /\ ((forall u, unidentifiedAccess S = Some u ->
                 ~ (k = SILAccessKind.Modify \/ u = SILAccessKind.Modify)) ->
      (mayConflictWith isDistinctFrom S k s = true
       <-> exists storage info,
             In (storage, info) (storageAccessMap S)
             /\ (k = SILAccessKind.Modify
                 \/ accessKind info = SILAccessKind.Modify)
             /\ isDistinctFrom s storage = false))
  /\ (unidentifiedAccess S = Some SILAccessKind.Modify ->
      mayConflictWith isDistinctFrom S SILAccessKind.Read s = true)
  /\ accessKindMayConflict SILAccessKind.Read SILAccessKind.Read = false.
Proof.
  split; [| split; [| split; [| reflexivity]]].
  - intros u Hu Hk. unfold mayConflictWith. rewrite Hu.
    apply accessKindMayConflict_true_iff in Hk. rewrite Hk. reflexivity.
  - intros Hno.
    assert (Hscan : mayConflictWith isDistinctFrom S k s
                    = mayConflictWithEntries isDistinctFrom
                        (storageAccessMap S) k s).
    { unfold mayConflictWith.
      destruct (unidentifiedAccess S) as [u |] eqn:Hu; [| reflexivity].
      destruct (accessKindMayConflict k u) eqn:Hc; [| reflexivity].
      apply accessKindMayConflict_true_iff in Hc.
      destruct (Hno u eq_refl Hc). }
    rewrite Hscan, mayConflictWithEntries_true_iff. split.
    + intros (st & i & Hin & Hc & Hd). exists st, i.
      apply accessKindMayConflict_true_iff in Hc. auto.
    + intros (st & i & Hin & Hc & Hd). exists st, i.
      apply accessKindMayConflict_true_iff in Hc. auto.
  - intros Hu. unfold mayConflictWith. rewrite Hu. reflexivity.
Qed.

End ConflictQuery.

(** A summary with a single [Modify] access to [Argument(0)] and no
    unidentified access: a [Read] of [Argument(0)] may conflict, a [Read] of
    an unrelated global does not. *)
Lemma mayConflictWith_spec_witness :
  let distinct := fun a b => negb (AccessedStorage.eqb a b) in
  let S := mkFunctionAccessedStorage
             [(AccessedStorage.OfArgument 0%N 7%N,
               mkStorageAccessInfo SILAccessKind.Modify false)] None in
  mayConflictWith distinct S SILAccessKind.Read
    (AccessedStorage.OfArgument 0%N 7%N) = true
  /\ mayConflictWith distinct S SILAccessKind.Read
       (AccessedStorage.OfGlobal 3%N) <> true.
Proof.
  intros distinct S. split.
  - apply (proj1 (proj2 (mayConflictWith_spec distinct S SILAccessKind.Read
                           (AccessedStorage.OfArgument 0%N 7%N)))).
    + intros u Hu; discriminate Hu.
    + exists (AccessedStorage.OfArgument 0%N 7%N),
        (mkStorageAccessInfo SILAccessKind.Modify false).
      split; [left; reflexivity | split; [right; reflexivity | reflexivity]].
  - intros H.
    apply (proj1 (proj2 (mayConflictWith_spec distinct S SILAccessKind.Read
                           (AccessedStorage.OfGlobal 3%N)))) in H.
    + destruct H as (st & i & [Heq | []] & _ & Hd).
      injection Heq as <- <-. discriminate Hd.
    + intros u Hu; discriminate Hu.
Defined.

(** ** Summaries of functions without a body *)

Section SummarizeFunction.

Variable isDefinition : SILFunction -> bool.
Variable summarizeSideEffects : SILFunction -> option FunctionSideEffects.

Lemma orParameterEffects_existsb (params : list Effects) (acc : bool * bool) :
  orParameterEffects params acc
  = (fst acc || existsb mayRead params, snd acc || existsb mayWrite params).
Proof.
  revert acc; induction params as [| p params IH]; intros [r w]; simpl.
  - rewrite !orb_false_r; reflexivity.
  - rewrite IH; simpl. rewrite !orb_assoc. reflexivity.
Qed.

(** C4. On a summary whose map is empty, [summarizeFunction(F)] returns
    [false] and changes nothing when [F] has a body. Without a body it
    returns [true] in every branch and leaves the map empty: the
    unidentified access becomes [Modify] when the side effects cannot be
    summarised; otherwise [Modify] when the global effects or some
    parameter's effects may write, else [Read] when one of them may read,
    else it stays as it was (unset in a fresh summary). *)
Theorem summarizeFunction_spec (this : FunctionAccessedStorage)
  (F : SILFunction) :
  storageAccessMap this = [] ->
  (isDefinition F = true ->
   summarizeFunction isDefinition summarizeSideEffects this F
   = Ok (this, false))
  /\ (isDefinition F = false ->
      exists this',
        summarizeFunction isDefinition summarizeSideEffects this F
        = Ok (this', true)
        /\ storageAccessMap this' = []
        /\ unidentifiedAccess this'
           = match summarizeSideEffects F with
             | None => Some SILAccessKind.Modify
             | Some fx =>
                 if mayWrite (getGlobalEffects fx)
                    || existsb mayWrite (getParameterEffects fx)
                 then Some SILAccessKind.Modify
                 else if mayRead (getGlobalEffects fx)
                         || existsb mayRead (getParameterEffects fx)
                 then Some SILAccessKind.Read
                 else unidentifiedAccess this
             end).
Proof.
  intros Hempty. unfold summarizeFunction. rewrite Hempty; simpl.
  split; intros HF; rewrite HF; [reflexivity |].
  destruct (summarizeSideEffects F) as [fx |].
  - rewrite orParameterEffects_existsb; simpl.
    destruct (mayWrite (getGlobalEffects fx)
              || existsb mayWrite (getParameterEffects fx)).
    + eexists; split; [reflexivity | split; [simpl; auto | reflexivity]].
    + destruct (mayRead (getGlobalEffects fx)
                || existsb mayRead (getParameterEffects fx)).
      * eexists; split; [reflexivity | split; [simpl; auto | reflexivity]].
      * exists this; split; [reflexivity | split; [simpl; auto | reflexivity]].
  - eexists; split; [reflexivity | split; [simpl; auto | reflexivity]].
Qed.

End SummarizeFunction.

(** A function without a body whose side effects report that parameter 1 may
    write: the summary is built, its unidentified access is [Modify] and its
    map is empty. *)
Lemma summarizeFunction_spec_witness :
  let fx := mkFunctionSideEffects (mkEffects false false)
              [mkEffects false false; mkEffects false true] in
  exists this',
    summarizeFunction (fun _ => false) (fun _ => Some fx)
      (mkFunctionAccessedStorage [] None) 5%N = Ok (this', true)
    /\ storageAccessMap this' = []
    /\ unidentifiedAccess this' = Some SILAccessKind.Modify.
Proof.
  intros fx.
  destruct (summarizeFunction_spec (fun _ => false) (fun _ => Some fx)
              (mkFunctionAccessedStorage [] None) 5%N eq_refl)
    as [_ H].
  destruct (H eq_refl) as (this' & Hrun & Hmap & Hunid).
  exists this'. split; [exact Hrun |]. split; [exact Hmap | exact Hunid].
Defined.

(** ** Instruction visitation *)

Section AnalyzeInstruction.

Variable findAccessedStorageOrigin : SILValue -> AccessedStorage.t.

Lemma visitBeginAccess_not_dynamic (this : FunctionAccessedStorage)
  (b : BeginAccess) :
  getEnforcement b <> SILAccessEnforcement.Dynamic ->
  visitBeginAccess findAccessedStorageOrigin this b = Ok this.
Proof.
  intros Hne. unfold visitBeginAccess.
  destruct (getEnforcement b); [reflexivity |].
  exfalso; apply Hne; reflexivity.
Qed.

(** C8. An instruction that is not a begin-access (paired or unpaired)
    with dynamic enforcement leaves the summary as it is: its map and its
    unidentified access are unchanged. Conversely, if the visit does not
    return the summary unchanged, the instruction is one of the two
    begin-access forms and its enforcement is dynamic. *)
Theorem analyzeInstruction_only_dynamic (this : FunctionAccessedStorage)
  (I : SILInstruction) :
  ((forall b, I = BeginAccessInst b \/ I = BeginUnpairedAccessInst b ->
              getEnforcement b <> SILAccessEnforcement.Dynamic) ->
   analyzeInstruction findAccessedStorageOrigin this I = Ok this)
  /\ (analyzeInstruction findAccessedStorageOrigin this I <> Ok this ->
      exists b, (I = BeginAccessInst b \/ I = BeginUnpairedAccessInst b)
                /\ getEnforcement b = SILAccessEnforcement.Dynamic).
Proof.
  split.
  - intros H. destruct I as [b | b | op]; simpl;
      try (apply visitBeginAccess_not_dynamic, H; auto); reflexivity.
  - intros H. destruct I as [b | b | op]; simpl in H.
    + exists b. split; [auto |].
      destruct (getEnforcement b) eqn:E; [| reflexivity].
      exfalso; apply H, visitBeginAccess_not_dynamic.
      rewrite E; discriminate.
    + exists b. split; [auto |].
      destruct (getEnforcement b) eqn:E; [| reflexivity].
      exfalso; apply H, visitBeginAccess_not_dynamic.
      rewrite E; discriminate.
    + exfalso; apply H; reflexivity.
Qed.

End AnalyzeInstruction.

(** A statically enforced [Modify] access leaves a summary untouched. *)
Lemma analyzeInstruction_only_dynamic_witness :
  let S := mkFunctionAccessedStorage
             [(AccessedStorage.OfGlobal 1%N,
               mkStorageAccessInfo SILAccessKind.Read true)]
             (Some SILAccessKind.Read) in
  analyzeInstruction AccessedStorage.OfGlobal S
    (BeginAccessInst
       (mkBeginAccess SILAccessEnforcement.Static 1%N
          SILAccessKind.Modify false)) = Ok S.
Proof.
  intros S.
  apply (proj1 (analyzeInstruction_only_dynamic AccessedStorage.OfGlobal S _)).
  intros b [Heq | Heq]; [| discriminate Heq].
  injection Heq as <-. simpl. discriminate.
Defined.

(** ** The map of a summary *)

Lemma AccessedStorage_eqb_eq (a b : AccessedStorage.t) :
  AccessedStorage.eqb a b = true <-> a = b.
Proof.
  split.
  - destruct a, b; simpl; intros H; try discriminate H;
      try (apply andb_true_iff in H; destruct H as [H1 H2];
           apply N.eqb_eq in H1, H2; subst; reflexivity);
      apply N.eqb_eq in H; subst; reflexivity.
  - intros <-. destruct a; simpl; rewrite ?N.eqb_refl; reflexivity.
Qed.

Lemma AccessedStorage_eqb_refl (a : AccessedStorage.t) :
  AccessedStorage.eqb a a = true.
Proof. apply AccessedStorage_eqb_eq; reflexivity. Qed.

Lemma AccessedStorage_eqb_neq (a b : AccessedStorage.t) :
  AccessedStorage.eqb a b = false <-> a <> b.
Proof.
  split.
  - intros H Heq. apply AccessedStorage_eqb_eq in Heq.
    rewrite H in Heq; discriminate Heq.
  - intros H. destruct (AccessedStorage.eqb a b) eqn:E; [| reflexivity].
    apply AccessedStorage_eqb_eq in E. contradiction.
Qed.

Lemma find_In (m : StorageAccessMap) (k : AccessedStorage.t)
  (r : StorageAccessInfo) :
  find m k = Some r -> In (k, r) m.
Proof.
  induction m as [| [k' r'] m IH]; simpl; [discriminate |].
  destruct (AccessedStorage.eqb k k') eqn:E.
  - intros H; injection H as <-. apply AccessedStorage_eqb_eq in E.
    subst; left; reflexivity.
  - intros H; right; apply IH, H.
Qed.

Lemma find_unique (m : StorageAccessMap) (k : AccessedStorage.t)
  (r : StorageAccessInfo) :
  uniqueKeys m -> In (k, r) m -> find m k = Some r.
Proof.
  unfold uniqueKeys.
  induction m as [| [k' r'] m IH]; simpl; intros Hnd Hin; [destruct Hin |].
  inversion Hnd as [| ? ? Hnotin Hnd']; subst.
  destruct Hin as [Heq | Hin].
  - injection Heq as -> ->. rewrite AccessedStorage_eqb_refl. reflexivity.
  - destruct (AccessedStorage.eqb k k') eqn:E.
    + apply AccessedStorage_eqb_eq in E; subst.
      exfalso; apply Hnotin.
      apply (in_map fst) in Hin. exact Hin.
    + apply IH; assumption.
Qed.

Lemma store_same (m : StorageAccessMap) (k : AccessedStorage.t)
  (r : StorageAccessInfo) :
  find m k = Some r -> store m k r = m.
Proof.
  induction m as [| [k' r'] m IH]; simpl; [reflexivity |].
  destruct (AccessedStorage.eqb k k').
  - intros H; injection H as ->; reflexivity.
  - intros H; rewrite (IH H); reflexivity.
Qed.

Lemma find_store_same (m : StorageAccessMap) (k : AccessedStorage.t)
  (r r' : StorageAccessInfo) :
  find m k = Some r -> find (store m k r') k = Some r'.
Proof.
  induction m as [| [k0 r0] m IH]; simpl; [discriminate |].
  destruct (AccessedStorage.eqb k k0) eqn:E; simpl; rewrite E.
  - reflexivity.
  - exact IH.
Qed.

Lemma find_store_other (m : StorageAccessMap) (k k' : AccessedStorage.t)
  (r' : StorageAccessInfo) :
  k' <> k -> find (store m k r') k' = find m k'.
Proof.
  intros Hne.
  induction m as [| [k0 r0] m IH]; simpl; [reflexivity |].
  destruct (AccessedStorage.eqb k k0) eqn:E; simpl.
  - apply AccessedStorage_eqb_eq in E; subst k0.
    apply AccessedStorage_eqb_neq in Hne. rewrite Hne. reflexivity.
  - rewrite IH. reflexivity.
Qed.

Lemma find_app_entry (m : StorageAccessMap) (k k' : AccessedStorage.t)
  (v : StorageAccessInfo) :
  find (m ++ [(k, v)]) k'
  = match find m k' with
    | Some r => Some r
    | None => if AccessedStorage.eqb k' k then Some v else None
    end.
Proof.
  induction m as [| [k0 r0] m IH]; simpl; [reflexivity |].
  destruct (AccessedStorage.eqb k' k0); [reflexivity | exact IH].
Qed.

Lemma allInitialized_find (m : StorageAccessMap) (k : AccessedStorage.t)
  (r : StorageAccessInfo) :
  allInitialized m -> find m k = Some r ->
  isInitialized (accessKind r) = true.
Proof.
  intros Hall Hfind. apply find_In in Hfind.
  unfold allInitialized in Hall. rewrite Forall_forall in Hall.
  apply (Hall _ Hfind).
Qed.

Lemma allInitialized_store (m : StorageAccessMap) (k : AccessedStorage.t)
  (r : StorageAccessInfo) :
  allInitialized m -> isInitialized (accessKind r) = true ->
  allInitialized (store m k r).
Proof.
  unfold allInitialized. intros Hall Hr.
  induction m as [| [k0 r0] m IH]; simpl; [constructor |].
  inversion Hall as [| ? ? H0 Hall']; subst.
  destruct (AccessedStorage.eqb k k0); constructor; auto.
Qed.

Lemma allInitialized_app_entry (m : StorageAccessMap) (k : AccessedStorage.t)
  (r : StorageAccessInfo) :
  allInitialized m -> isInitialized (accessKind r) = true ->
  allInitialized (m ++ [(k, r)]).
Proof.
  unfold allInitialized. intros Hall Hr.
  apply Forall_app; split; [exact Hall | constructor; [exact Hr | constructor]].
Qed.

(** ** Growth of the receiving summary *)

Lemma grows_refl (S : FunctionAccessedStorage) : grows S S.
Proof.
  split.
  - intros k r H; exists r; split; [exact H | apply info_le_refl].
  - intros u H; exists u; split; [exact H | apply accessKind_le_refl].
Qed.

Lemma grows_trans (S1 S2 S3 : FunctionAccessedStorage) :
  grows S1 S2 -> grows S2 S3 -> grows S1 S3.
Proof.
  intros [Hm Hu] [Hm' Hu']; split.
  - intros k r H. destruct (Hm k r H) as (r2 & H2 & Hle).
    destruct (Hm' k r2 H2) as (r3 & H3 & Hle').
    exists r3; split; [exact H3 | eapply info_le_trans; eauto].
  - intros u H. destruct (Hu u H) as (u2 & H2 & Hle).
    destruct (Hu' u2 H2) as (u3 & H3 & Hle').
    exists u3; split; [exact H3 | eapply accessKind_le_trans; eauto].
Qed.

Lemma updateUnidentifiedAccess_grows (S : FunctionAccessedStorage)
  (kind : SILAccessKind.t) :
  grows S (fst (updateUnidentifiedAccess S kind))
  /\ storageAccessMap (fst (updateUnidentifiedAccess S kind))
     = storageAccessMap S.
Proof.
  unfold updateUnidentifiedAccess.
  destruct (unidentifiedAccess S) as [u |] eqn:Hu.
  - pose proof (updateAccessKind_le u kind) as Hle.
    destruct (updateAccessKind u kind) as [u' c]; simpl in *.
    split; [| reflexivity]. split; simpl.
    + intros k r H; exists r; split; [exact H | apply info_le_refl].
    + intros u0 H. rewrite Hu in H. injection H as <-.
      exists u'; split; [reflexivity | exact Hle].
  - simpl. split; [| reflexivity]. split; simpl.
    + intros k r H; exists r; split; [exact H | apply info_le_refl].
    + intros u0 H. rewrite Hu in H. discriminate H.
Qed.

Lemma updateUnidentifiedAccess_same (S : FunctionAccessedStorage)
  (u : SILAccessKind.t) :
  unidentifiedAccess S = Some u ->
  updateUnidentifiedAccess S u = (S, false).
Proof.
  intros Hu. unfold updateUnidentifiedAccess. rewrite Hu.
  rewrite updateAccessKind_same. destruct S as [m ua]; simpl in *.
  rewrite Hu. reflexivity.
Qed.

(** ** The merge loop *)

Section MergeLoop.

Variable transformStorage
  : AccessedStorage.t -> result (option AccessedStorage.t).

Lemma mergeAccessEntries_cons (e : AccessedStorage.t * StorageAccessInfo)
  (l : StorageAccessMap) (acc : FunctionAccessedStorage * bool) :
  mergeAccessEntries transformStorage (e :: l) acc
  = (acc' <- mergeAccessEntry transformStorage acc e ;;
     mergeAccessEntries transformStorage l acc').
Proof. reflexivity. Qed.

Lemma mergeAccessEntries_app (l1 l2 : StorageAccessMap)
  (acc : FunctionAccessedStorage * bool) :
  mergeAccessEntries transformStorage (l1 ++ l2) acc
  = (acc' <- mergeAccessEntries transformStorage l1 acc ;;
     mergeAccessEntries transformStorage l2 acc').
Proof.
  revert acc; induction l1 as [| e l1 IH]; intros acc; simpl;
    [reflexivity |].
  destruct (mergeAccessEntry transformStorage acc e) as [acc' | f]; simpl;
    [apply IH | reflexivity].
Qed.

(** An entry whose transform is the invalid storage is skipped. *)
Lemma mergeAccessEntry_skip (acc : FunctionAccessedStorage * bool)
  (e : AccessedStorage.t * StorageAccessInfo) :
  transformStorage (fst e) = Ok None ->
  mergeAccessEntry transformStorage acc e = Ok acc.
Proof.
  intros H. unfold mergeAccessEntry. destruct acc as [S c].
  rewrite H. reflexivity.
Qed.

Lemma mergeEntry_grows (m m' : StorageAccessMap) (k : AccessedStorage.t)
  (info : StorageAccessInfo) (c : bool) :
  mergeEntry m k info = Ok (m', c) ->
  forall k0 r, find m k0 = Some r ->
               exists r', find m' k0 = Some r' /\ info_le r r'.
Proof.
  unfold mergeEntry. intros Hrun k0 r Hfind.
  destruct (find m k) as [mapped |] eqn:Hk.
  - unfold StorageAccessInfoOps.mergeFrom in Hrun.
    destruct (isInitialized (accessKind mapped)) eqn:Hinit;
      [| discriminate Hrun].
    destruct (info_mergeFrom_ok mapped info Hinit)
      as (mapped' & c0 & Hm & _ & Hle & _).
    unfold StorageAccessInfoOps.mergeFrom in Hm.
    rewrite Hinit in Hm. rewrite Hm in Hrun. simpl in Hrun.
    injection Hrun as <- <-.
    destruct (AccessedStorage.eqb k0 k) eqn:E.
    + apply AccessedStorage_eqb_eq in E; subst k0.
      rewrite Hk in Hfind; injection Hfind as <-.
      exists mapped'; split; [| exact Hle].
      eapply find_store_same; eassumption.
    + apply AccessedStorage_eqb_neq in E.
      exists r; split; [| apply info_le_refl].
      rewrite find_store_other; assumption.
  - injection Hrun as <- <-. exists r; split; [exact Hfind | apply info_le_refl].
Qed.

Lemma mergeAccessEntry_grows (S S' : FunctionAccessedStorage) (c c' : bool)
  (e : AccessedStorage.t * StorageAccessInfo) :
  mergeAccessEntry transformStorage (S, c) e = Ok (S', c') ->
  grows S S'.
Proof.
  unfold mergeAccessEntry.
  destruct (transformStorage (fst e)) as [[storage |] | f]; simpl;
    [| intros H; injection H as <- <-; apply grows_refl | discriminate].
  destruct (AccessedStorage.isUnidentified storage).
  - pose proof (updateUnidentifiedAccess_grows S (accessKind (snd e)))
      as [Hg _].
    destruct (updateUnidentifiedAccess S (accessKind (snd e))) as [S1 c1].
    intros H; injection H as <- <-. exact Hg.
  - unfold try_emplace.
    destruct (find (storageAccessMap S) storage) as [mapped |] eqn:Hk.
    + destruct (mergeEntry (storageAccessMap S) storage (snd e))
        as [[m'' c1] | f] eqn:Hm; simpl; [| discriminate].
      intros H; injection H as <- <-. split; simpl.
      * eapply mergeEntry_grows; eassumption.
      * intros u Hu; exists u; split; [exact Hu | apply accessKind_le_refl].
    + intros H; injection H as <- <-. split; simpl.
      * intros k r Hfind. exists r; split; [| apply info_le_refl].
        rewrite find_app_entry, Hfind. reflexivity.
      * intros u Hu; exists u; split; [exact Hu | apply accessKind_le_refl].
Qed.

Lemma mergeAccessEntries_grows (l : StorageAccessMap)
  (S S' : FunctionAccessedStorage) (c c' : bool) :
  mergeAccessEntries transformStorage l (S, c) = Ok (S', c') ->
  grows S S'.
Proof.
  revert S c; induction l as [| e l IH]; intros S c.
  - simpl. intros H; injection H as <- <-; apply grows_refl.
  - rewrite mergeAccessEntries_cons.
    destruct (mergeAccessEntry transformStorage (S, c) e)
      as [[S1 c1] | f] eqn:Hstep; simpl; [| discriminate].
    intros H. eapply grows_trans.
    + eapply mergeAccessEntry_grows; eassumption.
    + eapply IH; eassumption.
Qed.

Lemma mergeAccesses_grows (this this' : FunctionAccessedStorage)
  (other : OtherRef) (changed : bool) :
  mergeAccesses this other transformStorage = Ok (this', changed) ->
  grows this this'.
Proof.
  unfold mergeAccesses.
  destruct (mergeAccessEntries transformStorage
              (storageAccessMap (deref this other)) (this, false))
    as [[S1 c1] | f] eqn:Hloop; simpl; [| discriminate].
  apply mergeAccessEntries_grows in Hloop.
  destruct (unidentifiedAccess (deref S1 other)) as [kind |].
  - pose proof (updateUnidentifiedAccess_grows S1 kind) as [Hg _].
    destruct (updateUnidentifiedAccess S1 kind) as [S2 c2].
    intros H; injection H as <- <-.
    eapply grows_trans; eassumption.
  - intros H; injection H as <- <-. exact Hloop.
Qed.

(** The loop runs to its end when every record involved passes the
    assertion of the record merge and the transform returns. *)
Lemma mergeAccessEntry_total (S : FunctionAccessedStorage) (c : bool)
  (e : AccessedStorage.t * StorageAccessInfo) :
  allInitialized (storageAccessMap S) ->
  isInitialized (accessKind (snd e)) = true ->
  (exists x, transformStorage (fst e) = Ok x) ->
  exists S' c',
    mergeAccessEntry transformStorage (S, c) e = Ok (S', c')
    /\ allInitialized (storageAccessMap S').
Proof.
  intros Hall He [x Hx]. unfold mergeAccessEntry. rewrite Hx; simpl.
  destruct x as [storage |]; [| eauto].
  destruct (AccessedStorage.isUnidentified storage).
  - pose proof (updateUnidentifiedAccess_grows S (accessKind (snd e)))
      as [_ Hmap].
    destruct (updateUnidentifiedAccess S (accessKind (snd e))) as [S1 c1].
    simpl in Hmap. exists S1, (c || c1). split; [reflexivity |].
    rewrite Hmap; exact Hall.
  - unfold try_emplace, mergeEntry.
    destruct (find (storageAccessMap S) storage) as [mapped |] eqn:Hk.
    + rewrite Hk.
      pose proof (allInitialized_find _ _ _ Hall Hk) as Hinit.
      destruct (info_mergeFrom_ok mapped (snd e) Hinit)
        as (mapped' & c0 & -> & Hi' & _).
      simpl. eexists; eexists; split; [reflexivity |]. simpl.
      apply allInitialized_store; assumption.
    + eexists; eexists; split; [reflexivity |]. simpl.
      apply allInitialized_app_entry; assumption.
Qed.

Lemma mergeAccessEntries_total (l : StorageAccessMap)
  (S : FunctionAccessedStorage) (c : bool) :
  allInitialized (storageAccessMap S) ->
  allInitialized l ->
  (forall e, In e l -> exists x, transformStorage (fst e) = Ok x) ->
  exists S' c',
    mergeAccessEntries transformStorage l (S, c) = Ok (S', c')
    /\ allInitialized (storageAccessMap S').
Proof.
  revert S c; induction l as [| e l IH]; intros S c HS Hl Ht.
  - simpl. eauto.
  - rewrite mergeAccessEntries_cons.
    inversion Hl as [| ? ? He Hl']; subst.
    destruct (mergeAccessEntry_total S c e HS He (Ht e (or_introl eq_refl)))
      as (S1 & c1 & -> & HS1).
    simpl. apply IH; auto. intros e' Hin; apply Ht; right; exact Hin.
Qed.

Lemma mergeAccesses_total (this : FunctionAccessedStorage)
  (other : OtherRef) :
  allInitialized (storageAccessMap this) ->
  allInitialized (storageAccessMap (deref this other)) ->
  (forall e, In e (storageAccessMap (deref this other)) ->
             exists x, transformStorage (fst e) = Ok x) ->
  exists this' changed,
    mergeAccesses this other transformStorage = Ok (this', changed).
Proof.
  intros Hthis Hother Ht. unfold mergeAccesses.
  destruct (mergeAccessEntries_total _ this false Hthis Hother Ht)
    as (S1 & c1 & -> & _).
  simpl. destruct (unidentifiedAccess (deref S1 other)) as [kind |].
  - destruct (updateUnidentifiedAccess S1 kind) as [S2 c2]. eauto.
  - eauto.
Qed.

(** Only the transform can make the loop run into [llvm_unreachable]. *)
Lemma mergeAccessEntry_not_unreachable
  (acc : FunctionAccessedStorage * bool)
  (e : AccessedStorage.t * StorageAccessInfo) :
  transformStorage (fst e) <> Abort Unreachable ->
  mergeAccessEntry transformStorage acc e <> Abort Unreachable.
Proof.
  intros Ht. unfold mergeAccessEntry. destruct acc as [S c].
  destruct (transformStorage (fst e)) as [[storage |] | f]; simpl;
    [| discriminate
     | intros H; apply Ht; injection H as ->; reflexivity].
  destruct (AccessedStorage.isUnidentified storage).
  - destruct (updateUnidentifiedAccess S (accessKind (snd e))); discriminate.
  - unfold try_emplace, mergeEntry.
    destruct (find (storageAccessMap S) storage) as [mapped |] eqn:Hk;
      [| discriminate].
    rewrite Hk.
    pose proof (info_mergeFrom_not_unreachable mapped (snd e)) as Hnu.
    destruct (StorageAccessInfoOps.mergeFrom mapped (snd e))
      as [[mapped' c0] | f]; simpl; [discriminate |].
    intros H; apply Hnu; injection H as ->; reflexivity.
Qed.

Lemma mergeAccessEntries_not_unreachable (l : StorageAccessMap)
  (acc : FunctionAccessedStorage * bool) :
  (forall e, In e l -> transformStorage (fst e) <> Abort Unreachable) ->
  mergeAccessEntries transformStorage l acc <> Abort Unreachable.
Proof.
  revert acc; induction l as [| e l IH]; intros acc Ht; simpl;
    [discriminate |].
  pose proof (mergeAccessEntry_not_unreachable acc e
                (Ht e (or_introl eq_refl))) as Hstep.
  destruct (mergeAccessEntry transformStorage acc e) as [acc' | f]; simpl.
  - apply IH. intros e' Hin; apply Ht; right; exact Hin.
  - intros H; apply Hstep; exact H.
Qed.

Lemma mergeAccesses_not_unreachable (this : FunctionAccessedStorage)
  (other : OtherRef) :
  (forall e, In e (storageAccessMap (deref this other)) ->
             transformStorage (fst e) <> Abort Unreachable) ->
  mergeAccesses this other transformStorage <> Abort Unreachable.
Proof.
  intros Ht. unfold mergeAccesses.
  pose proof (mergeAccessEntries_not_unreachable _ (this, false) Ht)
    as Hloop.
  destruct (mergeAccessEntries transformStorage
              (storageAccessMap (deref this other)) (this, false))
    as [[S1 c1] | f]; simpl; [| exact Hloop].
  destruct (unidentifiedAccess (deref S1 other)) as [kind |];
    [destruct (updateUnidentifiedAccess S1 kind) |]; discriminate.
Qed.

End MergeLoop.

(** C10. A merge only grows the receiving summary. Whatever the other
    summary (also [*this] itself) and the transform, so for [mergeFrom] and
    [mergeFromApply] as well, when [mergeAccesses] returns: every key of
    the receiving map is still a key, a record that was [Modify] is still
    [Modify], a flag that was [false] is still [false], and an unidentified
    access that was set is still set and, if it was [Modify], still
    [Modify]. *)
Theorem mergeAccesses_only_grows
  (this : FunctionAccessedStorage) (other : OtherRef)
  (transformStorage : AccessedStorage.t -> result (option AccessedStorage.t))
  (this' : FunctionAccessedStorage) (changed : bool) :
  mergeAccesses this other transformStorage = Ok (this', changed) ->
  (forall k r,
      find (storageAccessMap this) k = Some r ->
      exists r',
        find (storageAccessMap this') k = Some r'
        /\ (accessKind r = SILAccessKind.Modify ->
            accessKind r' = SILAccessKind.Modify)
        /\ (noNestedConflict r = false -> noNestedConflict r' = false))
  /\ (forall u,
         unidentifiedAccess this = Some u ->
         exists u',
           unidentifiedAccess this' = Some u'
           /\ (u = SILAccessKind.Modify -> u' = SILAccessKind.Modify)).
Proof.
  intros Hrun. apply mergeAccesses_grows in Hrun. destruct Hrun as [Hm Hu].
  split.
  - intros k r Hfind. destruct (Hm k r Hfind) as (r' & Hfind' & Hk & Hf).
    exists r'. split; [exact Hfind' |]. split.
    + intros HM. destruct Hk as [Heq | [HR _]].
      * rewrite <- Heq; exact HM.
      * rewrite HM in HR; discriminate HR.
    + intros Hfalse. destruct (noNestedConflict r') eqn:E; [| reflexivity].
      rewrite (Hf eq_refl) in Hfalse. discriminate Hfalse.
  - intros u Hset. destruct (Hu u Hset) as (u' & Hset' & Hle).
    exists u'. split; [exact Hset' |].
    intros ->. destruct Hle as [<- | [HR _]]; [reflexivity | discriminate HR].
Qed.

(** Merging a callee that reads global 1 and an unidentified location into a
    caller that modifies global 1 without nested conflicts being excluded. *)
Lemma mergeAccesses_only_grows_witness :
  let this := mkFunctionAccessedStorage
                [(AccessedStorage.OfGlobal 1%N,
                  mkStorageAccessInfo SILAccessKind.Modify false)]
                (Some SILAccessKind.Modify) in
  let callee := mkFunctionAccessedStorage
                  [(AccessedStorage.OfGlobal 1%N,
                    mkStorageAccessInfo SILAccessKind.Read true);
                   (AccessedStorage.OfGlobal 2%N,
                    mkStorageAccessInfo SILAccessKind.Read true)]
                  (Some SILAccessKind.Read) in
  exists this' changed,
    mergeFromApply (fun _ => OtherValue) AccessedStorage.OfGlobal
      this (Other callee) (mkFullApplySite [] 0%N) = Ok (this', changed)
    /\ exists r',
         find (storageAccessMap this') (AccessedStorage.OfGlobal 1%N)
         = Some r'
         /\ accessKind r' = SILAccessKind.Modify
         /\ noNestedConflict r' = false.
Proof.
  intros this callee.
  eexists; eexists. split; [reflexivity |].
  destruct (mergeAccesses_only_grows this (Other callee)
              (fun s => transformCalleeStorage (fun _ => OtherValue)
                          AccessedStorage.OfGlobal s (mkFullApplySite [] 0%N))
              _ _ eq_refl) as [Hm _].
  destruct (Hm (AccessedStorage.OfGlobal 1%N)
               (mkStorageAccessInfo SILAccessKind.Modify false) eq_refl)
    as (r' & Hfind & HM & Hf).
  exists r'. split; [exact Hfind |].
  split; [apply HM; reflexivity | apply Hf; reflexivity].
Defined.

(** ** The callee-to-caller transform *)

Section CalleeTransform.

Variable valueDef : SILValue -> ValueBase.
Variable findAccessedStorageOrigin : SILValue -> AccessedStorage.t.

Lemma transformCalleeStorage_total (s : AccessedStorage.t)
  (fullApply : FullApplySite) :
  AccessedStorage.isNested s = false ->
  exists r,
    transformCalleeStorage valueDef findAccessedStorageOrigin s fullApply
    = Ok r.
Proof.
  intros Hs. destruct s as [v | v | g | obj p | i v | v | v]; simpl;
    try discriminate Hs; eauto.
  - destruct (valueDef obj); eauto.
    destruct (getCallerArg valueDef fullApply index); eauto.
  - destruct (getCallerArg valueDef fullApply i); eauto.
Qed.

Lemma transformCalleeStorage_local (s : AccessedStorage.t)
  (fullApply : FullApplySite) :
  AccessedStorage.isLocal s = true ->
  transformCalleeStorage valueDef findAccessedStorageOrigin s fullApply
  = Ok None.
Proof. destruct s; simpl; intros H; try discriminate H; reflexivity. Qed.

Lemma mergeAccessEntries_withoutLocal (fullApply : FullApplySite)
  (l : StorageAccessMap) (acc : FunctionAccessedStorage * bool) :
  mergeAccessEntries (fun s => transformCalleeStorage valueDef
                 findAccessedStorageOrigin s fullApply) l acc
  = mergeAccessEntries (fun s => transformCalleeStorage valueDef
                 findAccessedStorageOrigin s fullApply)
      (filter (fun e => negb (AccessedStorage.isLocal (fst e))) l) acc.
Proof.
  revert acc; induction l as [| e l IH]; intros acc; [reflexivity |].
  rewrite mergeAccessEntries_cons.
  cbn [filter]. destruct (AccessedStorage.isLocal (fst e)) eqn:Hloc; simpl negb;
    cbv iota.
  - rewrite mergeAccessEntry_skip
      by (apply transformCalleeStorage_local; exact Hloc).
    simpl. apply IH.
  - rewrite mergeAccessEntries_cons.
    destruct (mergeAccessEntry (fun s => transformCalleeStorage valueDef
                 findAccessedStorageOrigin s fullApply) acc e); simpl;
      [apply IH | reflexivity].
Qed.

(** C2. The transform of a [Stack] or [Box] identity is the invalid
    storage at every call site; the merge loop skips an entry whose
    transform is invalid; so the [Stack] and [Box] entries of a callee
    summary contribute nothing to [mergeFromApply]: the result is the one
    obtained from the callee summary without them, and a callee summary
    that has only such entries and no unidentified access leaves the
    caller's summary, map and unidentified access, as it was. *)
Theorem local_storage_confinement :
  (forall (v : SILValue) (fullApply : FullApplySite),
      transformCalleeStorage valueDef findAccessedStorageOrigin
        (AccessedStorage.OfStack v) fullApply = Ok None
      /\ transformCalleeStorage valueDef findAccessedStorageOrigin
           (AccessedStorage.OfBox v) fullApply = Ok None)
  /\ (forall transformStorage acc e rest,
         transformStorage (fst e) = Ok None ->
         mergeAccessEntries transformStorage (e :: rest) acc
         = mergeAccessEntries transformStorage rest acc)
  /\ (forall fullApply otherAccesses acc,
         mergeAccessEntries
           (fun s => transformCalleeStorage valueDef
                       findAccessedStorageOrigin s fullApply)
           otherAccesses acc
         = mergeAccessEntries
             (fun s => transformCalleeStorage valueDef
                         findAccessedStorageOrigin s fullApply)
             (filter (fun e => negb (AccessedStorage.isLocal (fst e)))
                     otherAccesses) acc)
  /\ (forall this callee fullApply,
         mergeFromApply valueDef findAccessedStorageOrigin
           this (Other callee) fullApply
         = mergeFromApply valueDef findAccessedStorageOrigin
             this (Other (withoutLocalStorage callee)) fullApply)
  /\ (forall this callee fullApply,
         Forall (fun e => AccessedStorage.isLocal (fst e) = true)
                (storageAccessMap callee) ->
         unidentifiedAccess callee = None ->
         mergeFromApply valueDef findAccessedStorageOrigin
           this (Other callee) fullApply = Ok (this, false)).
Proof.
  split; [intros v fullApply; split; reflexivity |].
  split.
  { intros t acc e rest Ht. rewrite mergeAccessEntries_cons.
    rewrite mergeAccessEntry_skip by exact Ht. reflexivity. }
  split; [intros fullApply l acc; apply mergeAccessEntries_withoutLocal |].
  assert (Hfilter : forall this callee fullApply,
    mergeFromApply valueDef findAccessedStorageOrigin
      this (Other callee) fullApply
    = mergeFromApply valueDef findAccessedStorageOrigin
        this (Other (withoutLocalStorage callee)) fullApply).
  { intros this callee fullApply. unfold mergeFromApply, mergeAccesses.
    simpl deref. unfold withoutLocalStorage at 1. simpl storageAccessMap.
    rewrite (mergeAccessEntries_withoutLocal fullApply
               (storageAccessMap callee) (this, false)).
    reflexivity. }
  split; [exact Hfilter |].
  intros this callee fullApply Hlocal Hunid. rewrite Hfilter.
  unfold mergeFromApply, mergeAccesses, withoutLocalStorage. simpl.
  replace (filter (fun e => negb (AccessedStorage.isLocal (fst e)))
             (storageAccessMap callee)) with (@nil (AccessedStorage.t * StorageAccessInfo)).
  - simpl. rewrite Hunid. reflexivity.
  - symmetry. induction Hlocal as [| e l He _ IH]; simpl; [reflexivity |].
    rewrite He; simpl. exact IH.
Qed.

(** C9. The transform returns on every identity that is not [Nested] and
    runs into [llvm_unreachable] on a [Nested] one. When the map of the
    callee summary has no [Nested] key, [mergeFromApply] does not run
    into [llvm_unreachable]; and when in addition the records of both
    summaries pass the assertion of the record merge, it returns. *)
Theorem nested_storage_unreachable
  (this : FunctionAccessedStorage) (calleeAccess : OtherRef)
  (fullApply : FullApplySite) :
  noNestedKeys (storageAccessMap (deref this calleeAccess)) ->
  (forall s, AccessedStorage.isNested s = false ->
             exists r, transformCalleeStorage valueDef
                         findAccessedStorageOrigin s fullApply = Ok r)
  /\ (forall v, transformCalleeStorage valueDef findAccessedStorageOrigin
                  (AccessedStorage.OfNested v) fullApply
                = Abort Unreachable)
  /\ mergeFromApply valueDef findAccessedStorageOrigin
       this calleeAccess fullApply <> Abort Unreachable
  /\ (allInitialized (storageAccessMap this) ->
      allInitialized (storageAccessMap (deref this calleeAccess)) ->
      exists this' changed,
        mergeFromApply valueDef findAccessedStorageOrigin
          this calleeAccess fullApply = Ok (this', changed)).
Proof.
  intros Hnn. unfold noNestedKeys in Hnn. rewrite Forall_forall in Hnn.
  split; [intros s Hs; apply transformCalleeStorage_total, Hs |].
  split; [reflexivity |].
  split.
  - apply mergeAccesses_not_unreachable. intros e Hin.
    destruct (transformCalleeStorage_total (fst e) fullApply (Hnn e Hin))
      as [r ->].
    discriminate.
  - intros Hthis Hother. apply mergeAccesses_total; auto.
    intros e Hin. apply transformCalleeStorage_total, Hnn, Hin.
Qed.

End CalleeTransform.

(** ** Arguments across a call site *)

Lemma info_mergeFrom_modify (self RHS self' : StorageAccessInfo) (c : bool) :
  StorageAccessInfoOps.mergeFrom self RHS = Ok (self', c) ->
  accessKind RHS = SILAccessKind.Modify ->
  accessKind self' = SILAccessKind.Modify.
Proof.
  unfold StorageAccessInfoOps.mergeFrom. intros Hrun HM. rewrite HM in Hrun.
  destruct (accessKind self); simpl in Hrun; try discriminate Hrun;
    destruct (noNestedConflict self && negb (noNestedConflict RHS));
    injection Hrun as <- _; reflexivity.
Qed.

Lemma getArgument_in_range (args : list SILValue) (i : N) :
  (i < getNumArguments args)%N ->
  exists argVal, getArgument args i = Some argVal.
Proof.
  unfold getNumArguments, getArgument. intros Hlt.
  destruct (nth_error args (N.to_nat i)) as [a |] eqn:E; [eauto |].
  apply nth_error_None in E. lia.
Qed.

Section MergedEntry.

Variable transformStorage
  : AccessedStorage.t -> result (option AccessedStorage.t).

(** After the iteration on an entry of kind [Modify] whose transform is an
    identified storage, that storage is a key mapped to [Modify]. *)
Lemma mergeAccessEntry_modify (S S' : FunctionAccessedStorage) (c c' : bool)
  (e : AccessedStorage.t * StorageAccessInfo) (storage : AccessedStorage.t) :
  transformStorage (fst e) = Ok (Some storage) ->
  AccessedStorage.isUnidentified storage = false ->
  accessKind (snd e) = SILAccessKind.Modify ->
  mergeAccessEntry transformStorage (S, c) e = Ok (S', c') ->
  exists r, find (storageAccessMap S') storage = Some r
            /\ accessKind r = SILAccessKind.Modify.
Proof.
  intros Ht Hid HM. unfold mergeAccessEntry. rewrite Ht; simpl.
  rewrite Hid. unfold try_emplace, mergeEntry.
  destruct (find (storageAccessMap S) storage) as [mapped |] eqn:Hk.
  - rewrite Hk.
    destruct (StorageAccessInfoOps.mergeFrom mapped (snd e))
      as [[mapped' c0] | f] eqn:Hm; simpl; [| discriminate].
    intros H; injection H as <- <-. simpl.
    exists mapped'. split.
    + eapply find_store_same; eassumption.
    + eapply info_mergeFrom_modify; eassumption.
  - intros H; injection H as <- <-. simpl.
    exists (snd e). split; [| exact HM].
    rewrite find_app_entry, Hk, AccessedStorage_eqb_refl. reflexivity.
Qed.

Lemma mergeAccesses_modify (this this' : FunctionAccessedStorage)
  (other : OtherRef) (changed : bool)
  (k storage : AccessedStorage.t) (info : StorageAccessInfo) :
  In (k, info) (storageAccessMap (deref this other)) ->
  transformStorage k = Ok (Some storage) ->
  AccessedStorage.isUnidentified storage = false ->
  accessKind info = SILAccessKind.Modify ->
  mergeAccesses this other transformStorage = Ok (this', changed) ->
  exists r, find (storageAccessMap this') storage = Some r
            /\ accessKind r = SILAccessKind.Modify.
Proof.
  intros Hin Ht Hid HM. unfold mergeAccesses.
  destruct (in_split _ _ Hin) as (l1 & l2 & Hsplit). rewrite Hsplit.
  rewrite mergeAccessEntries_app.
  destruct (mergeAccessEntries transformStorage l1 (this, false))
    as [[S1 c1] | f]; cbn [bind]; [| discriminate].
  rewrite mergeAccessEntries_cons.
  destruct (mergeAccessEntry transformStorage (S1, c1) (k, info))
    as [[S2 c2] | f] eqn:Hstep; cbn [bind]; [| discriminate].
  destruct (mergeAccessEntry_modify S1 S2 c1 c2 (k, info) storage
              Ht Hid HM Hstep)
    as (r2 & Hfind2 & HM2).
  destruct (mergeAccessEntries transformStorage l2 (S2, c2))
    as [[S3 c3] | f] eqn:Hrest; cbn [bind]; [| discriminate].
  apply mergeAccessEntries_grows in Hrest.
  destruct Hrest as [Hmap _].
  destruct (Hmap storage r2 Hfind2) as (r3 & Hfind3 & [Hle _]).
  assert (HM3 : accessKind r3 = SILAccessKind.Modify).
  { destruct Hle as [<- | [HR _]]; [exact HM2 |].
    rewrite HM2 in HR; discriminate HR. }
  destruct (unidentifiedAccess (deref S3 other)) as [kind |].
  - pose proof (updateUnidentifiedAccess_grows S3 kind) as [_ Hsame].
    destruct (updateUnidentifiedAccess S3 kind) as [S4 c4].
    simpl in Hsame. intros H; injection H as <- <-.
    exists r3. rewrite Hsame. auto.
  - intros H; injection H as <- <-. exists r3; auto.
Qed.

End MergedEntry.

Section ArgumentTransform.

Variable valueDef : SILValue -> ValueBase.
Variable findAccessedStorageOrigin : SILValue -> AccessedStorage.t.

(** C3. The transform of a callee-side [Argument(paramIndex)] identity:
    when [getCallerArg] finds the caller-side value, the result is
    [findAccessedStorageOrigin] of that value; when it does not, the
    result is the [Unidentified] identity on the callee-side value.
    [getCallerArg] finds the call's own argument when the index is below
    the call's argument count; otherwise, when the callee origin is a
    partial application, the captured argument at the index minus the
    index of the first applied argument if that is below the number of
    captured arguments, and nothing if it is not; and nothing when the
    callee origin is no partial application. When the callee summary maps
    such an [Argument] identity to [Modify] and the caller-side value found
    for it has the global [x] as its storage origin, the caller's summary
    maps [Global(x)] to [Modify] after [mergeFromApply]: whenever the merge
    returns, and it does return when the callee map has no [Nested] key and
    the records of both summaries pass the assertion of the record merge. *)
Theorem argument_storage_transform (fullApply : FullApplySite)
  (paramIndex : N) (value : SILValue) :
  (forall argVal,
      getCallerArg valueDef fullApply paramIndex = Some argVal ->
      transformCalleeStorage valueDef findAccessedStorageOrigin
        (AccessedStorage.OfArgument paramIndex value) fullApply
      = Ok (Some (findAccessedStorageOrigin argVal)))
  /\ (getCallerArg valueDef fullApply paramIndex = None ->
      transformCalleeStorage valueDef findAccessedStorageOrigin
        (AccessedStorage.OfArgument paramIndex value) fullApply
      = Ok (Some (AccessedStorage.OfUnidentified value)))
  /\ ((paramIndex < getNumArguments (fa_arguments fullApply))%N ->
      exists argVal,
        getArgument (fa_arguments fullApply) paramIndex = Some argVal
        /\ getCallerArg valueDef fullApply paramIndex = Some argVal)
  /\ ((getNumArguments (fa_arguments fullApply) <= paramIndex)%N ->
      forall arguments firstAppliedArg,
        valueDef (fa_calleeOrigin fullApply)
        = PartialApplyInst arguments firstAppliedArg ->
        ((unsigned_sub paramIndex firstAppliedArg
          < getNumArguments arguments)%N ->
         exists argVal,
           getArgument arguments (unsigned_sub paramIndex firstAppliedArg)
           = Some argVal
           /\ getCallerArg valueDef fullApply paramIndex = Some argVal)
        /\ ((getNumArguments arguments
             <= unsigned_sub paramIndex firstAppliedArg)%N ->
            getCallerArg valueDef fullApply paramIndex = None))
  /\ ((getNumArguments (fa_arguments fullApply) <= paramIndex)%N ->
      (forall arguments firstAppliedArg,
          valueDef (fa_calleeOrigin fullApply)
          <> PartialApplyInst arguments firstAppliedArg) ->
      getCallerArg valueDef fullApply paramIndex = None)
  /\ (forall this calleeAccess info argVal x this' changed,
         In (AccessedStorage.OfArgument paramIndex value, info)
            (storageAccessMap (deref this calleeAccess)) ->
         accessKind info = SILAccessKind.Modify ->
         getCallerArg valueDef fullApply paramIndex = Some argVal ->
         findAccessedStorageOrigin argVal = AccessedStorage.OfGlobal x ->
         mergeFromApply valueDef findAccessedStorageOrigin
           this calleeAccess fullApply = Ok (this', changed) ->
         exists r,
           find (storageAccessMap this') (AccessedStorage.OfGlobal x)
           = Some r
           /\ accessKind r = SILAccessKind.Modify)
  /\ (forall this calleeAccess info argVal x,
         In (AccessedStorage.OfArgument paramIndex value, info)
            (storageAccessMap (deref this calleeAccess)) ->
         accessKind info = SILAccessKind.Modify ->
         getCallerArg valueDef fullApply paramIndex = Some argVal ->
         findAccessedStorageOrigin argVal = AccessedStorage.OfGlobal x ->
         noNestedKeys (storageAccessMap (deref this calleeAccess)) ->
         allInitialized (storageAccessMap this) ->
         allInitialized (storageAccessMap (deref this calleeAccess)) ->
         exists this' changed r,
           mergeFromApply valueDef findAccessedStorageOrigin
             this calleeAccess fullApply = Ok (this', changed)
           /\ find (storageAccessMap this') (AccessedStorage.OfGlobal x)
              = Some r
           /\ accessKind r = SILAccessKind.Modify).
Proof.
  assert (Hscenario : forall this calleeAccess info argVal x this' changed,
    In (AccessedStorage.OfArgument paramIndex value, info)
       (storageAccessMap (deref this calleeAccess)) ->
    accessKind info = SILAccessKind.Modify ->
    getCallerArg valueDef fullApply paramIndex = Some argVal ->
    findAccessedStorageOrigin argVal = AccessedStorage.OfGlobal x ->
    mergeFromApply valueDef findAccessedStorageOrigin
      this calleeAccess fullApply = Ok (this', changed) ->
    exists r,
      find (storageAccessMap this') (AccessedStorage.OfGlobal x) = Some r
      /\ accessKind r = SILAccessKind.Modify).
  { intros this calleeAccess info argVal x this' changed Hin HM Harg Horigin
      Hrun.
    unfold mergeFromApply in Hrun.
    eapply mergeAccesses_modify with (storage := AccessedStorage.OfGlobal x);
      [exact Hin | | reflexivity | exact HM | exact Hrun].
    simpl. rewrite Harg, Horigin. reflexivity. }
  split; [intros argVal H; simpl; rewrite H; reflexivity |].
  split; [intros H; simpl; rewrite H; reflexivity |].
  split.
  { intros Hlt. destruct (getArgument_in_range _ _ Hlt) as [argVal Harg].
    exists argVal. split; [exact Harg |].
    unfold getCallerArg. apply N.ltb_lt in Hlt. rewrite Hlt. exact Harg. }
  split.
  { intros Hge arguments firstAppliedArg Hpai.
    apply N.ltb_ge in Hge. unfold getCallerArg. rewrite Hge, Hpai. split.
    - intros Hlt. destruct (getArgument_in_range _ _ Hlt) as [argVal Harg].
      exists argVal. split; [exact Harg |].
      apply N.ltb_lt in Hlt. rewrite Hlt. exact Harg.
    - intros Hout. apply N.ltb_ge in Hout. rewrite Hout. reflexivity. }
  split.
  { intros Hge Hnopai. apply N.ltb_ge in Hge.
    unfold getCallerArg. rewrite Hge.
    destruct (valueDef (fa_calleeOrigin fullApply)) as [i | args first |]
      eqn:E; try reflexivity.
    destruct (Hnopai args first eq_refl). }
  split; [exact Hscenario |].
  intros this calleeAccess info argVal x Hin HM Harg Horigin Hnn Hthis Hother.
  assert (Hreturns : exists this' changed,
    mergeFromApply valueDef findAccessedStorageOrigin
      this calleeAccess fullApply = Ok (this', changed)).
  { apply mergeAccesses_total; auto.
    intros e He. apply transformCalleeStorage_total.
    unfold noNestedKeys in Hnn. rewrite Forall_forall in Hnn. apply Hnn, He. }
  destruct Hreturns as (this' & changed & Hrun).
  destruct (Hscenario _ _ _ _ _ _ _ Hin HM Harg Horigin Hrun) as (r & Hr).
  exists this', changed, r. split; [exact Hrun | exact Hr].
Qed.

End ArgumentTransform.

(** The callee modifies its parameter 0; the call passes value 10, whose
    storage origin is the global 4, as argument 0; the caller's summary then
    maps that global to [Modify]. *)
Lemma argument_storage_transform_witness :
  let valueDef := fun _ : SILValue => OtherValue in
  let origin := fun v : SILValue =>
                  if (v =? 10)%N then AccessedStorage.OfGlobal 4%N
                  else AccessedStorage.OfUnidentified v in
  let callee := mkFunctionAccessedStorage
                  [(AccessedStorage.OfArgument 0%N 20%N,
                    mkStorageAccessInfo SILAccessKind.Modify false)] None in
  let caller := mkFunctionAccessedStorage [] None in
  let fullApply := mkFullApplySite [10%N] 30%N in
  exists this' changed r,
    mergeFromApply valueDef origin caller (Other callee) fullApply
    = Ok (this', changed)
    /\ find (storageAccessMap this') (AccessedStorage.OfGlobal 4%N) = Some r
    /\ accessKind r = SILAccessKind.Modify.
Proof.
  intros valueDef origin callee caller fullApply.
  apply (proj2 (proj2 (proj2 (proj2 (proj2 (proj2
           (argument_storage_transform valueDef origin fullApply 0%N 20%N))))))
           caller (Other callee)
           (mkStorageAccessInfo SILAccessKind.Modify false) 10%N 4%N).
  - left; reflexivity.
  - reflexivity.
  - reflexivity.
  - reflexivity.
  - unfold noNestedKeys. repeat constructor.
  - unfold allInitialized. constructor.
  - unfold allInitialized. repeat constructor.
Defined.

(** ** Merging a summary into itself *)

Section SelfMerge.

Variable S : FunctionAccessedStorage.
Hypothesis Hunique : uniqueKeys (storageAccessMap S).
Hypothesis Hidentified : noUnidentifiedKeys (storageAccessMap S).
Hypothesis Hinitialized : allInitialized (storageAccessMap S).

Lemma mergeAccessEntry_own_entry (k : AccessedStorage.t)
  (v : StorageAccessInfo) :
  In (k, v) (storageAccessMap S) ->
  mergeAccessEntry (fun s => Ok (Some s)) (S, false) (k, v) = Ok (S, false).
Proof.
  intros Hin. unfold mergeAccessEntry. simpl.
  assert (Hk : AccessedStorage.isUnidentified k = false).
  { unfold noUnidentifiedKeys in Hidentified.
    rewrite Forall_forall in Hidentified. apply (Hidentified _ Hin). }
  assert (Hv : isInitialized (accessKind v) = true).
  { unfold allInitialized in Hinitialized.
    rewrite Forall_forall in Hinitialized. apply (Hinitialized _ Hin). }
  pose proof (find_unique _ _ _ Hunique Hin) as Hfind.
  rewrite Hk. unfold try_emplace, mergeEntry. rewrite Hfind, Hfind.
  rewrite (info_mergeFrom_self v Hv). simpl.
  rewrite (store_same _ _ _ Hfind). destruct S; reflexivity.
Qed.

Lemma mergeAccessEntries_own_entries (l : StorageAccessMap) :
  (forall e, In e l -> In e (storageAccessMap S)) ->
  mergeAccessEntries (fun s => Ok (Some s)) l (S, false) = Ok (S, false).
Proof.
  induction l as [| [k v] l IH]; intros Hsub; [reflexivity |].
  rewrite mergeAccessEntries_cons.
  rewrite mergeAccessEntry_own_entry by (apply Hsub; left; reflexivity).
  simpl. apply IH. intros e Hin; apply Hsub; right; exact Hin.
Qed.

Lemma mergeFrom_own (other : OtherRef) :
  deref S other = S ->
  mergeFrom S other = Ok (S, false).
Proof.
  intros Hother. unfold mergeFrom, mergeAccesses. rewrite Hother.
  rewrite mergeAccessEntries_own_entries by auto. simpl.
  rewrite Hother.
  destruct (unidentifiedAccess S) as [u |] eqn:Hu; [| reflexivity].
  rewrite (updateUnidentifiedAccess_same S u Hu). reflexivity.
Qed.

End SelfMerge.

(** C7. [mergeFrom(self, self)] on a summary whose map has pairwise
    different keys, none of them [Unidentified], and records that pass the
    assertion of the record merge: it returns [false] and the summary, map
    and unidentified access, is what it was. The same holds when the other
    summary is a copy of the summary rather than the object itself. *)
Theorem mergeFrom_self_unchanged (S : FunctionAccessedStorage) :
  uniqueKeys (storageAccessMap S) ->
  noUnidentifiedKeys (storageAccessMap S) ->
  allInitialized (storageAccessMap S) ->
  mergeFrom S This = Ok (S, false)
  /\ mergeFrom S (Other S) = Ok (S, false).
Proof.
  intros Hu Hi Ha. split; apply mergeFrom_own; auto.
Qed.

Lemma mergeFrom_self_unchanged_witness :
  let S := mkFunctionAccessedStorage
             [(AccessedStorage.OfGlobal 1%N,
               mkStorageAccessInfo SILAccessKind.Read true);
              (AccessedStorage.OfArgument 0%N 5%N,
               mkStorageAccessInfo SILAccessKind.Modify false)]
             (Some SILAccessKind.Read) in
  mergeFrom S This = Ok (S, false) /\ mergeFrom S (Other S) = Ok (S, false).
Proof.
  intros S. apply (mergeFrom_self_unchanged S).
  - unfold uniqueKeys. simpl. constructor.
    + simpl. intros [H | []]. discriminate H.
    + constructor; [intros [] | constructor].
  - unfold noUnidentifiedKeys. repeat constructor.
  - unfold allInitialized. repeat constructor.
Defined.

(** An [Unidentified] key, which neither the instruction visit nor the merge
    loop ever stores in a map, would be folded into the summary's own
    unidentified access by a self-merge. *)
Example mergeFrom_self_unidentified_key :
  mergeFrom
    (mkFunctionAccessedStorage
       [(AccessedStorage.OfUnidentified 1%N,
         mkStorageAccessInfo SILAccessKind.Modify false)] None) This
  = Ok (mkFunctionAccessedStorage
          [(AccessedStorage.OfUnidentified 1%N,
            mkStorageAccessInfo SILAccessKind.Modify false)]
          (Some SILAccessKind.Modify), true).
Proof. reflexivity. Qed.

(** A callee summary with a [Stack] and a [Box] entry only. *)
Lemma local_storage_confinement_witness :
  let this := mkFunctionAccessedStorage
                [(AccessedStorage.OfGlobal 1%N,
                  mkStorageAccessInfo SILAccessKind.Read true)] None in
  let callee := mkFunctionAccessedStorage
                  [(AccessedStorage.OfStack 2%N,
                    mkStorageAccessInfo SILAccessKind.Modify false);
                   (AccessedStorage.OfBox 3%N,
                    mkStorageAccessInfo SILAccessKind.Modify false)] None in
  mergeFromApply (fun _ => OtherValue) AccessedStorage.OfUnidentified
    this (Other callee) (mkFullApplySite [7%N] 0%N) = Ok (this, false).
Proof.
  intros this callee.
  apply (proj2 (proj2 (proj2 (proj2
           (local_storage_confinement (fun _ => OtherValue)
              AccessedStorage.OfUnidentified))))).
  - repeat constructor.
  - reflexivity.
Defined.

(** A callee summary without [Nested] keys, merged at a call whose callee
    origin is a partial application capturing value 8 as parameter 1. *)
Lemma nested_storage_unreachable_witness :
  let valueDef := fun v : SILValue =>
                    if (v =? 30)%N then PartialApplyInst [8%N] 1%N
                    else OtherValue in
  let this := mkFunctionAccessedStorage
                [(AccessedStorage.OfGlobal 1%N,
                  mkStorageAccessInfo SILAccessKind.Read true)] None in
  let callee := mkFunctionAccessedStorage
                  [(AccessedStorage.OfArgument 1%N 21%N,
                    mkStorageAccessInfo SILAccessKind.Modify false);
                   (AccessedStorage.OfGlobal 1%N,
                    mkStorageAccessInfo SILAccessKind.Modify false)] None in
  let fullApply := mkFullApplySite [10%N] 30%N in
  mergeFromApply valueDef AccessedStorage.OfStack this (Other callee) fullApply
  <> Abort Unreachable
  /\ exists this' changed,
       mergeFromApply valueDef AccessedStorage.OfStack
         this (Other callee) fullApply = Ok (this', changed).
Proof.
  intros valueDef this callee fullApply.
  assert (Hnn : noNestedKeys (storageAccessMap (deref this (Other callee))))
    by (unfold noNestedKeys; repeat constructor).
  destruct (nested_storage_unreachable valueDef AccessedStorage.OfStack
              this (Other callee) fullApply Hnn) as (_ & _ & Hnu & Htotal).
  split; [exact Hnu |].
  apply Htotal; unfold allInitialized; repeat constructor.
Defined.

(** A [Nested] key in the callee summary makes the merge run into
    [llvm_unreachable]. *)
Example mergeFromApply_nested_key :
  mergeFromApply (fun _ => OtherValue) AccessedStorage.OfUnidentified
    (mkFunctionAccessedStorage [] None)
    (Other (mkFunctionAccessedStorage
              [(AccessedStorage.OfNested 1%N,
                mkStorageAccessInfo SILAccessKind.Read true)] None))
    (mkFullApplySite [] 0%N)
  = Abort Unreachable.
Proof. reflexivity. Qed.

(** A caller-side argument reached through one partial application: the
    call has one argument, the callee origin captures values 8 and 9 from
    parameter 1 on, so parameter 2 is the captured value 9; parameter 0 of a
    callee whose first applied argument is parameter 1 and which is called
    without arguments is not found, the subtraction wrapping around. *)
Example getCallerArg_partial_apply :
  getCallerArg (fun _ => PartialApplyInst [8%N; 9%N] 1%N)
    (mkFullApplySite [10%N] 30%N) 2%N = Some 9%N
  /\ getCallerArg (fun _ => PartialApplyInst [8%N; 9%N] 1%N)
       (mkFullApplySite [] 30%N) 0%N = None
  /\ unsigned_sub 0 1 = 4294967295%N.
Proof. repeat split. Qed.

(** ** Summaries the analysis builds *)

Lemma store_keys (m : StorageAccessMap) (k : AccessedStorage.t)
  (r : StorageAccessInfo) :
  map fst (store m k r) = map fst m.
Proof.
  induction m as [| [k0 r0] m IH]; simpl; [reflexivity |].
  destruct (AccessedStorage.eqb k k0); simpl; [| rewrite IH]; reflexivity.
Qed.

Lemma find_None_not_key (m : StorageAccessMap) (k : AccessedStorage.t) :
  find m k = None -> ~ In k (map fst m).
Proof.
  induction m as [| [k0 r0] m IH]; simpl; intros Hfind Hin; [exact Hin |].
  destruct (AccessedStorage.eqb k k0) eqn:E; [discriminate Hfind |].
  destruct Hin as [Heq | Hin]; [| exact (IH Hfind Hin)].
  subst k0. rewrite AccessedStorage_eqb_refl in E. discriminate E.
Qed.

Lemma wellFormedMap_keys (m m' : StorageAccessMap) :
  map fst m' = map fst m -> wellFormedMap m -> wellFormedMap m'.
Proof.
  unfold wellFormedMap, uniqueKeys, noUnidentifiedKeys.
  intros Hkeys [Hu Hi]. rewrite Hkeys. split; [exact Hu |].
  rewrite Forall_forall in *. intros e Hin.
  apply (in_map fst) in Hin. rewrite Hkeys in Hin.
  apply in_map_iff in Hin. destruct Hin as (e0 & Heq & Hin0).
  rewrite <- Heq. apply Hi, Hin0.
Qed.

Lemma wellFormedMap_try_emplace (m : StorageAccessMap)
  (k : AccessedStorage.t) (info : StorageAccessInfo) :
  AccessedStorage.isUnidentified k = false ->
  wellFormedMap m -> wellFormedMap (fst (try_emplace m k info)).
Proof.
  intros Hk [Hu Hi]. unfold try_emplace.
  destruct (find m k) eqn:Hfind; simpl; [split; assumption |].
  split.
  - unfold uniqueKeys in *. rewrite map_app. simpl.
    apply NoDup_app; [exact Hu | constructor; [intros [] | constructor] |].
    intros k0 Hin [<- | []]. exact (find_None_not_key _ _ Hfind Hin).
  - unfold noUnidentifiedKeys in *. apply Forall_app. split; [exact Hi |].
    repeat constructor. exact Hk.
Qed.

Lemma wellFormedMap_mergeEntry (m m' : StorageAccessMap)
  (k : AccessedStorage.t) (info : StorageAccessInfo) (c : bool) :
  mergeEntry m k info = Ok (m', c) -> wellFormedMap m -> wellFormedMap m'.
Proof.
  unfold mergeEntry. destruct (find m k) as [mapped |].
  - destruct (StorageAccessInfoOps.mergeFrom mapped info) as [[r c0] | f];
      simpl; [| discriminate].
    intros H; injection H as <- <-. apply wellFormedMap_keys, store_keys.
  - intros H; injection H as <- <-. auto.
Qed.

(** The merge loop, whatever the transform, keeps the map well formed. *)
Lemma wellFormedMap_mergeAccessEntries
  (transformStorage : AccessedStorage.t -> result (option AccessedStorage.t))
  (l : StorageAccessMap) (S S' : FunctionAccessedStorage) (c c' : bool) :
  mergeAccessEntries transformStorage l (S, c) = Ok (S', c') ->
  wellFormedMap (storageAccessMap S) -> wellFormedMap (storageAccessMap S').
Proof.
  revert S c; induction l as [| e l IH]; intros S c.
  - simpl. intros H; injection H as <- <-. auto.
  - rewrite mergeAccessEntries_cons.
    destruct (mergeAccessEntry transformStorage (S, c) e)
      as [[S1 c1] | f] eqn:Hstep; cbn [bind]; [| discriminate].
    intros Hrest Hwf. apply (IH _ _ Hrest). clear Hrest IH.
    unfold mergeAccessEntry in Hstep.
    destruct (transformStorage (fst e)) as [[storage |] | f]; simpl in Hstep;
      [| injection Hstep as <- <-; exact Hwf | discriminate Hstep].
    destruct (AccessedStorage.isUnidentified storage) eqn:Hid.
    + pose proof (updateUnidentifiedAccess_grows S (accessKind (snd e)))
        as [_ Hsame].
      destruct (updateUnidentifiedAccess S (accessKind (snd e))) as [S2 c2].
      injection Hstep as <- <-. simpl in Hsame. rewrite Hsame. exact Hwf.
    + pose proof (wellFormedMap_try_emplace _ storage (snd e) Hid Hwf) as Hwf'.
      destruct (try_emplace (storageAccessMap S) storage (snd e))
        as [m1 inserted]. simpl in Hwf'.
      destruct inserted.
      * injection Hstep as <- <-. exact Hwf'.
      * destruct (mergeEntry m1 storage (snd e)) as [[m2 c2] | f] eqn:Hm;
          simpl in Hstep; [| discriminate Hstep].
        injection Hstep as <- <-. simpl.
        eapply wellFormedMap_mergeEntry; eassumption.
Qed.

Lemma wellFormedMap_mergeAccesses
  (transformStorage : AccessedStorage.t -> result (option AccessedStorage.t))
  (this this' : FunctionAccessedStorage) (other : OtherRef) (changed : bool) :
  mergeAccesses this other transformStorage = Ok (this', changed) ->
  wellFormedMap (storageAccessMap this) ->
  wellFormedMap (storageAccessMap this').
Proof.
  unfold mergeAccesses.
  destruct (mergeAccessEntries transformStorage
              (storageAccessMap (deref this other)) (this, false))
    as [[S1 c1] | f] eqn:Hloop; cbn [bind]; [| discriminate].
  intros Hrun Hwf.
  pose proof (wellFormedMap_mergeAccessEntries _ _ _ _ _ _ Hloop Hwf) as Hwf1.
  destruct (unidentifiedAccess (deref S1 other)) as [kind |].
  - pose proof (updateUnidentifiedAccess_grows S1 kind) as [_ Hsame].
    destruct (updateUnidentifiedAccess S1 kind) as [S2 c2].
    injection Hrun as <- <-. simpl in Hsame. rewrite Hsame. exact Hwf1.
  - injection Hrun as <- <-. exact Hwf1.
Qed.

(** So does the visit of an instruction. *)
Lemma wellFormedMap_analyzeInstruction
  (findAccessedStorageOrigin : SILValue -> AccessedStorage.t)
  (this this' : FunctionAccessedStorage) (I : SILInstruction) :
  analyzeInstruction findAccessedStorageOrigin this I = Ok this' ->
  wellFormedMap (storageAccessMap this) ->
  wellFormedMap (storageAccessMap this').
Proof.
  assert (Hvisit : forall b,
    visitBeginAccess findAccessedStorageOrigin this b = Ok this' ->
    wellFormedMap (storageAccessMap this) ->
    wellFormedMap (storageAccessMap this')).
  { intros b. unfold visitBeginAccess.
    destruct (negb _); [intros H; injection H as <-; auto |].
    destruct (AccessedStorage.isUnidentified
                (findAccessedStorageOrigin (getSource b))) eqn:Hid.
    - intros H; injection H as <-. auto.
    - intros Hrun Hwf.
      pose proof (wellFormedMap_try_emplace _ _ (StorageAccessInfo_of b)
                    Hid Hwf) as Hwf'.
      destruct (try_emplace (storageAccessMap this)
                  (findAccessedStorageOrigin (getSource b))
                  (StorageAccessInfo_of b)) as [m1 inserted].
      simpl in Hwf'. destruct inserted; simpl in Hrun.
      + injection Hrun as <-. exact Hwf'.
      + destruct (mergeEntry m1 _ _) as [[m2 c2] | f] eqn:Hm;
          simpl in Hrun; [| discriminate Hrun].
        injection Hrun as <-. simpl.
        eapply wellFormedMap_mergeEntry; eassumption. }
  destruct I as [b | b | op]; simpl; try apply Hvisit.
  intros H; injection H as <-; auto.
Qed.

(** * Further properties of the analysis *)

(** ** The returned flag reports change exactly *)

Lemma updateAccessKind_changed (l r : SILAccessKind.t) :
  (snd (updateAccessKind l r) = false -> fst (updateAccessKind l r) = l)
  /\ (snd (updateAccessKind l r) = true ->
      l = SILAccessKind.Read
      /\ fst (updateAccessKind l r) = SILAccessKind.Modify).
Proof. destruct l, r; simpl; split; intros H; auto; discriminate H. Qed.

Lemma info_mergeFrom_weight (self RHS self' : StorageAccessInfo) (c : bool) :
  StorageAccessInfoOps.mergeFrom self RHS = Ok (self', c) ->
  (c = false -> self' = self)
  /\ (c = true -> infoWeight self < infoWeight self')
  /\ infoWeight self <= infoWeight self'.
Proof.
  unfold StorageAccessInfoOps.mergeFrom, infoWeight.
  destruct self as [ks fs], RHS as [kr fr]; simpl.
  destruct ks, kr, fs, fr; simpl; intros H; try discriminate H;
    injection H as <- <-; simpl; repeat split; intros; try discriminate; lia.
Qed.

Lemma updateUnidentifiedAccess_weight (S : FunctionAccessedStorage)
  (kind : SILAccessKind.t) :
  (snd (updateUnidentifiedAccess S kind) = false ->
   fst (updateUnidentifiedAccess S kind) = S)
  /\ (snd (updateUnidentifiedAccess S kind) = true ->
      summaryWeight S < summaryWeight (fst (updateUnidentifiedAccess S kind)))
  /\ summaryWeight S <= summaryWeight (fst (updateUnidentifiedAccess S kind)).
Proof.
  unfold updateUnidentifiedAccess, summaryWeight.
  destruct S as [m [u |]]; simpl.
  - destruct u, kind; simpl; repeat split; intros; try discriminate; lia.
  - destruct kind; simpl; repeat split; intros; try discriminate; lia.
Qed.

Lemma mapWeight_app_entry (m : StorageAccessMap) (k : AccessedStorage.t)
  (r : StorageAccessInfo) :
  mapWeight (m ++ [(k, r)]) = S (infoWeight r + mapWeight m).
Proof.
  induction m as [| [k0 r0] m IH]; simpl; [lia |]. rewrite IH. lia.
Qed.

Lemma mapWeight_store (m : StorageAccessMap) (k : AccessedStorage.t)
  (r r' : StorageAccessInfo) :
  find m k = Some r ->
  mapWeight (store m k r') + infoWeight r = mapWeight m + infoWeight r'.
Proof.
  induction m as [| [k0 r0] m IH]; simpl; [discriminate |].
  destruct (AccessedStorage.eqb k k0); simpl.
  - intros H; injection H as ->. lia.
  - intros H. specialize (IH H). lia.
Qed.

Lemma mergeEntry_weight (m m' : StorageAccessMap) (k : AccessedStorage.t)
  (info : StorageAccessInfo) (c : bool) :
  mergeEntry m k info = Ok (m', c) ->
  (c = false -> m' = m)
  /\ (c = true -> mapWeight m < mapWeight m')
  /\ mapWeight m <= mapWeight m'.
Proof.
  unfold mergeEntry. destruct (find m k) as [mapped |] eqn:Hfind.
  - destruct (StorageAccessInfoOps.mergeFrom mapped info)
      as [[mapped' c0] | f] eqn:Hm; simpl; [| discriminate].
    intros H; injection H as <- <-.
    destruct (info_mergeFrom_weight _ _ _ _ Hm) as (Hsame & Hlt & Hle).
    pose proof (mapWeight_store m k mapped mapped' Hfind) as Hw.
    repeat split.
    + intros Hc. rewrite (Hsame Hc). apply store_same, Hfind.
    + intros Hc. specialize (Hlt Hc). lia.
    + lia.
  - intros H; injection H as <- <-.
    repeat split; auto; try discriminate.
Qed.

Section ChangedFlag.

Variable transformStorage
  : AccessedStorage.t -> result (option AccessedStorage.t).

Lemma mergeAccessEntry_weight (S S' : FunctionAccessedStorage) (c c' : bool)
  (e : AccessedStorage.t * StorageAccessInfo) :
  mergeAccessEntry transformStorage (S, c) e = Ok (S', c') ->
  (c' = false -> S' = S /\ c = false)
  /\ (c' = true -> c = true \/ summaryWeight S < summaryWeight S')
  /\ summaryWeight S <= summaryWeight S'.
Proof.
  unfold mergeAccessEntry.
  destruct (transformStorage (fst e)) as [[storage |] | f]; simpl;
    [| intros H; injection H as <- <-;
       split; [auto | split; [auto | lia]] | discriminate].
  destruct (AccessedStorage.isUnidentified storage).
  - pose proof (updateUnidentifiedAccess_weight S (accessKind (snd e)))
      as (Hsame & Hlt & Hle).
    destruct (updateUnidentifiedAccess S (accessKind (snd e))) as [S1 c1].
    simpl in *. intros H; injection H as <- <-.
    split; [intros Hc | split; [intros Hc | exact Hle]].
    + apply orb_false_iff in Hc. destruct Hc as [Hc0 Hc1]. auto.
    + apply orb_true_iff in Hc. destruct Hc as [Hc | Hc]; auto.
  - unfold try_emplace.
    destruct (find (storageAccessMap S) storage) as [mapped |] eqn:Hfind.
    + destruct (mergeEntry (storageAccessMap S) storage (snd e))
        as [[m2 c2] | f] eqn:Hm; simpl; [| discriminate].
      intros H; injection H as <- <-.
      destruct (mergeEntry_weight _ _ _ _ _ Hm) as (Hsame & Hlt & Hle).
      unfold summaryWeight; simpl.
      split; [intros Hc | split; [intros Hc | lia]].
      * apply orb_false_iff in Hc. destruct Hc as [Hc0 Hc2].
        rewrite (Hsame Hc2). split; [destruct S; reflexivity | exact Hc0].
      * apply orb_true_iff in Hc.
        destruct Hc as [Hc | Hc]; [auto | right]. specialize (Hlt Hc). lia.
    + intros H; injection H as <- <-.
      unfold summaryWeight; simpl. rewrite mapWeight_app_entry.
      split; [discriminate | split; [intros _; right; lia | lia]].
Qed.

Lemma mergeAccessEntries_weight (l : StorageAccessMap)
  (S S' : FunctionAccessedStorage) (c c' : bool) :
  mergeAccessEntries transformStorage l (S, c) = Ok (S', c') ->
  (c' = false -> S' = S /\ c = false)
  /\ (c' = true -> c = true \/ summaryWeight S < summaryWeight S')
  /\ summaryWeight S <= summaryWeight S'.
Proof.
  revert S c; induction l as [| e l IH]; intros S c.
  - simpl. intros H; injection H as <- <-.
    split; [auto | split; [auto | lia]].
  - rewrite mergeAccessEntries_cons.
    destruct (mergeAccessEntry transformStorage (S, c) e)
      as [[S1 c1] | f] eqn:Hstep; cbn [bind]; [| discriminate].
    intros Hrest.
    destruct (mergeAccessEntry_weight _ _ _ _ _ Hstep) as (Hs1 & Hs2 & Hs3).
    destruct (IH _ _ Hrest) as (Hr1 & Hr2 & Hr3).
    split; [intros Hc | split; [intros Hc | lia]].
    + destruct (Hr1 Hc) as [-> Hc1]. apply (Hs1 Hc1).
    + destruct (Hr2 Hc) as [Hc1 | Hlt].
      * destruct (Hs2 Hc1) as [Hc0 | Hlt]; [auto | right; lia].
      * right; lia.
Qed.

Lemma mergeAccesses_weight (this this' : FunctionAccessedStorage)
  (other : OtherRef) (changed : bool) :
  mergeAccesses this other transformStorage = Ok (this', changed) ->
  (changed = false -> this' = this)
  /\ (changed = true -> summaryWeight this < summaryWeight this').
Proof.
  unfold mergeAccesses.
  destruct (mergeAccessEntries transformStorage
              (storageAccessMap (deref this other)) (this, false))
    as [[S1 c1] | f] eqn:Hloop; cbn [bind]; [| discriminate].
  destruct (mergeAccessEntries_weight _ _ _ _ _ Hloop) as (Hl1 & Hl2 & Hl3).
  destruct (unidentifiedAccess (deref S1 other)) as [kind |].
  - pose proof (updateUnidentifiedAccess_weight S1 kind) as (Hu1 & Hu2 & Hu3).
    destruct (updateUnidentifiedAccess S1 kind) as [S2 c2]. simpl in *.
    intros H; injection H as <- <-. split.
    + intros Hc. apply orb_false_iff in Hc. destruct Hc as [Hc1 Hc2].
      rewrite (Hu1 Hc2). apply (Hl1 Hc1).
    + intros Hc. apply orb_true_iff in Hc. destruct Hc as [Hc | Hc].
      * destruct (Hl2 Hc) as [Hf | Hlt]; [discriminate Hf | lia].
      * specialize (Hu2 Hc). lia.
  - intros H; injection H as <- <-. split.
    + intros Hc. apply (Hl1 Hc).
    + intros Hc. destruct (Hl2 Hc) as [Hf | Hlt]; [discriminate Hf | lia].
Qed.

End ChangedFlag.

(** X1. The boolean a merge returns reports change exactly: whatever the
    other summary (also [*this]) and the transform, when [mergeAccesses]
    returns, it returns [false] if and only if the receiving summary is
    what it was before, map and unidentified access. *)
Theorem mergeAccesses_changed_iff
  (this : FunctionAccessedStorage) (other : OtherRef)
  (transformStorage : AccessedStorage.t -> result (option AccessedStorage.t))
  (this' : FunctionAccessedStorage) (changed : bool) :
  mergeAccesses this other transformStorage = Ok (this', changed) ->
  (changed = false <-> this' = this).
Proof.
  intros Hrun. destruct (mergeAccesses_weight _ _ _ _ _ Hrun) as [Hsame Hlt].
  split; [exact Hsame |].
  intros ->. destruct changed; [| reflexivity].
  specialize (Hlt eq_refl). lia.
Qed.

Lemma mergeAccesses_changed_iff_witness :
  let this := mkFunctionAccessedStorage
                [(AccessedStorage.OfGlobal 1%N,
                  mkStorageAccessInfo SILAccessKind.Read true)] None in
  let other := mkFunctionAccessedStorage
                 [(AccessedStorage.OfGlobal 1%N,
                   mkStorageAccessInfo SILAccessKind.Modify true)] None in
  exists this',
    mergeFrom this (Other other) = Ok (this', true) /\ this' <> this.
Proof.
  intros this other. eexists. split; [reflexivity |].
  intros Heq.
  apply (mergeAccesses_changed_iff this (Other other)
           (fun s => Ok (Some s)) _ true eq_refl) in Heq.
  discriminate Heq.
Defined.

(** ** Merging through an alias and merging twice *)

Lemma updateAccessKind_absorbed_le (c c' k : SILAccessKind.t) :
  updateAccessKind c k = (c, false) ->
  accessKind_le c c' ->
  updateAccessKind c' k = (c', false).
Proof.
  intros Hc [<- | [-> ->]]; [exact Hc | reflexivity].
Qed.

Lemma updateAccessKind_idempotent (l r : SILAccessKind.t) :
  updateAccessKind (fst (updateAccessKind l r)) r
  = (fst (updateAccessKind l r), false).
Proof. destruct l, r; reflexivity. Qed.

Lemma updateUnidentifiedAccess_absorbed (S : FunctionAccessedStorage)
  (k : SILAccessKind.t) :
  absorbsKind (unidentifiedAccess S) k ->
  updateUnidentifiedAccess S k = (S, false).
Proof.
  intros (c & Hu & Hc). unfold updateUnidentifiedAccess. rewrite Hu, Hc.
  destruct S as [m u]; simpl in *. rewrite Hu. reflexivity.
Qed.

Lemma updateUnidentifiedAccess_absorbs (S : FunctionAccessedStorage)
  (k : SILAccessKind.t) :
  absorbsKind (unidentifiedAccess (fst (updateUnidentifiedAccess S k))) k.
Proof.
  unfold updateUnidentifiedAccess, absorbsKind.
  destruct (unidentifiedAccess S) as [u |]; simpl.
  - pose proof (updateAccessKind_idempotent u k) as Hidem.
    destruct (updateAccessKind u k) as [u' c]; simpl in *.
    exists u'; auto.
  - exists k. split; [reflexivity | apply updateAccessKind_same].
Qed.

Lemma absorbsKind_le (u u' : option SILAccessKind.t) (k : SILAccessKind.t) :
  absorbsKind u k ->
  (forall c, u = Some c -> exists c', u' = Some c' /\ accessKind_le c c') ->
  absorbsKind u' k.
Proof.
  intros (c & Hu & Hc) Hle. destruct (Hle c Hu) as (c' & Hu' & Hcc').
  exists c'. split; [exact Hu' |].
  eapply updateAccessKind_absorbed_le; eassumption.
Qed.

Lemma info_mergeFrom_idempotent (self RHS self' : StorageAccessInfo)
  (c : bool) :
  StorageAccessInfoOps.mergeFrom self RHS = Ok (self', c) ->
  StorageAccessInfoOps.mergeFrom self' RHS = Ok (self', false).
Proof.
  unfold StorageAccessInfoOps.mergeFrom.
  destruct self as [ks fs], RHS as [kr fr]; simpl.
  destruct ks, kr, fs, fr; simpl; intros H; try discriminate H;
    injection H as <- <-; reflexivity.
Qed.

Lemma info_mergeFrom_absorbed_le (r r' RHS : StorageAccessInfo) :
  StorageAccessInfoOps.mergeFrom r RHS = Ok (r, false) ->
  info_le r r' ->
  StorageAccessInfoOps.mergeFrom r' RHS = Ok (r', false).
Proof.
  unfold StorageAccessInfoOps.mergeFrom, info_le, accessKind_le.
  destruct r as [k f], r' as [k' f'], RHS as [kr fr]; simpl.
  intros Hm [[<- | [-> ->]] Hflag].
  - destruct k, kr, f, f', fr; simpl in *; try discriminate Hm;
      try reflexivity; specialize (Hflag eq_refl); discriminate Hflag.
  - destruct kr, f, f', fr; simpl in *; try discriminate Hm;
      try reflexivity; specialize (Hflag eq_refl); discriminate Hflag.
Qed.

Section MergeTwice.

Variable transformStorage
  : AccessedStorage.t -> result (option AccessedStorage.t).

Lemma absorbsEntry_grows (S S' : FunctionAccessedStorage)
  (e : AccessedStorage.t * StorageAccessInfo) :
  grows S S' ->
  absorbsEntry transformStorage S e ->
  absorbsEntry transformStorage S' e.
Proof.
  intros [Hmap Hunid]. unfold absorbsEntry.
  destruct (transformStorage (fst e)) as [[storage |] | f]; auto.
  destruct (AccessedStorage.isUnidentified storage).
  - intros Habs. eapply absorbsKind_le; eauto.
  - intros (r & Hfind & Hm). destruct (Hmap _ _ Hfind) as (r' & Hfind' & Hle).
    exists r'. split; [exact Hfind' |].
    eapply info_mergeFrom_absorbed_le; eassumption.
Qed.

Lemma mergeAccessEntry_absorbs (S S' : FunctionAccessedStorage) (c c' : bool)
  (e : AccessedStorage.t * StorageAccessInfo) :
  isInitialized (accessKind (snd e)) = true ->
  mergeAccessEntry transformStorage (S, c) e = Ok (S', c') ->
  absorbsEntry transformStorage S' e.
Proof.
  intros Hinit. unfold mergeAccessEntry, absorbsEntry.
  destruct (transformStorage (fst e)) as [[storage |] | f]; simpl;
    [| auto | discriminate].
  destruct (AccessedStorage.isUnidentified storage).
  - pose proof (updateUnidentifiedAccess_absorbs S (accessKind (snd e)))
      as Habs.
    destruct (updateUnidentifiedAccess S (accessKind (snd e))) as [S1 c1].
    intros H; injection H as <- <-. exact Habs.
  - unfold try_emplace, mergeEntry.
    destruct (find (storageAccessMap S) storage) as [mapped |] eqn:Hfind.
    + rewrite Hfind.
      destruct (StorageAccessInfoOps.mergeFrom mapped (snd e))
        as [[mapped' c0] | f] eqn:Hm; simpl; [| discriminate].
      intros H; injection H as <- <-. simpl.
      exists mapped'. split.
      * eapply find_store_same; eassumption.
      * eapply info_mergeFrom_idempotent; eassumption.
    + intros H; injection H as <- <-. simpl.
      exists (snd e). split.
      * rewrite find_app_entry, Hfind, AccessedStorage_eqb_refl. reflexivity.
      * apply info_mergeFrom_self, Hinit.
Qed.

Lemma mergeAccessEntries_absorbs (l : StorageAccessMap)
  (S S' : FunctionAccessedStorage) (c c' : bool) :
  allInitialized l ->
  mergeAccessEntries transformStorage l (S, c) = Ok (S', c') ->
  Forall (absorbsEntry transformStorage S') l.
Proof.
  revert S c; induction l as [| e l IH]; intros S c Hall; [constructor |].
  inversion Hall as [| ? ? He Hall']; subst.
  rewrite mergeAccessEntries_cons.
  destruct (mergeAccessEntry transformStorage (S, c) e)
    as [[S1 c1] | f] eqn:Hstep; cbn [bind]; [| discriminate].
  intros Hrest. constructor.
  - eapply absorbsEntry_grows.
    + eapply mergeAccessEntries_grows; eassumption.
    + eapply mergeAccessEntry_absorbs; eassumption.
  - eapply IH; eassumption.
Qed.

Lemma mergeAccessEntry_absorbed (S : FunctionAccessedStorage)
  (e : AccessedStorage.t * StorageAccessInfo) :
  absorbsEntry transformStorage S e ->
  mergeAccessEntry transformStorage (S, false) e = Ok (S, false).
Proof.
  unfold absorbsEntry, mergeAccessEntry.
  destruct (transformStorage (fst e)) as [[storage |] | f]; simpl;
    [| reflexivity | intros []].
  destruct (AccessedStorage.isUnidentified storage).
  - intros Habs. rewrite (updateUnidentifiedAccess_absorbed _ _ Habs).
    reflexivity.
  - intros (r & Hfind & Hm). unfold try_emplace, mergeEntry.
    rewrite Hfind, Hfind, Hm. simpl.
    rewrite (store_same _ _ _ Hfind). destruct S; reflexivity.
Qed.

Lemma mergeAccessEntries_absorbed (l : StorageAccessMap)
  (S : FunctionAccessedStorage) :
  Forall (absorbsEntry transformStorage S) l ->
  mergeAccessEntries transformStorage l (S, false) = Ok (S, false).
Proof.
  induction 1 as [| e l He _ IH]; [reflexivity |].
  rewrite mergeAccessEntries_cons, (mergeAccessEntry_absorbed _ _ He).
  exact IH.
Qed.

End MergeTwice.

(** X2. A merge reaches its fixed point in one step: when merging a summary
    [other] whose records pass the assertion of the record merge into [this]
    through a transform returns [this'], merging the same [other] through
    the same transform into [this'] returns [false] and leaves [this']
    unchanged. *)
Theorem mergeAccesses_twice
  (this other : FunctionAccessedStorage)
  (transformStorage : AccessedStorage.t -> result (option AccessedStorage.t))
  (this' : FunctionAccessedStorage) (changed : bool) :
  allInitialized (storageAccessMap other) ->
  mergeAccesses this (Other other) transformStorage = Ok (this', changed) ->
  mergeAccesses this' (Other other) transformStorage = Ok (this', false).
Proof.
  intros Hall. unfold mergeAccesses. simpl deref.
  destruct (mergeAccessEntries transformStorage (storageAccessMap other)
              (this, false)) as [[S1 c1] | f] eqn:Hloop; cbn [bind];
    [| discriminate].
  pose proof (mergeAccessEntries_absorbs _ _ _ _ _ _ Hall Hloop) as Habs.
  destruct (unidentifiedAccess other) as [kind |].
  - pose proof (updateUnidentifiedAccess_grows S1 kind) as [Hg _].
    pose proof (updateUnidentifiedAccess_absorbs S1 kind) as Hk.
    destruct (updateUnidentifiedAccess S1 kind) as [S2 c2]. simpl in *.
    intros H; injection H as <- <-.
    rewrite mergeAccessEntries_absorbed.
    + cbn [bind]. rewrite (updateUnidentifiedAccess_absorbed _ _ Hk).
      reflexivity.
    + rewrite Forall_forall in *. intros e He.
      eapply absorbsEntry_grows; [exact Hg | apply Habs, He].
  - intros H; injection H as <- <-.
    rewrite mergeAccessEntries_absorbed by exact Habs. reflexivity.
Qed.

Lemma mergeAccesses_twice_witness :
  let caller := mkFunctionAccessedStorage
                  [(AccessedStorage.OfGlobal 1%N,
                    mkStorageAccessInfo SILAccessKind.Read true)]
                  (Some SILAccessKind.Read) in
  let callee := mkFunctionAccessedStorage
                  [(AccessedStorage.OfGlobal 1%N,
                    mkStorageAccessInfo SILAccessKind.Modify false);
                   (AccessedStorage.OfArgument 3%N 9%N,
                    mkStorageAccessInfo SILAccessKind.Modify true)]
                  None in
  let fullApply := mkFullApplySite [] 0%N in
  exists this',
    mergeFromApply (fun _ => OtherValue) AccessedStorage.OfGlobal
      caller (Other callee) fullApply = Ok (this', true)
    /\ mergeFromApply (fun _ => OtherValue) AccessedStorage.OfGlobal
         this' (Other callee) fullApply = Ok (this', false).
Proof.
  intros caller callee fullApply. eexists. split; [reflexivity |].
  apply (mergeAccesses_twice caller callee
           (fun s => transformCalleeStorage (fun _ => OtherValue)
                       AccessedStorage.OfGlobal s fullApply) _ true).
  - unfold allInitialized. repeat constructor.
  - reflexivity.
Defined.

(** X3. The snapshot taken before the loop makes a self-merge through the
    alias the same as a merge of a copy: for every transform,
    [mergeAccesses] with [other] being [*this] returns what it returns with
    [other] being a separate summary equal to [*this]. *)
Theorem mergeAccesses_alias_copy
  (this : FunctionAccessedStorage)
  (transformStorage : AccessedStorage.t -> result (option AccessedStorage.t)) :
  mergeAccesses this This transformStorage
  = mergeAccesses this (Other this) transformStorage.
Proof.
  unfold mergeAccesses. simpl deref.
  destruct (mergeAccessEntries transformStorage (storageAccessMap this)
              (this, false)) as [[S1 c1] | f] eqn:Hloop; cbn [bind];
    [| reflexivity].
  apply mergeAccessEntries_grows in Hloop. destruct Hloop as [_ Hunid].
  destruct (unidentifiedAccess this) as [u |] eqn:Hu.
  - destruct (Hunid u eq_refl) as (u' & Hu' & Hle). rewrite Hu'.
    rewrite (updateUnidentifiedAccess_same S1 u' Hu').
    rewrite (updateUnidentifiedAccess_absorbed S1 u); [reflexivity |].
    exists u'. split; [exact Hu' |].
    eapply updateAccessKind_absorbed_le; [apply updateAccessKind_same |].
    destruct Hle as [<- | [-> ->]]; [left; reflexivity |].
    right; split; reflexivity.
  - destruct (unidentifiedAccess S1) as [u' |] eqn:Hu'; [| reflexivity].
    rewrite (updateUnidentifiedAccess_same S1 u' Hu').
    rewrite orb_false_r. reflexivity.
Qed.

(** ** Conflicts across merges *)

Lemma accessKindMayConflict_le (k a a' : SILAccessKind.t) :
  accessKindMayConflict k a = true ->
  accessKind_le a a' ->
  accessKindMayConflict k a' = true.
Proof.
  intros Hc [<- | [-> ->]]; [exact Hc |].
  apply accessKindMayConflict_true_iff. right; reflexivity.
Qed.

Lemma mayConflictWith_true_iff
  (isDistinctFrom : AccessedStorage.t -> AccessedStorage.t -> bool)
  (S : FunctionAccessedStorage) (k : SILAccessKind.t) (s : AccessedStorage.t) :
  mayConflictWith isDistinctFrom S k s = true
  <-> (exists u, unidentifiedAccess S = Some u
                 /\ accessKindMayConflict k u = true)
      \/ (exists storage info,
             In (storage, info) (storageAccessMap S)
             /\ accessKindMayConflict k (accessKind info) = true
             /\ isDistinctFrom s storage = false).
Proof.
  unfold mayConflictWith.
  destruct (unidentifiedAccess S) as [u |].
  - destruct (accessKindMayConflict k u) eqn:Hc.
    + split; [intros _; left; exists u; auto | reflexivity].
    + rewrite mayConflictWithEntries_true_iff. split; [auto |].
      intros [(u' & Hu & Hc') | H]; [| exact H].
      injection Hu as <-. rewrite Hc in Hc'. discriminate Hc'.
  - rewrite mayConflictWithEntries_true_iff. split; [auto |].
    intros [(u' & Hu & _) | H]; [discriminate Hu | exact H].
Qed.

Lemma entriesGrow_refl (S : FunctionAccessedStorage) : entriesGrow S S.
Proof.
  split.
  - intros k r H; exists r; split; [exact H | apply info_le_refl].
  - intros u H; exists u; split; [exact H | apply accessKind_le_refl].
Qed.

Lemma entriesGrow_trans (S1 S2 S3 : FunctionAccessedStorage) :
  entriesGrow S1 S2 -> entriesGrow S2 S3 -> entriesGrow S1 S3.
Proof.
  intros [Hm Hu] [Hm' Hu']; split.
  - intros k r H. destruct (Hm k r H) as (r2 & H2 & Hle).
    destruct (Hm' k r2 H2) as (r3 & H3 & Hle').
    exists r3; split; [exact H3 | eapply info_le_trans; eauto].
  - intros u H. destruct (Hu u H) as (u2 & H2 & Hle).
    destruct (Hu' u2 H2) as (u3 & H3 & Hle').
    exists u3; split; [exact H3 | eapply accessKind_le_trans; eauto].
Qed.

Lemma store_In_le (m : StorageAccessMap) (k : AccessedStorage.t)
  (r r' : StorageAccessInfo) :
  find m k = Some r -> info_le r r' ->
  forall k0 r0, In (k0, r0) m ->
                exists r0', In (k0, r0') (store m k r') /\ info_le r0 r0'.
Proof.
  intros Hfind Hle.
  induction m as [| [k1 r1] m IH]; simpl in *; [discriminate Hfind |].
  intros k0 r0 Hin.
  destruct (AccessedStorage.eqb k k1).
  - injection Hfind as ->. destruct Hin as [Heq | Hin].
    + injection Heq as <- <-. exists r'. split; [left; reflexivity | exact Hle].
    + exists r0. split; [right; exact Hin | apply info_le_refl].
  - destruct Hin as [Heq | Hin].
    + exists r0. split; [left; exact Heq | apply info_le_refl].
    + destruct (IH Hfind _ _ Hin) as (r0' & Hin' & Hle').
      exists r0'. split; [right; exact Hin' | exact Hle'].
Qed.

Lemma mergeEntry_In_le (m m' : StorageAccessMap) (k : AccessedStorage.t)
  (info : StorageAccessInfo) (c : bool) :
  mergeEntry m k info = Ok (m', c) ->
  forall k0 r0, In (k0, r0) m ->
                exists r0', In (k0, r0') m' /\ info_le r0 r0'.
Proof.
  unfold mergeEntry. destruct (find m k) as [mapped |] eqn:Hfind.
  - unfold StorageAccessInfoOps.mergeFrom at 1.
    destruct (isInitialized (accessKind mapped)) eqn:Hinit;
      [| discriminate].
    destruct (info_mergeFrom_ok mapped info Hinit)
      as (mapped' & c0 & Hm & _ & Hle & _).
    unfold StorageAccessInfoOps.mergeFrom in Hm. rewrite Hinit in Hm.
    rewrite Hm. simpl. intros H; injection H as <- <-.
    apply store_In_le with (r := mapped); assumption.
  - intros H; injection H as <- <-. intros k0 r0 Hin.
    exists r0. split; [exact Hin | apply info_le_refl].
Qed.

Lemma updateUnidentifiedAccess_entriesGrow (S : FunctionAccessedStorage)
  (kind : SILAccessKind.t) :
  entriesGrow S (fst (updateUnidentifiedAccess S kind)).
Proof.
  destruct (updateUnidentifiedAccess_grows S kind) as [[_ Hu] Hmap].
  split; [| exact Hu].
  rewrite Hmap. intros k r H; exists r; split; [exact H | apply info_le_refl].
Qed.

Section ConflictsKept.

Variable transformStorage
  : AccessedStorage.t -> result (option AccessedStorage.t).

Lemma mergeAccessEntry_entriesGrow (S S' : FunctionAccessedStorage)
  (c c' : bool) (e : AccessedStorage.t * StorageAccessInfo) :
  mergeAccessEntry transformStorage (S, c) e = Ok (S', c') ->
  entriesGrow S S'.
Proof.
  unfold mergeAccessEntry.
  destruct (transformStorage (fst e)) as [[storage |] | f]; simpl;
    [| intros H; injection H as <- <-; apply entriesGrow_refl | discriminate].
  destruct (AccessedStorage.isUnidentified storage).
  - pose proof (updateUnidentifiedAccess_entriesGrow S (accessKind (snd e)))
      as Hg.
    destruct (updateUnidentifiedAccess S (accessKind (snd e))) as [S1 c1].
    intros H; injection H as <- <-. exact Hg.
  - unfold try_emplace.
    destruct (find (storageAccessMap S) storage) as [mapped |] eqn:Hk.
    + destruct (mergeEntry (storageAccessMap S) storage (snd e))
        as [[m'' c1] | f] eqn:Hm; simpl; [| discriminate].
      intros H; injection H as <- <-. split; simpl.
      * eapply mergeEntry_In_le; eassumption.
      * intros u Hu; exists u; split; [exact Hu | apply accessKind_le_refl].
    + intros H; injection H as <- <-. split; simpl.
      * intros k r Hin. exists r; split; [| apply info_le_refl].
        apply in_or_app; left; exact Hin.
      * intros u Hu; exists u; split; [exact Hu | apply accessKind_le_refl].
Qed.

Lemma mergeAccessEntries_entriesGrow (l : StorageAccessMap)
  (S S' : FunctionAccessedStorage) (c c' : bool) :
  mergeAccessEntries transformStorage l (S, c) = Ok (S', c') ->
  entriesGrow S S'.
Proof.
  revert S c; induction l as [| e l IH]; intros S c.
  - simpl. intros H; injection H as <- <-; apply entriesGrow_refl.
  - rewrite mergeAccessEntries_cons.
    destruct (mergeAccessEntry transformStorage (S, c) e)
      as [[S1 c1] | f] eqn:Hstep; cbn [bind]; [| discriminate].
    intros H. eapply entriesGrow_trans.
    + eapply mergeAccessEntry_entriesGrow; eassumption.
    + eapply IH; eassumption.
Qed.

Lemma mergeAccesses_entriesGrow (this this' : FunctionAccessedStorage)
  (other : OtherRef) (changed : bool) :
  mergeAccesses this other transformStorage = Ok (this', changed) ->
  entriesGrow this this'.
Proof.
  unfold mergeAccesses.
  destruct (mergeAccessEntries transformStorage
              (storageAccessMap (deref this other)) (this, false))
    as [[S1 c1] | f] eqn:Hloop; cbn [bind]; [| discriminate].
  apply mergeAccessEntries_entriesGrow in Hloop.
  destruct (unidentifiedAccess (deref S1 other)) as [kind |].
  - pose proof (updateUnidentifiedAccess_entriesGrow S1 kind) as Hg.
    destruct (updateUnidentifiedAccess S1 kind) as [S2 c2].
    intros H; injection H as <- <-.
    eapply entriesGrow_trans; eassumption.
  - intros H; injection H as <- <-. exact Hloop.
Qed.

End ConflictsKept.

Lemma entriesGrow_mayConflictWith
  (isDistinctFrom : AccessedStorage.t -> AccessedStorage.t -> bool)
  (S S' : FunctionAccessedStorage) (k : SILAccessKind.t)
  (s : AccessedStorage.t) :
  entriesGrow S S' ->
  mayConflictWith isDistinctFrom S k s = true ->
  mayConflictWith isDistinctFrom S' k s = true.
Proof.
  intros [Hmap Hunid]. rewrite !mayConflictWith_true_iff.
  intros [(u & Hu & Hc) | (st & info & Hin & Hc & Hd)].
  - left. destruct (Hunid u Hu) as (u' & Hu' & Hle).
    exists u'. split; [exact Hu' |]. eapply accessKindMayConflict_le; eauto.
  - right. destruct (Hmap st info Hin) as (info' & Hin' & [Hle _]).
    exists st, info'. split; [exact Hin' |]. split; [| exact Hd].
    eapply accessKindMayConflict_le; eauto.
Qed.

(** X4. A merge never loses a conflict: whatever the other summary (also
    [*this]), the transform and the query, when [mergeAccesses] returns,
    every access kind and storage that may conflict with the receiving
    summary before the merge may conflict with it after. *)
Theorem mergeAccesses_keeps_conflicts
  (isDistinctFrom : AccessedStorage.t -> AccessedStorage.t -> bool)
  (this : FunctionAccessedStorage) (other : OtherRef)
  (transformStorage : AccessedStorage.t -> result (option AccessedStorage.t))
  (this' : FunctionAccessedStorage) (changed : bool)
  (k : SILAccessKind.t) (s : AccessedStorage.t) :
  mergeAccesses this other transformStorage = Ok (this', changed) ->
  mayConflictWith isDistinctFrom this k s = true ->
  mayConflictWith isDistinctFrom this' k s = true.
Proof.
  intros Hrun. apply entriesGrow_mayConflictWith.
  eapply mergeAccesses_entriesGrow; eassumption.
Qed.

Lemma mergeAccesses_keeps_conflicts_witness :
  let distinct := fun a b => negb (AccessedStorage.eqb a b) in
  let this := mkFunctionAccessedStorage
                [(AccessedStorage.OfGlobal 1%N,
                  mkStorageAccessInfo SILAccessKind.Modify false)] None in
  let other := mkFunctionAccessedStorage
                 [(AccessedStorage.OfGlobal 1%N,
                   mkStorageAccessInfo SILAccessKind.Read true);
                  (AccessedStorage.OfGlobal 2%N,
                   mkStorageAccessInfo SILAccessKind.Read true)] None in
  exists this' changed,
    mergeFrom this (Other other) = Ok (this', changed)
    /\ mayConflictWith distinct this' SILAccessKind.Read
         (AccessedStorage.OfGlobal 1%N) = true.
Proof.
  intros distinct this other. eexists; eexists. split; [reflexivity |].
  apply (mergeAccesses_keeps_conflicts distinct this (Other other)
           (fun s => Ok (Some s)) _ _ SILAccessKind.Read
           (AccessedStorage.OfGlobal 1%N) eq_refl).
  reflexivity.
Defined.

(** X5. The answer of the conflict query does not depend on the order in
    which the map is iterated: two summaries with the same unidentified
    access whose maps hold the same entries in different orders answer
    every query alike. *)
Theorem mayConflictWith_order_independent
  (isDistinctFrom : AccessedStorage.t -> AccessedStorage.t -> bool)
  (m m' : StorageAccessMap) (u : option SILAccessKind.t)
  (k : SILAccessKind.t) (s : AccessedStorage.t) :
  Permutation m m' ->
  mayConflictWith isDistinctFrom (mkFunctionAccessedStorage m u) k s
  = mayConflictWith isDistinctFrom (mkFunctionAccessedStorage m' u) k s.
Proof.
  intros Hperm.
  assert (Hiff : forall a b : StorageAccessMap, Permutation a b ->
            mayConflictWith isDistinctFrom (mkFunctionAccessedStorage a u) k s
            = true ->
            mayConflictWith isDistinctFrom (mkFunctionAccessedStorage b u) k s
            = true).
  { intros a b Hab. rewrite !mayConflictWith_true_iff. simpl.
    intros [H | (st & info & Hin & H)]; [left; exact H | right].
    exists st, info. split; [| exact H].
    eapply Permutation_in; eassumption. }
  destruct (mayConflictWith isDistinctFrom (mkFunctionAccessedStorage m u) k s)
    eqn:E1.
  - symmetry. apply (Hiff m m' Hperm E1).
  - destruct (mayConflictWith isDistinctFrom
                (mkFunctionAccessedStorage m' u) k s) eqn:E2; [| reflexivity].
    rewrite (Hiff m' m (Permutation_sym Hperm) E2) in E1. discriminate E1.
Qed.

Lemma mayConflictWith_order_independent_witness :
  let distinct := fun a b => negb (AccessedStorage.eqb a b) in
  let e1 := (AccessedStorage.OfGlobal 1%N,
             mkStorageAccessInfo SILAccessKind.Read true) in
  let e2 := (AccessedStorage.OfGlobal 2%N,
             mkStorageAccessInfo SILAccessKind.Modify false) in
  mayConflictWith distinct (mkFunctionAccessedStorage [e1; e2] None)
    SILAccessKind.Read (AccessedStorage.OfGlobal 2%N)
  = mayConflictWith distinct (mkFunctionAccessedStorage [e2; e1] None)
      SILAccessKind.Read (AccessedStorage.OfGlobal 2%N).
Proof.
  intros distinct e1 e2.
  apply (mayConflictWith_order_independent distinct [e1; e2] [e2; e1]).
  apply perm_swap.
Defined.

(** ** What a merge brings into the receiving summary *)

Lemma info_mergeFrom_dominates (self RHS self' : StorageAccessInfo)
  (c : bool) :
  StorageAccessInfoOps.mergeFrom self RHS = Ok (self', c) ->
  (accessKind RHS = SILAccessKind.Modify ->
   accessKind self' = SILAccessKind.Modify)
  /\ (noNestedConflict RHS = false -> noNestedConflict self' = false).
Proof.
  unfold StorageAccessInfoOps.mergeFrom.
  destruct self as [ks fs], RHS as [kr fr]; simpl.
  destruct ks, kr, fs, fr; simpl; intros H; try discriminate H;
    injection H as <- <-; simpl; split; intros E;
    try reflexivity; discriminate E.
Qed.

Lemma info_le_dominates (r r' : StorageAccessInfo) :
  info_le r r' ->
  (accessKind r = SILAccessKind.Modify ->
   accessKind r' = SILAccessKind.Modify)
  /\ (noNestedConflict r = false -> noNestedConflict r' = false).
Proof.
  intros [Hk Hf]. split.
  - intros HM. destruct Hk as [<- | [HR _]]; [exact HM |].
    rewrite HM in HR; discriminate HR.
  - intros Hfalse. destruct (noNestedConflict r') eqn:E; [| reflexivity].
    rewrite (Hf eq_refl) in Hfalse. discriminate Hfalse.
Qed.

Section MergedIn.

Variable transformStorage
  : AccessedStorage.t -> result (option AccessedStorage.t).

Lemma mergeAccessEntry_present (S S' : FunctionAccessedStorage) (c c' : bool)
  (e : AccessedStorage.t * StorageAccessInfo) (storage : AccessedStorage.t) :
  transformStorage (fst e) = Ok (Some storage) ->
  mergeAccessEntry transformStorage (S, c) e = Ok (S', c') ->
  (AccessedStorage.isUnidentified storage = false ->
   exists r, find (storageAccessMap S') storage = Some r
             /\ (accessKind (snd e) = SILAccessKind.Modify ->
                 accessKind r = SILAccessKind.Modify)
             /\ (noNestedConflict (snd e) = false ->
                 noNestedConflict r = false))
  /\ (AccessedStorage.isUnidentified storage = true ->
      absorbsKind (unidentifiedAccess S') (accessKind (snd e))).
Proof.
  intros Ht. unfold mergeAccessEntry. rewrite Ht; simpl.
  destruct (AccessedStorage.isUnidentified storage).
  - pose proof (updateUnidentifiedAccess_absorbs S (accessKind (snd e)))
      as Habs.
    destruct (updateUnidentifiedAccess S (accessKind (snd e))) as [S1 c1].
    intros H; injection H as <- <-.
    split; [discriminate | intros _; exact Habs].
  - intros Hrun. split; [intros _ | discriminate].
    revert Hrun. unfold try_emplace, mergeEntry.
    destruct (find (storageAccessMap S) storage) as [mapped |] eqn:Hk.
    + rewrite Hk.
      destruct (StorageAccessInfoOps.mergeFrom mapped (snd e))
        as [[mapped' c0] | f] eqn:Hm; simpl; [| discriminate].
      intros H; injection H as <- <-. simpl.
      exists mapped'. split; [eapply find_store_same; eassumption |].
      eapply info_mergeFrom_dominates; eassumption.
    + intros H; injection H as <- <-. simpl.
      exists (snd e). split; [| auto].
      rewrite find_app_entry, Hk, AccessedStorage_eqb_refl. reflexivity.
Qed.

Lemma mergeAccesses_present (this this' : FunctionAccessedStorage)
  (other : OtherRef) (changed : bool)
  (k storage : AccessedStorage.t) (info : StorageAccessInfo) :
  In (k, info) (storageAccessMap (deref this other)) ->
  transformStorage k = Ok (Some storage) ->
  mergeAccesses this other transformStorage = Ok (this', changed) ->
  (AccessedStorage.isUnidentified storage = false ->
   exists r, find (storageAccessMap this') storage = Some r
             /\ (accessKind info = SILAccessKind.Modify ->
                 accessKind r = SILAccessKind.Modify)
             /\ (noNestedConflict info = false ->
                 noNestedConflict r = false))
  /\ (AccessedStorage.isUnidentified storage = true ->
      absorbsKind (unidentifiedAccess this') (accessKind info)).
Proof.
  intros Hin Ht. unfold mergeAccesses.
  destruct (in_split _ _ Hin) as (l1 & l2 & Hsplit). rewrite Hsplit.
  rewrite mergeAccessEntries_app.
  destruct (mergeAccessEntries transformStorage l1 (this, false))
    as [[S1 c1] | f]; cbn [bind]; [| discriminate].
  rewrite mergeAccessEntries_cons.
  destruct (mergeAccessEntry transformStorage (S1, c1) (k, info))
    as [[S2 c2] | f] eqn:Hstep; cbn [bind]; [| discriminate].
  destruct (mergeAccessEntry_present S1 S2 c1 c2 (k, info) storage Ht Hstep)
    as [Hid2 Hun2]. simpl in Hid2, Hun2.
  destruct (mergeAccessEntries transformStorage l2 (S2, c2))
    as [[S3 c3] | f] eqn:Hrest; cbn [bind]; [| discriminate].
  apply mergeAccessEntries_grows in Hrest.
  assert (Hfinal : forall S4, grows S3 S4 ->
    (AccessedStorage.isUnidentified storage = false ->
     exists r, find (storageAccessMap S4) storage = Some r
               /\ (accessKind info = SILAccessKind.Modify ->
                   accessKind r = SILAccessKind.Modify)
               /\ (noNestedConflict info = false ->
                   noNestedConflict r = false))
    /\ (AccessedStorage.isUnidentified storage = true ->
        absorbsKind (unidentifiedAccess S4) (accessKind info))).
  { intros S4 H34.
    pose proof (grows_trans _ _ _ Hrest H34) as [Hmap Hunid]. split.
    - intros Hid. destruct (Hid2 Hid) as (r2 & Hfind2 & HM2 & Hf2).
      destruct (Hmap _ _ Hfind2) as (r4 & Hfind4 & Hle).
      destruct (info_le_dominates _ _ Hle) as [HM4 Hf4].
      exists r4. split; [exact Hfind4 | split; auto].
    - intros Hun. eapply absorbsKind_le; [apply Hun2, Hun | exact Hunid]. }
  destruct (unidentifiedAccess (deref S3 other)) as [kind |].
  - pose proof (updateUnidentifiedAccess_grows S3 kind) as [Hg _].
    destruct (updateUnidentifiedAccess S3 kind) as [S4 c4].
    intros H; injection H as <- <-. apply Hfinal, Hg.
  - intros H; injection H as <- <-. apply Hfinal, grows_refl.
Qed.

(** The loop leaves the unidentified access alone when no entry transforms
    to an [Unidentified] storage. *)
Lemma mergeAccessEntries_unidentified_untouched (l : StorageAccessMap)
  (S S' : FunctionAccessedStorage) (c c' : bool) :
  (forall e storage, In e l -> transformStorage (fst e) = Ok (Some storage) ->
                     AccessedStorage.isUnidentified storage = false) ->
  mergeAccessEntries transformStorage l (S, c) = Ok (S', c') ->
  unidentifiedAccess S' = unidentifiedAccess S.
Proof.
  revert S c; induction l as [| e l IH]; intros S c Hid.
  - simpl. intros H; injection H as <- <-. reflexivity.
  - rewrite mergeAccessEntries_cons.
    destruct (mergeAccessEntry transformStorage (S, c) e)
      as [[S1 c1] | f] eqn:Hstep; cbn [bind]; [| discriminate].
    intros Hrest.
    rewrite (IH S1 c1 (fun e' st Hin => Hid e' st (or_intror Hin)) Hrest).
    clear Hrest IH. unfold mergeAccessEntry in Hstep.
    destruct (transformStorage (fst e)) as [[storage |] | f] eqn:Ht;
      simpl in Hstep;
      [| injection Hstep as <- <-; reflexivity | discriminate Hstep].
    rewrite (Hid e storage (or_introl eq_refl) Ht) in Hstep.
    destruct (try_emplace (storageAccessMap S) storage (snd e))
      as [m1 inserted].
    destruct inserted.
    + injection Hstep as <- <-. reflexivity.
    + destruct (mergeEntry m1 storage (snd e)) as [[m2 c2] | f];
        simpl in Hstep; [| discriminate Hstep].
      injection Hstep as <- <-. reflexivity.
Qed.

End MergedIn.

(** X6. Every entry of the other summary reaches the receiving one: when
    [mergeAccesses] returns and the transform of an entry's key is an
    identified storage, that storage is a key of the result whose record is
    [Modify] if the entry's is and has a cleared flag if the entry's has;
    when the transform is an [Unidentified] storage, the unidentified
    access of the result is set and is not a [Read] left below a merged-in
    [Modify]. *)
Theorem mergeAccesses_brings_entry
  (this : FunctionAccessedStorage) (other : OtherRef)
  (transformStorage : AccessedStorage.t -> result (option AccessedStorage.t))
  (this' : FunctionAccessedStorage) (changed : bool)
  (k storage : AccessedStorage.t) (info : StorageAccessInfo) :
  In (k, info) (storageAccessMap (deref this other)) ->
  transformStorage k = Ok (Some storage) ->
  mergeAccesses this other transformStorage = Ok (this', changed) ->
  (AccessedStorage.isUnidentified storage = false ->
   exists r, find (storageAccessMap this') storage = Some r
             /\ (accessKind info = SILAccessKind.Modify ->
                 accessKind r = SILAccessKind.Modify)
             /\ (noNestedConflict info = false ->
                 noNestedConflict r = false))
  /\ (AccessedStorage.isUnidentified storage = true ->
      exists u, unidentifiedAccess this' = Some u
                /\ ~ (u = SILAccessKind.Read
                      /\ accessKind info = SILAccessKind.Modify)).
Proof.
  intros Hin Ht Hrun.
  destruct (mergeAccesses_present _ _ _ _ _ _ _ _ Hin Ht Hrun) as [Hid Hun].
  split; [exact Hid |].
  intros Hu. destruct (Hun Hu) as (u & Hset & Habs).
  exists u. split; [exact Hset |].
  intros [-> HM]. rewrite HM in Habs. discriminate Habs.
Qed.

Lemma mergeAccesses_brings_entry_witness :
  let caller := mkFunctionAccessedStorage
                  [(AccessedStorage.OfClass 10%N 2%N,
                    mkStorageAccessInfo SILAccessKind.Read true)] None in
  let callee := mkFunctionAccessedStorage
                  [(AccessedStorage.OfClass 40%N 2%N,
                    mkStorageAccessInfo SILAccessKind.Modify false)] None in
  let valueDef := fun v : SILValue =>
                    if (v =? 40)%N then SILFunctionArgument 0%N
                    else OtherValue in
  let fullApply := mkFullApplySite [10%N] 30%N in
  exists this' changed r,
    mergeFromApply valueDef AccessedStorage.OfUnidentified
      caller (Other callee) fullApply = Ok (this', changed)
    /\ find (storageAccessMap this') (AccessedStorage.OfClass 10%N 2%N)
       = Some r
    /\ accessKind r = SILAccessKind.Modify
    /\ noNestedConflict r = false.
Proof.
  intros caller callee valueDef fullApply.
  eexists; eexists.
  destruct (mergeAccesses_brings_entry caller (Other callee)
              (fun s => transformCalleeStorage valueDef
                          AccessedStorage.OfUnidentified s fullApply)
              _ _ (AccessedStorage.OfClass 40%N 2%N)
              (AccessedStorage.OfClass 10%N 2%N)
              (mkStorageAccessInfo SILAccessKind.Modify false)
              (or_introl eq_refl) eq_refl eq_refl) as [Hid _].
  destruct (Hid eq_refl) as (r & Hfind & HM & Hf).
  exists r. split; [reflexivity |]. split; [exact Hfind |].
  split; [apply HM; reflexivity | apply Hf; reflexivity].
Defined.

Lemma mergeFrom_conflicts_of_other
  (isDistinctFrom : AccessedStorage.t -> AccessedStorage.t -> bool)
  (this other this' : FunctionAccessedStorage) (changed : bool)
  (k : SILAccessKind.t) (s : AccessedStorage.t) :
  noUnidentifiedKeys (storageAccessMap other) ->
  unidentifiedInitialized this ->
  mergeFrom this (Other other) = Ok (this', changed) ->
  mayConflictWith isDistinctFrom other k s = true ->
  mayConflictWith isDistinctFrom this' k s = true.
Proof.
  intros Hkeys Hinit Hrun. rewrite !mayConflictWith_true_iff.
  unfold noUnidentifiedKeys in Hkeys. rewrite Forall_forall in Hkeys.
  intros [(u & Hu & Hc) | (st & info & Hin & Hc & Hd)].
  - left. unfold mergeFrom, mergeAccesses in Hrun. simpl deref in Hrun.
    destruct (mergeAccessEntries (fun s0 => Ok (Some s0))
                (storageAccessMap other) (this, false))
      as [[S1 c1] | f] eqn:Hloop; cbn [bind] in Hrun; [| discriminate Hrun].
    apply mergeAccessEntries_unidentified_untouched in Hloop.
    + rewrite Hu in Hrun. unfold updateUnidentifiedAccess in Hrun.
      rewrite Hloop in Hrun.
      destruct (unidentifiedAccess this) as [cur |] eqn:Hcur.
      * specialize (Hinit cur Hcur).
        apply isInitialized_true_iff in Hinit.
        apply accessKindMayConflict_true_iff in Hc.
        destruct (updateAccessKind cur u) as [cur' c2] eqn:Hupd.
        injection Hrun as <- <-. simpl.
        exists cur'. split; [reflexivity |].
        apply accessKindMayConflict_true_iff.
        destruct Hc as [-> | ->]; [left; reflexivity | right].
        destruct Hinit as [-> | ->]; simpl in Hupd;
          injection Hupd as <- _; reflexivity.
      * injection Hrun as <- <-. simpl. exists u. auto.
    + intros e storage He Ht. injection Ht as <-. apply Hkeys, He.
  - right.
    destruct (mergeAccesses_present (fun s0 => Ok (Some s0)) this this'
                (Other other) changed st st info Hin eq_refl Hrun)
      as [Hid _].
    destruct (Hid (Hkeys _ Hin)) as (r & Hfind & HM & _).
    exists st, r. split; [apply find_In, Hfind |]. split; [| exact Hd].
    apply accessKindMayConflict_true_iff.
    apply accessKindMayConflict_true_iff in Hc.
    destruct Hc as [-> | HMi]; [left; reflexivity | right; apply HM, HMi].
Qed.

(** X7. A same-context merge covers the conflicts of the merged summary:
    when the map of [other] has no [Unidentified] key and the unidentified
    access of [this] is unset, [Read] or [Modify], then after a returning
    [mergeFrom] every access kind and storage that may conflict with
    [other] may conflict with the result. *)
Theorem mergeFrom_covers_other
  (isDistinctFrom : AccessedStorage.t -> AccessedStorage.t -> bool)
  (this other this' : FunctionAccessedStorage) (changed : bool)
  (k : SILAccessKind.t) (s : AccessedStorage.t) :
  noUnidentifiedKeys (storageAccessMap other) ->
  unidentifiedInitialized this ->
  mergeFrom this (Other other) = Ok (this', changed) ->
  mayConflictWith isDistinctFrom other k s = true ->
  mayConflictWith isDistinctFrom this' k s = true.
Proof.
  intros Hkeys Hinit Hrun Hc.
  eapply mergeFrom_conflicts_of_other; eassumption.
Qed.

Lemma mergeFrom_covers_other_witness :
  let distinct := fun a b => negb (AccessedStorage.eqb a b) in
  let this := mkFunctionAccessedStorage
                [(AccessedStorage.OfGlobal 1%N,
                  mkStorageAccessInfo SILAccessKind.Read true)]
                (Some SILAccessKind.Read) in
  let other := mkFunctionAccessedStorage
                 [(AccessedStorage.OfGlobal 1%N,
                   mkStorageAccessInfo SILAccessKind.Modify true)] None in
  exists this' changed,
    mergeFrom this (Other other) = Ok (this', changed)
    /\ mayConflictWith distinct this' SILAccessKind.Read
         (AccessedStorage.OfGlobal 1%N) = true.
Proof.
  intros distinct this other. eexists; eexists. split; [reflexivity |].
  eapply (mergeFrom_covers_other distinct this other).
  - unfold noUnidentifiedKeys. repeat constructor.
  - intros u Hu. injection Hu as <-. reflexivity.
  - reflexivity.
  - reflexivity.
Defined.

(** ** What a merge keeps and where its keys come from *)

Lemma info_mergeFrom_initialized (self RHS self' : StorageAccessInfo)
  (c : bool) :
  StorageAccessInfoOps.mergeFrom self RHS = Ok (self', c) ->
  isInitialized (accessKind self') = true.
Proof.
  unfold StorageAccessInfoOps.mergeFrom.
  destruct self as [ks fs], RHS as [kr fr]; simpl.
  destruct ks, kr, fs, fr; simpl; intros H; try discriminate H;
    injection H as <- <-; reflexivity.
Qed.

Lemma allInitialized_mergeEntry (m m' : StorageAccessMap)
  (k : AccessedStorage.t) (info : StorageAccessInfo) (c : bool) :
  mergeEntry m k info = Ok (m', c) ->
  allInitialized m -> allInitialized m'.
Proof.
  unfold mergeEntry. destruct (find m k) as [mapped |].
  - destruct (StorageAccessInfoOps.mergeFrom mapped info)
      as [[mapped' c0] | f] eqn:Hm; simpl; [| discriminate].
    intros H; injection H as <- <-. intros Hall.
    apply allInitialized_store; [exact Hall |].
    eapply info_mergeFrom_initialized; eassumption.
  - intros H; injection H as <- <-. auto.
Qed.


Section MergeInvariants.

Variable transformStorage
  : AccessedStorage.t -> result (option AccessedStorage.t).

Lemma allInitialized_mergeAccessEntries (l : StorageAccessMap)
  (S S' : FunctionAccessedStorage) (c c' : bool) :
  mergeAccessEntries transformStorage l (S, c) = Ok (S', c') ->
  allInitialized l ->
  allInitialized (storageAccessMap S) ->
  allInitialized (storageAccessMap S').
Proof.
  revert S c; induction l as [| e l IH]; intros S c.
  - simpl. intros H; injection H as <- <-. auto.
  - rewrite mergeAccessEntries_cons.
    destruct (mergeAccessEntry transformStorage (S, c) e)
      as [[S1 c1] | f] eqn:Hstep; cbn [bind]; [| discriminate].
    intros Hrest Hl HS. inversion Hl as [| ? ? He Hl']; subst.
    apply (IH _ _ Hrest Hl'). clear Hrest IH.
    unfold mergeAccessEntry in Hstep.
    destruct (transformStorage (fst e)) as [[storage |] | f]; simpl in Hstep;
      [| injection Hstep as <- <-; exact HS | discriminate Hstep].
    destruct (AccessedStorage.isUnidentified storage).
    + pose proof (updateUnidentifiedAccess_grows S (accessKind (snd e)))
        as [_ Hsame].
      destruct (updateUnidentifiedAccess S (accessKind (snd e))) as [S2 c2].
      injection Hstep as <- <-. simpl in Hsame. rewrite Hsame. exact HS.
    + unfold try_emplace in Hstep.
      destruct (find (storageAccessMap S) storage) as [mapped |].
      * destruct (mergeEntry (storageAccessMap S) storage (snd e))
          as [[m2 c2] | f] eqn:Hm; simpl in Hstep; [| discriminate Hstep].
        injection Hstep as <- <-. simpl.
        eapply allInitialized_mergeEntry; eassumption.
      * injection Hstep as <- <-. simpl.
        apply allInitialized_app_entry; assumption.
Qed.


End MergeInvariants.

(** X8. A merge keeps the shape of a summary: when [mergeAccesses] returns,
    whatever the transform, a map whose keys are pairwise different and
    never [Unidentified] stays so, and when the records of both summaries
    pass the assertion of the record merge, so do the records of the
    result. *)
Theorem mergeAccesses_keeps_invariants
  (this : FunctionAccessedStorage) (other : OtherRef)
  (transformStorage : AccessedStorage.t -> result (option AccessedStorage.t))
  (this' : FunctionAccessedStorage) (changed : bool) :
  mergeAccesses this other transformStorage = Ok (this', changed) ->
  (wellFormedMap (storageAccessMap this) ->
   wellFormedMap (storageAccessMap this'))
  /\ (allInitialized (storageAccessMap this) ->
      allInitialized (storageAccessMap (deref this other)) ->
      allInitialized (storageAccessMap this')).
Proof.
  intros Hrun. split; [eapply wellFormedMap_mergeAccesses; eassumption |].
  intros Hthis Hother. unfold mergeAccesses in Hrun.
  destruct (mergeAccessEntries transformStorage
              (storageAccessMap (deref this other)) (this, false))
    as [[S1 c1] | f] eqn:Hloop; cbn [bind] in Hrun; [| discriminate Hrun].
  pose proof (allInitialized_mergeAccessEntries _ _ _ _ _ _
                Hloop Hother Hthis) as H1.
  destruct (unidentifiedAccess (deref S1 other)) as [kind |].
  - pose proof (updateUnidentifiedAccess_grows S1 kind) as [_ Hsame].
    destruct (updateUnidentifiedAccess S1 kind) as [S2 c2].
    injection Hrun as <- <-. simpl in Hsame. rewrite Hsame. exact H1.
  - injection Hrun as <- <-. exact H1.
Qed.

Lemma mergeAccesses_keeps_invariants_witness :
  let this := mkFunctionAccessedStorage
                [(AccessedStorage.OfGlobal 1%N,
                  mkStorageAccessInfo SILAccessKind.Read true)] None in
  let other := mkFunctionAccessedStorage
                 [(AccessedStorage.OfGlobal 2%N,
                   mkStorageAccessInfo SILAccessKind.Modify true);
                  (AccessedStorage.OfUnidentified 3%N,
                   mkStorageAccessInfo SILAccessKind.Read true)] None in
  exists this' changed,
    mergeFrom this (Other other) = Ok (this', changed)
    /\ wellFormedMap (storageAccessMap this')
    /\ allInitialized (storageAccessMap this').
Proof.
  intros this other. eexists; eexists. split; [reflexivity |].
  destruct (mergeAccesses_keeps_invariants this (Other other)
              (fun s => Ok (Some s)) _ _ eq_refl) as [Hwf Hinit].
  split.
  - apply Hwf. split.
    + unfold uniqueKeys. simpl.
      constructor; [intros [] | constructor].
    + unfold noUnidentifiedKeys. repeat constructor.
  - apply Hinit; unfold allInitialized; repeat constructor.
Defined.



(** ** Visiting begin-access instructions *)

Lemma updateOptionalAccessKind_slot (S : FunctionAccessedStorage)
  (k : SILAccessKind.t) :
  fst (updateOptionalAccessKind (unidentifiedAccess S) (Some k))
  = unidentifiedAccess (fst (updateUnidentifiedAccess S k)).
Proof.
  unfold updateOptionalAccessKind, updateUnidentifiedAccess.
  destruct (unidentifiedAccess S) as [u |]; [| reflexivity].
  destruct (updateAccessKind u k); reflexivity.
Qed.

Lemma find_app_entry_other (m : StorageAccessMap) (k k' : AccessedStorage.t)
  (v : StorageAccessInfo) :
  k' <> k -> find (m ++ [(k, v)]) k' = find m k'.
Proof.
  intros Hne. rewrite find_app_entry.
  apply AccessedStorage_eqb_neq in Hne. rewrite Hne.
  destruct (find m k'); reflexivity.
Qed.

Section Visit.

Variable findAccessedStorageOrigin : SILValue -> AccessedStorage.t.

Lemma visitBeginAccess_unidentified (this : FunctionAccessedStorage)
  (b : BeginAccess) :
  getEnforcement b = SILAccessEnforcement.Dynamic ->
  AccessedStorage.isUnidentified
    (findAccessedStorageOrigin (getSource b)) = true ->
  visitBeginAccess findAccessedStorageOrigin this b
  = Ok (fst (updateUnidentifiedAccess this (getAccessKind b))).
Proof.
  intros Hdyn Hid. unfold visitBeginAccess. rewrite Hdyn, Hid.
  cbn [SILAccessEnforcement.eqb negb].
  rewrite updateOptionalAccessKind_slot.
  destruct (updateUnidentifiedAccess_grows this (getAccessKind b))
    as [_ Hsame].
  destruct (fst (updateUnidentifiedAccess this (getAccessKind b))) as [m u].
  simpl in *. rewrite Hsame. reflexivity.
Qed.

Lemma visitBeginAccess_identified (this this' : FunctionAccessedStorage)
  (b : BeginAccess) :
  getEnforcement b = SILAccessEnforcement.Dynamic ->
  AccessedStorage.isUnidentified
    (findAccessedStorageOrigin (getSource b)) = false ->
  visitBeginAccess findAccessedStorageOrigin this b = Ok this' ->
  unidentifiedAccess this' = unidentifiedAccess this
  /\ match find (storageAccessMap this)
             (findAccessedStorageOrigin (getSource b)) with
     | None =>
         storageAccessMap this'
         = storageAccessMap this
             ++ [(findAccessedStorageOrigin (getSource b),
                  StorageAccessInfo_of b)]
     | Some mapped =>
         exists mapped' c,
           StorageAccessInfoOps.mergeFrom mapped (StorageAccessInfo_of b)
           = Ok (mapped', c)
           /\ storageAccessMap this'
              = store (storageAccessMap this)
                  (findAccessedStorageOrigin (getSource b)) mapped'
     end.
Proof.
  intros Hdyn Hid. unfold visitBeginAccess. rewrite Hdyn, Hid. simpl.
  unfold try_emplace, mergeEntry.
  destruct (find (storageAccessMap this)
              (findAccessedStorageOrigin (getSource b)))
    as [mapped |] eqn:Hfind; simpl.
  - rewrite Hfind.
    destruct (StorageAccessInfoOps.mergeFrom mapped (StorageAccessInfo_of b))
      as [[mapped' c] | f]; simpl; [| discriminate].
    intros H; injection H as <-. simpl. split; [reflexivity |].
    exists mapped', c. split; reflexivity.
  - intros H; injection H as <-. simpl. split; reflexivity.
Qed.

Lemma visitBeginAccess_entriesGrow (this this' : FunctionAccessedStorage)
  (b : BeginAccess) :
  visitBeginAccess findAccessedStorageOrigin this b = Ok this' ->
  entriesGrow this this'.
Proof.
  destruct (getEnforcement b) eqn:Hdyn.
  - rewrite visitBeginAccess_not_dynamic by (rewrite Hdyn; discriminate).
    intros H; injection H as <-. apply entriesGrow_refl.
  - destruct (AccessedStorage.isUnidentified
                (findAccessedStorageOrigin (getSource b))) eqn:Hid.
    + rewrite (visitBeginAccess_unidentified this b Hdyn Hid).
      intros H; injection H as <-.
      apply updateUnidentifiedAccess_entriesGrow.
    + intros Hrun.
      destruct (visitBeginAccess_identified this this' b Hdyn Hid Hrun)
        as [Hunid Hmap].
      split.
      * destruct (find (storageAccessMap this)
                    (findAccessedStorageOrigin (getSource b)))
          as [mapped |] eqn:Hfind.
        -- destruct Hmap as (mapped' & c & Hm & ->).
           assert (Hinit : isInitialized (accessKind mapped) = true).
           { unfold StorageAccessInfoOps.mergeFrom in Hm.
             destruct (isInitialized (accessKind mapped));
               [reflexivity | discriminate Hm]. }
           destruct (info_mergeFrom_ok mapped (StorageAccessInfo_of b) Hinit)
             as (m2 & c2 & Hm2 & _ & Hle & _).
           rewrite Hm in Hm2. injection Hm2 as <- <-.
           apply store_In_le with (r := mapped); assumption.
        -- rewrite Hmap. intros k r Hin. exists r.
           split; [apply in_or_app; left; exact Hin | apply info_le_refl].
      * rewrite Hunid. intros u Hu. exists u.
        split; [exact Hu | apply accessKind_le_refl].
Qed.

End Visit.

(** X10. What a dynamically enforced begin-access, paired or unpaired,
    records when the visit returns. If the origin of its source is an
    identified storage: that storage is a key of the result, with the
    instruction's own record if it was no key before, and in any case with
    kind [Modify] if the instruction's kind is and with a cleared flag if
    the instruction lacks the no-nested-conflict annotation; every other
    key is mapped as before and the unidentified access is untouched. If
    the origin is [Unidentified]: the map is untouched and the
    unidentified access is set, to the instruction's kind if it was unset,
    and never left [Read] by a [Modify] access. *)
Theorem analyzeInstruction_records
  (findAccessedStorageOrigin : SILValue -> AccessedStorage.t)
  (this this' : FunctionAccessedStorage) (I : SILInstruction)
  (b : BeginAccess) :
  I = BeginAccessInst b \/ I = BeginUnpairedAccessInst b ->
  getEnforcement b = SILAccessEnforcement.Dynamic ->
  analyzeInstruction findAccessedStorageOrigin this I = Ok this' ->
  (AccessedStorage.isUnidentified
     (findAccessedStorageOrigin (getSource b)) = false ->
   unidentifiedAccess this' = unidentifiedAccess this
   /\ (exists r,
          find (storageAccessMap this')
               (findAccessedStorageOrigin (getSource b)) = Some r
          /\ (find (storageAccessMap this)
                   (findAccessedStorageOrigin (getSource b)) = None ->
              r = StorageAccessInfo_of b)
          /\ (getAccessKind b = SILAccessKind.Modify ->
              accessKind r = SILAccessKind.Modify)
          /\ (hasNoNestedConflict b = false -> noNestedConflict r = false))
   /\ (forall k, k <> findAccessedStorageOrigin (getSource b) ->
                 find (storageAccessMap this') k
                 = find (storageAccessMap this) k))
  /\ (AccessedStorage.isUnidentified
        (findAccessedStorageOrigin (getSource b)) = true ->
      storageAccessMap this' = storageAccessMap this
      /\ exists u,
           unidentifiedAccess this' = Some u
           /\ (unidentifiedAccess this = None -> u = getAccessKind b)
           /\ ~ (u = SILAccessKind.Read
                 /\ getAccessKind b = SILAccessKind.Modify)).
Proof.
  intros HI Hdyn Hrun.
  assert (Hvisit : visitBeginAccess findAccessedStorageOrigin this b
                   = Ok this')
    by (destruct HI as [-> | ->]; exact Hrun).
  clear Hrun HI. split.
  - intros Hid.
    destruct (visitBeginAccess_identified _ this this' b Hdyn Hid Hvisit)
      as [Hunid Hmap].
    split; [exact Hunid |].
    destruct (find (storageAccessMap this)
                (findAccessedStorageOrigin (getSource b)))
      as [mapped |] eqn:Hfind.
    + destruct Hmap as (mapped' & c & Hm & ->).
      destruct (info_mergeFrom_dominates _ _ _ _ Hm) as [HM Hf].
      split.
      * exists mapped'. split; [eapply find_store_same; eassumption |].
        split; [discriminate | split; [exact HM | exact Hf]].
      * intros k Hne. apply find_store_other, Hne.
    + rewrite Hmap. split.
      * exists (StorageAccessInfo_of b). split.
        -- rewrite find_app_entry, Hfind, AccessedStorage_eqb_refl.
           reflexivity.
        -- split; [reflexivity | split; auto].
      * intros k Hne. apply find_app_entry_other, Hne.
  - intros Hid.
    rewrite (visitBeginAccess_unidentified _ this b Hdyn Hid) in Hvisit.
    injection Hvisit as <-.
    destruct (updateUnidentifiedAccess_grows this (getAccessKind b))
      as [_ Hsame].
    split; [exact Hsame |].
    destruct (updateUnidentifiedAccess_absorbs this (getAccessKind b))
      as (u & Hset & Habs).
    exists u. split; [exact Hset |]. split.
    + intros Hnone. unfold updateUnidentifiedAccess in Hset.
      rewrite Hnone in Hset. simpl in Hset. injection Hset as <-.
      reflexivity.
    + intros [-> HM]. rewrite HM in Habs. discriminate Habs.
Qed.

Lemma analyzeInstruction_records_witness :
  let origin := fun v : SILValue =>
                  if (v =? 7)%N then AccessedStorage.OfGlobal 1%N
                  else AccessedStorage.OfUnidentified v in
  let this := mkFunctionAccessedStorage
                [(AccessedStorage.OfGlobal 1%N,
                  mkStorageAccessInfo SILAccessKind.Read true)] None in
  let b := mkBeginAccess SILAccessEnforcement.Dynamic 7%N
             SILAccessKind.Modify false in
  exists this' r,
    analyzeInstruction origin this (BeginUnpairedAccessInst b) = Ok this'
    /\ find (storageAccessMap this') (AccessedStorage.OfGlobal 1%N) = Some r
    /\ accessKind r = SILAccessKind.Modify
    /\ noNestedConflict r = false.
Proof.
  intros origin this b. eexists.
  destruct (analyzeInstruction_records origin this _
              (BeginUnpairedAccessInst b) b
              (or_intror eq_refl) eq_refl eq_refl) as [Hid _].
  destruct (Hid eq_refl) as (_ & (r & Hfind & _ & HM & Hf) & _).
  exists r. split; [reflexivity |]. split; [exact Hfind |].
  split; [apply HM; reflexivity | apply Hf; reflexivity].
Defined.

(** X11. The conflict query sees a recorded access. After a returning visit
    of a dynamically enforced begin-access of kind [Modify], every access
    kind may conflict on every storage that is not distinct from the
    origin of the instruction's source, when that origin is identified;
    and on every storage at all, when the origin is [Unidentified] and the
    unidentified access was unset, [Read] or [Modify] before the visit. *)
Theorem analyzeInstruction_then_mayConflictWith
  (findAccessedStorageOrigin : SILValue -> AccessedStorage.t)
  (isDistinctFrom : AccessedStorage.t -> AccessedStorage.t -> bool)
  (this this' : FunctionAccessedStorage) (I : SILInstruction)
  (b : BeginAccess) (k : SILAccessKind.t) (s : AccessedStorage.t) :
  I = BeginAccessInst b \/ I = BeginUnpairedAccessInst b ->
  getEnforcement b = SILAccessEnforcement.Dynamic ->
  getAccessKind b = SILAccessKind.Modify ->
  analyzeInstruction findAccessedStorageOrigin this I = Ok this' ->
  (AccessedStorage.isUnidentified
     (findAccessedStorageOrigin (getSource b)) = false ->
   isDistinctFrom s (findAccessedStorageOrigin (getSource b)) = false ->
   mayConflictWith isDistinctFrom this' k s = true)
  /\ (AccessedStorage.isUnidentified
        (findAccessedStorageOrigin (getSource b)) = true ->
      unidentifiedInitialized this ->
      mayConflictWith isDistinctFrom this' k s = true).
Proof.
  intros HI Hdyn HM Hrun.
  assert (Hvisit : visitBeginAccess findAccessedStorageOrigin this b
                   = Ok this')
    by (destruct HI as [-> | ->]; exact Hrun).
  clear Hrun HI. split.
  - intros Hid Hd. apply mayConflictWith_true_iff. right.
    destruct (visitBeginAccess_identified _ this this' b Hdyn Hid Hvisit)
      as [_ Hmap].
    destruct (find (storageAccessMap this)
                (findAccessedStorageOrigin (getSource b)))
      as [mapped |] eqn:Hfind.
    + destruct Hmap as (mapped' & c & Hm & Hstore).
      destruct (info_mergeFrom_dominates _ _ _ _ Hm) as [HM' _].
      exists (findAccessedStorageOrigin (getSource b)), mapped'.
      split; [| split; [| exact Hd]].
      * apply find_In. rewrite Hstore.
        eapply find_store_same; eassumption.
      * apply accessKindMayConflict_true_iff. right. apply HM', HM.
    + exists (findAccessedStorageOrigin (getSource b)),
        (StorageAccessInfo_of b).
      split; [| split; [| exact Hd]].
      * rewrite Hmap. apply in_or_app. right. left. reflexivity.
      * apply accessKindMayConflict_true_iff. right. exact HM.
  - intros Hid Hinit. apply mayConflictWith_true_iff. left.
    rewrite (visitBeginAccess_unidentified _ this b Hdyn Hid) in Hvisit.
    injection Hvisit as <-. rewrite HM.
    unfold updateUnidentifiedAccess.
    destruct (unidentifiedAccess this) as [u |] eqn:Hu; simpl.
    + specialize (Hinit u Hu). apply isInitialized_true_iff in Hinit.
      exists SILAccessKind.Modify.
      split; [destruct Hinit as [-> | ->]; reflexivity |].
      apply accessKindMayConflict_true_iff. right; reflexivity.
    + exists SILAccessKind.Modify. split; [reflexivity |].
      apply accessKindMayConflict_true_iff. right; reflexivity.
Qed.

Lemma analyzeInstruction_then_mayConflictWith_witness :
  let distinct := fun a b => negb (AccessedStorage.eqb a b) in
  let b := mkBeginAccess SILAccessEnforcement.Dynamic 7%N
             SILAccessKind.Modify true in
  exists this',
    analyzeInstruction AccessedStorage.OfGlobal
      (mkFunctionAccessedStorage [] None) (BeginAccessInst b) = Ok this'
    /\ mayConflictWith distinct this' SILAccessKind.Read
         (AccessedStorage.OfGlobal 7%N) = true.
Proof.
  intros distinct b. eexists. split; [reflexivity |].
  apply (proj1 (analyzeInstruction_then_mayConflictWith
                  AccessedStorage.OfGlobal distinct
                  (mkFunctionAccessedStorage [] None) _ (BeginAccessInst b) b
                  SILAccessKind.Read (AccessedStorage.OfGlobal 7%N)
                  (or_introl eq_refl) eq_refl eq_refl eq_refl));
    reflexivity.
Defined.

(** X12. A visit never loses a conflict: when [analyzeInstruction] returns,
    every access kind and storage that may conflict with the summary
    before the visit may conflict with it after. *)
Theorem analyzeInstruction_keeps_conflicts
  (findAccessedStorageOrigin : SILValue -> AccessedStorage.t)
  (isDistinctFrom : AccessedStorage.t -> AccessedStorage.t -> bool)
  (this this' : FunctionAccessedStorage) (I : SILInstruction)
  (k : SILAccessKind.t) (s : AccessedStorage.t) :
  analyzeInstruction findAccessedStorageOrigin this I = Ok this' ->
  mayConflictWith isDistinctFrom this k s = true ->
  mayConflictWith isDistinctFrom this' k s = true.
Proof.
  intros Hrun. apply entriesGrow_mayConflictWith.
  destruct I as [b | b | op]; simpl in Hrun.
  - eapply visitBeginAccess_entriesGrow; eassumption.
  - eapply visitBeginAccess_entriesGrow; eassumption.
  - injection Hrun as <-. apply entriesGrow_refl.
Qed.

Lemma analyzeInstruction_keeps_conflicts_witness :
  let distinct := fun a b => negb (AccessedStorage.eqb a b) in
  let this := mkFunctionAccessedStorage
                [(AccessedStorage.OfGlobal 7%N,
                  mkStorageAccessInfo SILAccessKind.Modify false)] None in
  let b := mkBeginAccess SILAccessEnforcement.Dynamic 7%N
             SILAccessKind.Read true in
  exists this',
    analyzeInstruction AccessedStorage.OfGlobal this (BeginAccessInst b)
    = Ok this'
    /\ mayConflictWith distinct this' SILAccessKind.Read
         (AccessedStorage.OfGlobal 7%N) = true.
Proof.
  intros distinct this b. eexists. split; [reflexivity |].
  apply (analyzeInstruction_keeps_conflicts AccessedStorage.OfGlobal distinct
           this _ (BeginAccessInst b) SILAccessKind.Read
           (AccessedStorage.OfGlobal 7%N) eq_refl).
  reflexivity.
Defined.

(** X13. A visit returns and keeps the shape of a summary whose records
    pass the assertion of the record merge: [analyzeInstruction] returns on
    every instruction, a map whose keys are pairwise different and never
    [Unidentified] stays so, and when the instruction, if it is a
    begin-access, has kind [Read] or [Modify], the records of the result
    pass the assertion again. *)
Theorem analyzeInstruction_returns
  (findAccessedStorageOrigin : SILValue -> AccessedStorage.t)
  (this : FunctionAccessedStorage) (I : SILInstruction) :
  allInitialized (storageAccessMap this) ->
  exists this',
    analyzeInstruction findAccessedStorageOrigin this I = Ok this'
    /\ (wellFormedMap (storageAccessMap this) ->
        wellFormedMap (storageAccessMap this'))
    /\ ((forall b, I = BeginAccessInst b \/ I = BeginUnpairedAccessInst b ->
                   isInitialized (getAccessKind b) = true) ->
        allInitialized (storageAccessMap this')).
Proof.
  intros Hall.
  assert (Hvisit : forall b, exists this',
    visitBeginAccess findAccessedStorageOrigin this b = Ok this'
    /\ (isInitialized (getAccessKind b) = true ->
        allInitialized (storageAccessMap this'))).
  { intros b. destruct (getEnforcement b) eqn:Hdyn.
    - exists this. split; [| auto].
      apply visitBeginAccess_not_dynamic. rewrite Hdyn; discriminate.
    - destruct (AccessedStorage.isUnidentified
                  (findAccessedStorageOrigin (getSource b))) eqn:Hid.
      + eexists. split.
        * apply visitBeginAccess_unidentified; assumption.
        * intros _.
          destruct (updateUnidentifiedAccess_grows this (getAccessKind b))
            as [_ ->]. exact Hall.
      + unfold visitBeginAccess. rewrite Hdyn, Hid.
        cbn [SILAccessEnforcement.eqb negb]. unfold try_emplace, mergeEntry.
        destruct (find (storageAccessMap this)
                    (findAccessedStorageOrigin (getSource b)))
          as [mapped |] eqn:Hfind; cbn [negb].
        * rewrite Hfind.
          pose proof (allInitialized_find _ _ _ Hall Hfind) as Hinit.
          destruct (info_mergeFrom_ok mapped (StorageAccessInfo_of b) Hinit)
            as (mapped' & c & -> & Hinit' & _).
          cbn [bind]. eexists. split; [reflexivity |]. intros _. simpl.
          apply allInitialized_store; assumption.
        * eexists. split; [reflexivity |]. intros Hb. simpl.
          apply allInitialized_app_entry; assumption. }
  destruct I as [b | b | op]; simpl.
  - destruct (Hvisit b) as (this' & Hrun & Hinit). exists this'.
    split; [exact Hrun |]. split.
    + apply (wellFormedMap_analyzeInstruction findAccessedStorageOrigin
               this this' (BeginAccessInst b) Hrun).
    + intros Hk. apply Hinit, (Hk b). left; reflexivity.
  - destruct (Hvisit b) as (this' & Hrun & Hinit). exists this'.
    split; [exact Hrun |]. split.
    + apply (wellFormedMap_analyzeInstruction findAccessedStorageOrigin
               this this' (BeginUnpairedAccessInst b) Hrun).
    + intros Hk. apply Hinit, (Hk b). right; reflexivity.
  - exists this. split; [reflexivity |]. split; auto.
Qed.

Lemma analyzeInstruction_returns_witness :
  let this := mkFunctionAccessedStorage
                [(AccessedStorage.OfGlobal 7%N,
                  mkStorageAccessInfo SILAccessKind.Read true)] None in
  let b := mkBeginAccess SILAccessEnforcement.Dynamic 7%N
             SILAccessKind.Modify true in
  exists this',
    analyzeInstruction AccessedStorage.OfGlobal this (BeginAccessInst b)
    = Ok this'
    /\ allInitialized (storageAccessMap this').
Proof.
  intros this b.
  destruct (analyzeInstruction_returns AccessedStorage.OfGlobal this
              (BeginAccessInst b))
    as (this' & Hrun & _ & Hinit).
  - unfold allInitialized. repeat constructor.
  - exists this'. split; [exact Hrun |]. apply Hinit.
    intros b' [Heq | Heq]; [| discriminate Heq].
    injection Heq as <-. reflexivity.
Defined.

(** A dynamically enforced access of an untracked kind is recorded as it
    is; a second access to the same storage then fails the assertion of
    the record merge. *)
Example analyzeInstruction_untracked_kind_twice :
  let b := mkBeginAccess SILAccessEnforcement.Dynamic 7%N
             SILAccessKind.Init false in
  (this' <- analyzeInstruction AccessedStorage.OfGlobal
              (mkFunctionAccessedStorage [] None) (BeginAccessInst b) ;;
   analyzeInstruction AccessedStorage.OfGlobal this' (BeginAccessInst b))
  = Abort AssertionFailed.
Proof. reflexivity. Qed.

(** ** Arguments of the call site *)

Lemma getArgument_In (args : list SILValue) (i : N) (v : SILValue) :
  getArgument args i = Some v -> In v args.
Proof. unfold getArgument. apply nth_error_In. Qed.

(** X14. [getCallerArg] only ever returns an operand of the call or of the
    partial application that is the callee's origin: the call's argument at
    the index when the index is below the call's argument count, otherwise
    the captured argument at the wrapped difference of the index and the
    index of the first applied argument. And the wrap-around of that
    unsigned difference selects nothing: for an index below the index of
    the first applied argument, when the captured arguments end within the
    range of [unsigned], nothing is returned. *)
Theorem getCallerArg_provenance
  (valueDef : SILValue -> ValueBase) (fullApply : FullApplySite)
  (paramIndex : N) :
  (forall argVal,
      getCallerArg valueDef fullApply paramIndex = Some argVal ->
      ((paramIndex < getNumArguments (fa_arguments fullApply))%N
       /\ getArgument (fa_arguments fullApply) paramIndex = Some argVal
       /\ In argVal (fa_arguments fullApply))
      \/ ((getNumArguments (fa_arguments fullApply) <= paramIndex)%N
          /\ exists arguments firstAppliedArg,
               valueDef (fa_calleeOrigin fullApply)
               = PartialApplyInst arguments firstAppliedArg
               /\ getArgument arguments
                    (unsigned_sub paramIndex firstAppliedArg) = Some argVal
               /\ In argVal arguments))
  /\ (forall arguments firstAppliedArg,
         (getNumArguments (fa_arguments fullApply) <= paramIndex)%N ->
         valueDef (fa_calleeOrigin fullApply)
         = PartialApplyInst arguments firstAppliedArg ->
         (paramIndex < firstAppliedArg)%N ->
         (firstAppliedArg + getNumArguments arguments <= 2 ^ 32)%N ->
         getCallerArg valueDef fullApply paramIndex = None).
Proof.
  split.
  - intros argVal. unfold getCallerArg.
    destruct (paramIndex <? getNumArguments (fa_arguments fullApply))%N
      eqn:Hlt.
    + intros Harg. left. apply N.ltb_lt in Hlt.
      split; [exact Hlt | split; [exact Harg |]].
      eapply getArgument_In; eassumption.
    + apply N.ltb_ge in Hlt.
      destruct (valueDef (fa_calleeOrigin fullApply))
        as [i | arguments first |]; try discriminate.
      destruct (unsigned_sub paramIndex first <? getNumArguments arguments)%N;
        [| discriminate].
      intros Harg. right. split; [exact Hlt |].
      exists arguments, first. split; [reflexivity | split; [exact Harg |]].
      eapply getArgument_In; eassumption.
  - intros arguments first Hge Hpai Hbelow Hfit. unfold getCallerArg.
    apply N.ltb_ge in Hge. rewrite Hge, Hpai.
    assert (Hwrap : (getNumArguments arguments
                     <= unsigned_sub paramIndex first)%N).
    { unfold unsigned_sub.
      assert (H32 : (2 ^ 32 = 4294967296)%Z) by reflexivity.
      assert (HN32 : (2 ^ 32 = 4294967296)%N) by reflexivity.
      rewrite HN32 in Hfit. rewrite H32.
      replace ((Z.of_N paramIndex - Z.of_N first) mod 4294967296)%Z
        with (Z.of_N paramIndex - Z.of_N first + 4294967296)%Z.
      - lia.
      - apply Z.mod_unique with (q := (-1)%Z); lia. }
    apply N.ltb_ge in Hwrap. rewrite Hwrap. reflexivity.
Qed.

Lemma getCallerArg_provenance_witness :
  getCallerArg (fun _ => PartialApplyInst [8%N; 9%N] 1%N)
    (mkFullApplySite [] 30%N) 0%N = None.
Proof.
  apply (proj2 (getCallerArg_provenance
                  (fun _ => PartialApplyInst [8%N; 9%N] 1%N)
                  (mkFullApplySite [] 30%N) 0%N) [8%N; 9%N] 1%N).
  - unfold getNumArguments; simpl; lia.
  - reflexivity.
  - lia.
  - vm_compute. discriminate.
Defined.

(** ** The shape of a transformed storage *)



(** ** The order of record merges *)

Lemma info_mergeFromAll_swap (R x y : StorageAccessInfo) :
  isInitialized (accessKind R) = true ->
  StorageAccessInfoOps.mergeFromAll R [x; y]
  = StorageAccessInfoOps.mergeFromAll R [y; x].
Proof.
  destruct R as [kR fR], x as [kx fx], y as [ky fy]. simpl.
  destruct kR; simpl; try discriminate; intros _;
    destruct kx, ky, fR, fx, fy; reflexivity.
Qed.

(** X16. The order in which records are merged into a record does not
    matter: for a record that passes the assertion of the record merge,
    merging the records of a list one after the other gives the same
    record whatever the order of the list. *)
Theorem StorageAccessInfo_merge_order_independent
  (R : StorageAccessInfo) (l l' : list StorageAccessInfo) :
  isInitialized (accessKind R) = true ->
  Permutation l l' ->
  StorageAccessInfoOps.mergeFromAll R l
  = StorageAccessInfoOps.mergeFromAll R l'.
Proof.
  intros Hinit Hperm. revert R Hinit.
  induction Hperm as [| x l l' _ IH | x y l | l1 l2 l3 _ IH1 _ IH2];
    intros R Hinit.
  - reflexivity.
  - simpl.
    destruct (info_mergeFrom_ok R x Hinit) as (R1 & c & -> & Hinit1 & _).
    simpl. apply IH, Hinit1.
  - change (y :: x :: l) with ([y; x] ++ l).
    change (x :: y :: l) with ([x; y] ++ l).
    rewrite !info_mergeFromAll_app.
    rewrite (info_mergeFromAll_swap R y x Hinit). reflexivity.
  - rewrite (IH1 R Hinit). apply IH2, Hinit.
Qed.

Lemma StorageAccessInfo_merge_order_independent_witness :
  let R := mkStorageAccessInfo SILAccessKind.Read true in
  let a := mkStorageAccessInfo SILAccessKind.Modify true in
  let b := mkStorageAccessInfo SILAccessKind.Read false in
  StorageAccessInfoOps.mergeFromAll R [a; b]
  = StorageAccessInfoOps.mergeFromAll R [b; a].
Proof.
  intros R a b.
  apply (StorageAccessInfo_merge_order_independent R [a; b] [b; a] eq_refl).
  apply perm_swap.
Defined.

(** ** Summaries of functions without a body, queried *)

(** X17. What the conflict query answers on the summary built by
    [summarizeFunction] from an empty summary for a function without a
    body. When its side effects cannot be summarised, or may write
    globally or through some parameter, every access kind may conflict on
    every storage. When they may read but not write, exactly the [Modify]
    accesses may conflict, on every storage. When they neither read nor
    write, nothing may conflict. *)
Theorem summarizeFunction_then_mayConflictWith
  (isDefinition : SILFunction -> bool)
  (summarizeSideEffects : SILFunction -> option FunctionSideEffects)
  (isDistinctFrom : AccessedStorage.t -> AccessedStorage.t -> bool)
  (F : SILFunction) :
  isDefinition F = false ->
  exists this',
    summarizeFunction isDefinition summarizeSideEffects
      (mkFunctionAccessedStorage [] None) F = Ok (this', true)
    /\ forall k s,
         mayConflictWith isDistinctFrom this' k s
         = match summarizeSideEffects F with
           | None => true
           | Some fx =>
               if mayWrite (getGlobalEffects fx)
                  || existsb mayWrite (getParameterEffects fx)
               then true
               else if mayRead (getGlobalEffects fx)
                       || existsb mayRead (getParameterEffects fx)
               then SILAccessKind.eqb k SILAccessKind.Modify
               else false
           end.
Proof.
  intros HF. unfold summarizeFunction. simpl. rewrite HF.
  destruct (summarizeSideEffects F) as [fx |].
  - rewrite orParameterEffects_existsb; simpl.
    destruct (mayWrite (getGlobalEffects fx)
              || existsb mayWrite (getParameterEffects fx)).
    + eexists. split; [reflexivity |]. intros k s.
      unfold mayConflictWith; simpl. destruct k; reflexivity.
    + destruct (mayRead (getGlobalEffects fx)
                || existsb mayRead (getParameterEffects fx)).
      * eexists. split; [reflexivity |]. intros k s.
        unfold mayConflictWith; simpl. destruct k; reflexivity.
      * eexists. split; [reflexivity |]. intros k s. reflexivity.
  - eexists. split; [reflexivity |]. intros k s.
    unfold mayConflictWith; simpl. destruct k; reflexivity.
Qed.

Lemma summarizeFunction_then_mayConflictWith_witness :
  let fx := mkFunctionSideEffects (mkEffects true false)
              [mkEffects false false] in
  exists this',
    summarizeFunction (fun _ => false) (fun _ => Some fx)
      (mkFunctionAccessedStorage [] None) 5%N = Ok (this', true)
    /\ mayConflictWith (fun _ _ => true) this' SILAccessKind.Modify
         (AccessedStorage.OfGlobal 1%N) = true
    /\ mayConflictWith (fun _ _ => true) this' SILAccessKind.Read
         (AccessedStorage.OfGlobal 1%N) = false.
Proof.
  intros fx.
  destruct (summarizeFunction_then_mayConflictWith (fun _ => false)
              (fun _ => Some fx) (fun _ _ => true) 5%N eq_refl)
    as (this' & Hrun & Hquery).
  exists this'. split; [exact Hrun |].
  split; rewrite Hquery; reflexivity.
Defined.

(** ** Where the conflicts of a merged summary come from *)

Lemma store_In_inv (m : StorageAccessMap) (k : AccessedStorage.t)
  (r' : StorageAccessInfo) (k0 : AccessedStorage.t) (r0 : StorageAccessInfo) :
  In (k0, r0) (store m k r') ->
  In (k0, r0) m \/ (k0 = k /\ r0 = r').
Proof.
  induction m as [| [k1 r1] m IH]; simpl; [intros [] |].
  destruct (AccessedStorage.eqb k k1) eqn:E; simpl.
  - apply AccessedStorage_eqb_eq in E. subst k1.
    intros [Heq | Hin]; [right; injection Heq as <- <-; auto | auto].
  - intros [Heq | Hin]; [auto |].
    destruct (IH Hin) as [H | H]; auto.
Qed.

Lemma info_mergeFrom_conflict (self RHS self' : StorageAccessInfo) (c : bool)
  (k : SILAccessKind.t) :
  StorageAccessInfoOps.mergeFrom self RHS = Ok (self', c) ->
  accessKindMayConflict k (accessKind self') = true ->
  accessKindMayConflict k (accessKind self) = true
  \/ accessKindMayConflict k (accessKind RHS) = true.
Proof.
  unfold StorageAccessInfoOps.mergeFrom.
  destruct self as [ks fs], RHS as [kr fr]; simpl.
  destruct ks, kr, fs, fr; simpl; intros H; try discriminate H;
    injection H as <- <-; simpl; auto.
Qed.

Lemma updateAccessKind_conflict (cur kind k : SILAccessKind.t) :
  accessKindMayConflict k (fst (updateAccessKind cur kind)) = true ->
  accessKindMayConflict k cur = true \/ accessKindMayConflict k kind = true.
Proof. destruct cur, kind; simpl; auto. Qed.

Section ConflictSources.

Variable transformStorage
  : AccessedStorage.t -> result (option AccessedStorage.t).
Variable isDistinctFrom : AccessedStorage.t -> AccessedStorage.t -> bool.
Variable k : SILAccessKind.t.
Variable s : AccessedStorage.t.
Variable Src : Prop.

Lemma updateUnidentifiedAccess_explained (S : FunctionAccessedStorage)
  (kind : SILAccessKind.t) :
  conflictsExplained isDistinctFrom k s Src S ->
  (accessKindMayConflict k kind = true -> Src) ->
  conflictsExplained isDistinctFrom k s Src
    (fst (updateUnidentifiedAccess S kind)).
Proof.
  intros [Hmap Hunid] Hkind.
  destruct (updateUnidentifiedAccess_grows S kind) as [_ Hsame].
  split; [rewrite Hsame; exact Hmap |].
  unfold updateUnidentifiedAccess.
  destruct (unidentifiedAccess S) as [cur |] eqn:Hcur; simpl.
  - pose proof (updateAccessKind_conflict cur kind k) as Hc.
    destruct (updateAccessKind cur kind) as [cur' c]; simpl in *.
    intros u Hu Hku. injection Hu as <-.
    destruct (Hc Hku) as [H | H]; [apply (Hunid cur eq_refl H) | auto].
  - intros u Hu Hku. injection Hu as <-. auto.
Qed.

Lemma mergeAccessEntry_explained (S S' : FunctionAccessedStorage)
  (c c' : bool) (e : AccessedStorage.t * StorageAccessInfo) :
  conflictsExplained isDistinctFrom k s Src S ->
  entryExplained transformStorage isDistinctFrom k s Src e ->
  mergeAccessEntry transformStorage (S, c) e = Ok (S', c') ->
  conflictsExplained isDistinctFrom k s Src S'.
Proof.
  intros HS He. unfold mergeAccessEntry. unfold entryExplained in He.
  destruct (transformStorage (fst e)) as [[storage |] | f]; simpl;
    [| intros H; injection H as <- <-; exact HS | discriminate].
  specialize (He storage eq_refl).
  destruct (AccessedStorage.isUnidentified storage) eqn:Hid.
  - pose proof (updateUnidentifiedAccess_explained S (accessKind (snd e)) HS)
      as Hexp.
    destruct (updateUnidentifiedAccess S (accessKind (snd e))) as [S1 c1].
    intros H; injection H as <- <-. apply Hexp. auto.
  - destruct HS as [Hmap Hunid]. unfold try_emplace, mergeEntry.
    destruct (find (storageAccessMap S) storage) as [mapped |] eqn:Hfind.
    + rewrite Hfind.
      destruct (StorageAccessInfoOps.mergeFrom mapped (snd e))
        as [[mapped' c0] | f] eqn:Hm; simpl; [| discriminate].
      intros H; injection H as <- <-. split; simpl; [| exact Hunid].
      intros st r Hin Hc Hd.
      destruct (store_In_inv _ _ _ _ _ Hin) as [Hold | [-> ->]].
      * apply (Hmap st r Hold Hc Hd).
      * destruct (info_mergeFrom_conflict _ _ _ _ _ Hm Hc) as [H | H].
        -- apply (Hmap storage mapped (find_In _ _ _ Hfind) H Hd).
        -- apply He; auto.
    + intros H; injection H as <- <-. split; simpl; [| exact Hunid].
      intros st r Hin Hc Hd. apply in_app_or in Hin.
      destruct Hin as [Hold | [Heq | []]].
      * apply (Hmap st r Hold Hc Hd).
      * injection Heq as <- <-. apply He; auto.
Qed.

Lemma mergeAccessEntries_explained (l : StorageAccessMap)
  (S S' : FunctionAccessedStorage) (c c' : bool) :
  conflictsExplained isDistinctFrom k s Src S ->
  Forall (entryExplained transformStorage isDistinctFrom k s Src) l ->
  mergeAccessEntries transformStorage l (S, c) = Ok (S', c') ->
  conflictsExplained isDistinctFrom k s Src S'.
Proof.
  revert S c; induction l as [| e l IH]; intros S c HS Hl.
  - simpl. intros H; injection H as <- <-. exact HS.
  - inversion Hl as [| ? ? He Hl']; subst.
    rewrite mergeAccessEntries_cons.
    destruct (mergeAccessEntry transformStorage (S, c) e)
      as [[S1 c1] | f] eqn:Hstep; cbn [bind]; [| discriminate].
    apply IH; [| exact Hl'].
    eapply mergeAccessEntry_explained; eassumption.
Qed.

Lemma mergeAccesses_explained (this this' : FunctionAccessedStorage)
  (other : OtherRef) (changed : bool) :
  conflictsExplained isDistinctFrom k s Src this ->
  Forall (entryExplained transformStorage isDistinctFrom k s Src)
         (storageAccessMap (deref this other)) ->
  (forall u, unidentifiedAccess (deref this other) = Some u ->
             accessKindMayConflict k u = true -> Src) ->
  mergeAccesses this other transformStorage = Ok (this', changed) ->
  conflictsExplained isDistinctFrom k s Src this'.
Proof.
  intros Hthis Hentries Hunid. unfold mergeAccesses.
  destruct (mergeAccessEntries transformStorage
              (storageAccessMap (deref this other)) (this, false))
    as [[S1 c1] | f] eqn:Hloop; cbn [bind]; [| discriminate].
  pose proof (mergeAccessEntries_explained _ _ _ _ _ Hthis Hentries Hloop)
    as H1.
  destruct (unidentifiedAccess (deref S1 other)) as [kind |] eqn:Hkind.
  - pose proof (updateUnidentifiedAccess_explained S1 kind H1) as Hexp.
    destruct (updateUnidentifiedAccess S1 kind) as [S2 c2].
    intros H; injection H as <- <-. apply Hexp.
    destruct other as [| o]; simpl in *.
    + destruct H1 as [_ Hu1]. apply (Hu1 kind Hkind).
    + apply (Hunid kind Hkind).
  - intros H; injection H as <- <-. exact H1.
Qed.

End ConflictSources.

Lemma conflictsExplained_mayConflictWith
  (isDistinctFrom : AccessedStorage.t -> AccessedStorage.t -> bool)
  (k : SILAccessKind.t) (s : AccessedStorage.t) (Src : Prop)
  (S : FunctionAccessedStorage) :
  conflictsExplained isDistinctFrom k s Src S ->
  mayConflictWith isDistinctFrom S k s = true -> Src.
Proof.
  intros [Hmap Hunid]. rewrite mayConflictWith_true_iff.
  intros [(u & Hu & Hc) | (st & info & Hin & Hc & Hd)]; eauto.
Qed.

Lemma mayConflictWith_explains_itself
  (isDistinctFrom : AccessedStorage.t -> AccessedStorage.t -> bool)
  (k : SILAccessKind.t) (s : AccessedStorage.t)
  (S : FunctionAccessedStorage) :
  conflictsExplained isDistinctFrom k s
    (mayConflictWith isDistinctFrom S k s = true) S.
Proof.
  split.
  - intros st r Hin Hc Hd. apply mayConflictWith_true_iff. right.
    exists st, r. auto.
  - intros u Hu Hc. apply mayConflictWith_true_iff. left. exists u. auto.
Qed.

Lemma conflictsExplained_weaken
  (isDistinctFrom : AccessedStorage.t -> AccessedStorage.t -> bool)
  (k : SILAccessKind.t) (s : AccessedStorage.t) (Src Src' : Prop)
  (S : FunctionAccessedStorage) :
  (Src -> Src') ->
  conflictsExplained isDistinctFrom k s Src S ->
  conflictsExplained isDistinctFrom k s Src' S.
Proof.
  intros Himp [Hmap Hunid]. split.
  - intros st r Hin Hc Hd. apply Himp. eapply Hmap; eassumption.
  - intros u Hu Hc. apply Himp. eapply Hunid; eassumption.
Qed.

(** X18. A merge reports no conflict without a cause. When [mergeAccesses]
    returns and the result may conflict with an access kind [k] on a
    storage [s], then the receiving summary already did, or the
    unidentified access of the other summary conflicts with [k], or some
    entry of the other summary has a kind that conflicts with [k] and a
    transform that is [Unidentified] or not distinct from [s]. *)
Theorem mergeAccesses_conflict_sources
  (isDistinctFrom : AccessedStorage.t -> AccessedStorage.t -> bool)
  (this other : FunctionAccessedStorage)
  (transformStorage : AccessedStorage.t -> result (option AccessedStorage.t))
  (this' : FunctionAccessedStorage) (changed : bool)
  (k : SILAccessKind.t) (s : AccessedStorage.t) :
  mergeAccesses this (Other other) transformStorage = Ok (this', changed) ->
  mayConflictWith isDistinctFrom this' k s = true ->
  mayConflictWith isDistinctFrom this k s = true
  \/ (exists u, unidentifiedAccess other = Some u
                /\ accessKindMayConflict k u = true)
  \/ (exists key info storage,
         In (key, info) (storageAccessMap other)
         /\ transformStorage key = Ok (Some storage)
         /\ accessKindMayConflict k (accessKind info) = true
         /\ (AccessedStorage.isUnidentified storage = true
             \/ isDistinctFrom s storage = false)).
Proof.
  intros Hrun. apply conflictsExplained_mayConflictWith.
  eapply mergeAccesses_explained; [| | | exact Hrun].
  - eapply conflictsExplained_weaken;
      [| apply mayConflictWith_explains_itself]. auto.
  - simpl. apply Forall_forall. intros [key info] Hin st Ht Hc Hd.
    right; right. exists key, info, st. auto.
  - simpl. intros u Hu Hc. right; left. exists u. auto.
Qed.

Lemma mergeAccesses_conflict_sources_witness :
  let distinct := fun a b => negb (AccessedStorage.eqb a b) in
  let caller := mkFunctionAccessedStorage [] None in
  let callee := mkFunctionAccessedStorage
                  [(AccessedStorage.OfGlobal 2%N,
                    mkStorageAccessInfo SILAccessKind.Modify false)] None in
  exists this' changed,
    mergeFrom caller (Other callee) = Ok (this', changed)
    /\ (mayConflictWith distinct caller SILAccessKind.Read
          (AccessedStorage.OfGlobal 2%N) = true
        \/ (exists u, unidentifiedAccess callee = Some u
                      /\ accessKindMayConflict SILAccessKind.Read u = true)
        \/ (exists key info storage,
               In (key, info) (storageAccessMap callee)
               /\ Ok (Some key) = Ok (Some storage)
               /\ accessKindMayConflict SILAccessKind.Read (accessKind info)
                  = true
               /\ (AccessedStorage.isUnidentified storage = true
                   \/ distinct (AccessedStorage.OfGlobal 2%N) storage
                      = false))).
Proof.
  intros distinct caller callee. eexists; eexists. split; [reflexivity |].
  apply (mergeAccesses_conflict_sources distinct caller callee
           (fun s => Ok (Some s)) _ _ SILAccessKind.Read
           (AccessedStorage.OfGlobal 2%N) eq_refl).
  reflexivity.
Defined.

(** X19. For the conflict query a same-context merge is exactly the union
    of the two summaries: when the map of [other] has no [Unidentified]
    key and the unidentified access of [this] is unset, [Read] or
    [Modify], then after a returning [mergeFrom] an access kind and a
    storage may conflict with the result if and only if they may conflict
    with [this] or with [other]. *)
Theorem mergeFrom_conflicts_union
  (isDistinctFrom : AccessedStorage.t -> AccessedStorage.t -> bool)
  (this other this' : FunctionAccessedStorage) (changed : bool)
  (k : SILAccessKind.t) (s : AccessedStorage.t) :
  noUnidentifiedKeys (storageAccessMap other) ->
  unidentifiedInitialized this ->
  mergeFrom this (Other other) = Ok (this', changed) ->
  mayConflictWith isDistinctFrom this' k s
  = mayConflictWith isDistinctFrom this k s
    || mayConflictWith isDistinctFrom other k s.
Proof.
  intros Hkeys Hinit Hrun.
  destruct (mayConflictWith isDistinctFrom this' k s) eqn:E'.
  - symmetry. apply orb_true_iff. revert E'.
    apply conflictsExplained_mayConflictWith.
    eapply mergeAccesses_explained; [| | | exact Hrun].
    + eapply conflictsExplained_weaken;
        [| apply mayConflictWith_explains_itself]. auto.
    + simpl. apply Forall_forall. intros [key info] Hin st Ht Hc Hd.
      injection Ht as <-. right. apply mayConflictWith_true_iff. right.
      exists key, info. split; [exact Hin | split; [exact Hc |]].
      destruct Hd as [Hd | Hd]; [| exact Hd].
      unfold noUnidentifiedKeys in Hkeys. rewrite Forall_forall in Hkeys.
      pose proof (Hkeys _ Hin) as Hk. simpl in Hk.
      rewrite Hk in Hd. discriminate Hd.
    + simpl. intros u Hu Hc. right. apply mayConflictWith_true_iff. left.
      exists u. auto.
  - symmetry. apply orb_false_iff. split.
    + destruct (mayConflictWith isDistinctFrom this k s) eqn:E;
        [| reflexivity].
      rewrite <- E'. symmetry.
      eapply entriesGrow_mayConflictWith; [| exact E].
      eapply mergeAccesses_entriesGrow; exact Hrun.
    + destruct (mayConflictWith isDistinctFrom other k s) eqn:E;
        [| reflexivity].
      rewrite <- E'. symmetry.
      eapply mergeFrom_conflicts_of_other; eassumption.
Qed.

Lemma mergeFrom_conflicts_union_witness :
  let distinct := fun a b => negb (AccessedStorage.eqb a b) in
  let this := mkFunctionAccessedStorage
                [(AccessedStorage.OfGlobal 1%N,
                  mkStorageAccessInfo SILAccessKind.Read true)] None in
  let other := mkFunctionAccessedStorage
                 [(AccessedStorage.OfGlobal 2%N,
                   mkStorageAccessInfo SILAccessKind.Modify true)] None in
  exists this' changed,
    mergeFrom this (Other other) = Ok (this', changed)
    /\ mayConflictWith distinct this' SILAccessKind.Read
         (AccessedStorage.OfGlobal 1%N)
       = mayConflictWith distinct this SILAccessKind.Read
           (AccessedStorage.OfGlobal 1%N)
         || mayConflictWith distinct other SILAccessKind.Read
              (AccessedStorage.OfGlobal 1%N).
Proof.
  intros distinct this other. eexists; eexists. split; [reflexivity |].
  eapply (mergeFrom_conflicts_union distinct this other).
  - unfold noUnidentifiedKeys. repeat constructor.
  - intros u Hu. discriminate Hu.
  - reflexivity.
Defined.

(** ** The two joins into the unidentified access *)

(** X20. The instruction visit and the merge join a kind into the
    unidentified access alike: [updateOptionalAccessKind] applied to the
    unidentified access of a summary and a set kind gives the value and
    the flag [updateUnidentifiedAccess] gives; with an unset right-hand
    side it changes nothing and returns [false]; and the flag it returns
    is [false] exactly when the left-hand side is left as it was. *)
Theorem updateOptionalAccessKind_spec
  (S : FunctionAccessedStorage) (LHS RHS : option SILAccessKind.t)
  (kind : SILAccessKind.t) :
  updateOptionalAccessKind (unidentifiedAccess S) (Some kind)
  = (unidentifiedAccess (fst (updateUnidentifiedAccess S kind)),
     snd (updateUnidentifiedAccess S kind))
  /\ updateOptionalAccessKind LHS None = (LHS, false)
  /\ (snd (updateOptionalAccessKind LHS RHS) = false
      <-> fst (updateOptionalAccessKind LHS RHS) = LHS).
Proof.
  split; [| split; [reflexivity |]].
  - unfold updateOptionalAccessKind, updateUnidentifiedAccess.
    destruct (unidentifiedAccess S) as [u |]; [| reflexivity].
    destruct (updateAccessKind u kind); reflexivity.
  - destruct LHS as [l |], RHS as [r |]; simpl;
      try (split; [reflexivity | reflexivity]);
      try (split; intros H; discriminate H).
    destruct l, r; simpl; split; intros H; try reflexivity; discriminate H.
Qed.

Lemma updateOptionalAccessKind_spec_witness :
  updateOptionalAccessKind (Some SILAccessKind.Read)
    (Some SILAccessKind.Modify) = (Some SILAccessKind.Modify, true).
Proof.
  destruct (updateOptionalAccessKind_spec
              (mkFunctionAccessedStorage [] (Some SILAccessKind.Read))
              None None SILAccessKind.Modify) as [H _].
  exact H.
Defined.
